(** * Retinotopic map formation: a model of [project_version_8.py]

    The development embeds the map-formation engine of the repository
    (polarity markers, retinal activation patterns, tectal relaxation,
    Hebbian update and the quality metric) and proves properties of it.

    Conventions of the embedding:
    - numpy [float64] values are idealised as real numbers ([R]);
    - neuron counts ([XT], [YT], [XR], [YR]) are naturals, neuron indices
      are integers ([Z]) because the code can compute negative ones, and
      numpy's index normalisation (negative indices count from the end,
      anything else out of range raises [IndexError]) is written out;
    - a Python call either returns, raises, or is still running when the
      fuel (or the tape of random draws) given to the model is used up;
    - [np.random] is a tape of natural numbers: each draw consumes one
      entry and reduces it modulo the number of alternatives. *)

From Stdlib Require Import Reals Lra Lia ZArith.
From stdpp Require Import base list option strings.

Open Scope R_scope.

(** ** Outcomes of Python calls *)

Inductive exn : Set :=
  | IndexError
  | ZeroDivisionError
  | ValueError
  | TypeError.

Inductive res (A : Type) : Type :=
  | Ret (a : A)
  | Raise (e : exn)
  | OutOfFuel.

Arguments Ret {A} a.
Arguments Raise {A} e.
Arguments OutOfFuel {A}.

#[global] Instance res_ret : MRet res := @Ret.
#[global] Instance res_bind : MBind res := fun A B f m =>
  match m with
  | Ret a => f a
  | Raise e => Raise e
  | OutOfFuel => OutOfFuel
  end.

#[global] Instance Rlt_decision : RelDecision Rlt := Rlt_dec.
#[global] Instance Rgt_decision : RelDecision Rgt := Rgt_dec.
#[global] Instance R_eq_decision : EqDecision R := Req_EM_T.

(** ** numpy arrays *)

(** A 2-D array is the list of its rows. *)
Abbreviation matrix := (list (list R)).

Definition shape (s : matrix) (rows cols : nat) : Prop :=
  length s = rows /\ Forall (fun row => length row = cols) s.

(** Index normalisation of numpy for an axis of length [n]. *)
Definition np_index (n : nat) (i : Z) : res nat :=
  if decide (0 <= i < Z.of_nat n)%Z then Ret (Z.to_nat i)
  else if decide (- Z.of_nat n <= i < 0)%Z then Ret (Z.to_nat (Z.of_nat n + i))
  else Raise IndexError.

(** [s[y, x]] *)
Definition mget (s : matrix) (y x : Z) : res R :=
  y' ← np_index (length s) y;
  match s !! y' with
  | Some row =>
      x' ← np_index (length row) x;
      match row !! x' with
      | Some v => Ret v
      | None => Raise IndexError
      end
  | None => Raise IndexError
  end.

(** [s[y, x] = v] *)
Definition mset (s : matrix) (y x : Z) (v : R) : res matrix :=
  y' ← np_index (length s) y;
  match s !! y' with
  | Some row =>
      x' ← np_index (length row) x;
      Ret (<[y' := <[x' := v]> row]> s)
  | None => Raise IndexError
  end.

(** Entry of a matrix at natural coordinates, when it exists. *)
Definition mat_at (s : matrix) (y x : nat) : option R :=
  s !! y ≫= (fun row => row !! x).

(** [for a in l: body] over a state [S]. *)
Fixpoint for_each {A S : Type} (l : list A) (body : A -> S -> res S) (s : S)
  : res S :=
  match l with
  | [] => Ret s
  | a :: l' => s' ← body a s; for_each l' body s'
  end.

(** [range(n)] *)
Definition range (n : nat) : list Z := Z.of_nat <$> seq 0 n.

(** ** Convergence test *)

(** [convergence(mean_new_H_grid, mean_H_grid)] *)
Definition convergence (mean_new_H_grid mean_H_grid : R) : bool :=
  bool_decide (Rabs (mean_new_H_grid - mean_H_grid) < 0.005 * mean_H_grid).

(** ** Thresholding *)

Definition thresholded (theta v : R) : R :=
  if decide (v > theta) then v - theta else 0.

(** [threshold(H_grid, theta, XT, YT)] *)
Definition threshold (H_grid : matrix) (theta : R) (XT YT : nat) : res matrix :=
  let H_star := H_grid in
  for_each (range YT) (fun j H_star =>
    for_each (range XT) (fun i H_star =>
      v ← mget H_star j i;
      if decide (v > theta) then
        v' ← mget H_star j i; mset H_star j i (v' - theta)
      else mset H_star j i 0) H_star) H_star.

(** ** Random source *)

(** A computation that draws from the tape of random numbers. *)
Definition rnd (A : Type) : Type := list nat -> res (A * list nat).

#[global] Instance rnd_ret : MRet rnd := fun A a tape => Ret (a, tape).
#[global] Instance rnd_bind : MBind rnd := fun A B f m tape =>
  match m tape with
  | Ret (a, tape') => f a tape'
  | Raise e => Raise e
  | OutOfFuel => OutOfFuel
  end.

(** A call that draws nothing. *)
Definition lift {A : Type} (m : res A) : rnd A := fun tape =>
  match m with
  | Ret a => Ret (a, tape)
  | Raise e => Raise e
  | OutOfFuel => OutOfFuel
  end.

(** [np.random.randint(n)]: an integer of [[0, n)]. *)
Definition randint (n : Z) : rnd Z := fun tape =>
  if decide (n <= 0)%Z then Raise ValueError
  else match tape with
       | [] => OutOfFuel
       | r :: tape' => Ret ((Z.of_nat r mod n)%Z, tape')
       end.

(** [np.random.choice(l)]: an element of [l]. *)
Definition choice (l : list Z) : rnd Z := fun tape =>
  match l with
  | [] => Raise ValueError
  | d :: _ =>
      match tape with
      | [] => OutOfFuel
      | r :: tape' => Ret (nth (r mod length l) l d, tape')
      end
  end.

(** [while cond(s): s = body(s)] *)
Fixpoint while_loop {S : Type} (fuel : nat) (cond : S -> bool)
    (body : S -> rnd S) (s : S) : rnd S :=
  match fuel with
  | O => fun _ => OutOfFuel
  | Datatypes.S fuel' =>
      if cond s then s' ← body s; while_loop fuel' cond body s'
      else mret s
  end.

(** ** Polarity markers *)

(** [configure_retinal_polarity_markers(XR, YR, default_polarity_markers)] *)
Definition configure_retinal_polarity_markers (XR YR : nat)
    (default_polarity_markers : bool) : rnd (Z * Z * Z * Z) :=
  let XR := Z.of_nat XR in
  let YR := Z.of_nat YR in
  '(R_PM_y1, R_PM_x1, R_PM_y2, R_PM_x2, R_PM_y3, R_PM_x3, R_PM_y4, R_PM_x4) ←
    (if default_polarity_markers then
       mret (0, 0, 0, 1, 1, 0, 1, 1)%Z
     else
       R_PM_y1 ← randint (YR - 1);
       R_PM_x1 ← randint (XR - 1);
       let R_PM_y2 := R_PM_y1 in
       let R_PM_x2 := (R_PM_x1 + 1)%Z in
       let R_PM_y3 := (R_PM_y1 - 1)%Z in
       let R_PM_y4 := (R_PM_y2 - 1)%Z in
       let R_PM_x3 := R_PM_x1 in
       let R_PM_x4 := R_PM_x2 in
       mret (R_PM_y1, R_PM_x1, R_PM_y2, R_PM_x2,
             R_PM_y3, R_PM_x3, R_PM_y4, R_PM_x4));
  let R_PM1 := (R_PM_y1 * XR + R_PM_x1)%Z in
  let R_PM2 := (R_PM_y2 * XR + R_PM_x2)%Z in
  let R_PM3 := (R_PM_y3 * XR + R_PM_x3)%Z in
  let R_PM4 := (R_PM_y4 * XR + R_PM_x4)%Z in
  mret (R_PM1, R_PM2, R_PM3, R_PM4).

(** [configure_tectal_polarity_markers(XT, YT, default_polarity_markers)] *)
Definition configure_tectal_polarity_markers (XT YT : nat)
    (default_polarity_markers : bool) : rnd (Z * Z * Z * Z) :=
  let XT := Z.of_nat XT in
  let YT := Z.of_nat YT in
  '(T_PM_y1, T_PM_x1, T_PM_y2, T_PM_x2, T_PM_y3, T_PM_x3, T_PM_y4, T_PM_x4) ←
    (if default_polarity_markers then
       mret (0, 0, 0, 1, 1, 0, 1, 1)%Z
     else
       T_PM_y1 ← randint (YT - 1);
       T_PM_x1 ← randint (XT - 1);
       let T_PM_y2 := T_PM_y1 in
       let T_PM_x2 := (T_PM_x1 + 1)%Z in
       let T_PM_y3 := (T_PM_y1 - 1)%Z in
       let T_PM_y4 := (T_PM_y2 - 1)%Z in
       let T_PM_x3 := T_PM_x1 in
       let T_PM_x4 := T_PM_x2 in
       mret (T_PM_y1, T_PM_x1, T_PM_y2, T_PM_x2,
             T_PM_y3, T_PM_x3, T_PM_y4, T_PM_x4));
  let T_PM1 := (T_PM_y1 * XT + T_PM_x1)%Z in
  let T_PM2 := (T_PM_y2 * XT + T_PM_x2)%Z in
  let T_PM3 := (T_PM_y3 * XT + T_PM_x3)%Z in
  let T_PM4 := (T_PM_y4 * XT + T_PM_x4)%Z in
  mret (T_PM1, T_PM2, T_PM3, T_PM4).

(** [s[y, x] *= c] *)
Definition mmul (s : matrix) (y x : Z) (c : R) : res matrix :=
  v ← mget s y x; mset s y x (v * c).

(** [increase_polarity_marker_synapse_strengths] *)
Definition increase_polarity_marker_synapse_strengths (s : matrix)
    (PM_strength_increase : R) (R_PM1 R_PM2 R_PM3 R_PM4 : Z)
    (T_PM1 T_PM2 T_PM3 T_PM4 : Z) : res matrix :=
  s ← mmul s T_PM1 R_PM1 PM_strength_increase;
  s ← mmul s T_PM2 R_PM2 PM_strength_increase;
  s ← mmul s T_PM3 R_PM3 PM_strength_increase;
  s ← mmul s T_PM4 R_PM4 PM_strength_increase;
  Ret s.

(** [square_polarity_markers] *)
Definition square_polarity_markers (s : matrix)
    (default_polarity_markers : bool) (XR YR XT YT : nat)
    (PM_strength_increase : R) : rnd matrix :=
  '(R_PM1, R_PM2, R_PM3, R_PM4) ←
    configure_retinal_polarity_markers XR YR default_polarity_markers;
  '(T_PM1, T_PM2, T_PM3, T_PM4) ←
    configure_tectal_polarity_markers XT YT default_polarity_markers;
  lift (increase_polarity_marker_synapse_strengths s PM_strength_increase
          R_PM1 R_PM2 R_PM3 R_PM4 T_PM1 T_PM2 T_PM3 T_PM4).

(** The quantity the code calls [dist] for the synapse between retinal
    neuron [i] and tectal neuron [j]. *)
Definition graded_dist (XT YT XR YR : nat) (i j : Z) : R :=
  let INV_SQRT_2 := 1 / sqrt 2 in
  let a := (i / Z.of_nat XR)%Z in
  let b := (i mod Z.of_nat XR)%Z in
  let c := (j / Z.of_nat XT)%Z in
  let d := (j mod Z.of_nat XT)%Z in
  let a := IZR a / INR YR in
  let b := IZR b / INR XR in
  let c := IZR c / INR YT in
  let d := IZR d / INR XT in
  let dist_squared := (a - c) * (a - c) + (b - d) * (b - d) in
  let dist := sqrt dist_squared in
  let dist := dist / INV_SQRT_2 in
  dist.

Arguments graded_dist : simpl never.

(** [graded_polarity_markers(s, XT, YT, XR, YR)] *)
Definition graded_polarity_markers (s : matrix) (XT YT XR YR : nat)
  : res matrix :=
  for_each (range (XR * YR)) (fun i s =>
    for_each (range (XT * YT)) (fun j s =>
      let dist := graded_dist XT YT XR YR i j in
      if decide (dist < 0.5) then
        v ← mget s j i; mset s j i ((-8 * dist + 5) * v)
      else Ret s) s) s.

(** [implement_polarity_markers]; the result [None] is Python's [None],
    returned when no branch of the function is taken. *)
Definition implement_polarity_markers (PM_type : string) (s : matrix)
    (default_polarity_markers : bool) (XR YR XT YT : nat)
    (PM_strength_increase : R) : rnd (option matrix) :=
  if String.eqb PM_type "square" then
    s' ← square_polarity_markers s default_polarity_markers XR YR XT YT
           PM_strength_increase;
    mret (Some s')
  else if String.eqb PM_type "graded" then
    s' ← lift (graded_polarity_markers s XT YT XR YR);
    mret (Some s')
  else mret None.

(** ** Retinal activation patterns *)

(** Row of the neuron adjacent to a neuron of row [y1]: the block
    [if y1 == 0: ... elif y1 == YR-1: ... else: ...] that
    [retinal_neuron_pairs] and [retinal_neuron_2_pairs] (twice) share. *)
Definition adjacent_y (YR : Z) (y1 : Z) : rnd Z :=
  if decide (y1 = 0)%Z then choice [y1; y1 + 1]%Z
  else if decide (y1 = YR - 1)%Z then choice [y1; y1 - 1]%Z
  else choice [y1 - 1; y1; y1 + 1]%Z.

(** Column of the adjacent neuron: the block [if y2 == y1: ... else: ...]
    of the same three places. *)
Definition adjacent_x (XR : Z) (x1 y1 y2 : Z) : rnd Z :=
  if decide (y2 = y1) then
    if decide (x1 = 0)%Z then mret (x1 + 1)%Z
    else if decide (x1 = XR - 1)%Z then mret (x1 - 1)%Z
    else choice [x1 - 1; x1 + 1]%Z
  else mret x1.

(** [retinal_neuron_pairs(XR, YR)] *)
Definition retinal_neuron_pairs (XR YR : nat) : rnd (list Z) :=
  let XR := Z.of_nat XR in
  let YR := Z.of_nat YR in
  y1 ← randint YR;
  x1 ← randint XR;
  y2 ← adjacent_y YR y1;
  x2 ← adjacent_x XR x1 y1 y2;
  let RN1 := (y1 * XR + x1)%Z in
  let RN2 := (y2 * XR + x2)%Z in
  mret [RN1; RN2].

(** [retinal_neuron_squares(XR, YR)] *)
Definition retinal_neuron_squares (XR YR : nat) : rnd (list Z) :=
  let XR := Z.of_nat XR in
  let YR := Z.of_nat YR in
  y1 ← randint YR;
  x1 ← randint XR;
  y2 ← (if decide (y1 = 0)%Z then mret 1%Z
        else if decide (y1 = YR - 1)%Z then mret (YR - 2)%Z
        else choice [y1 - 1; y1 + 1]%Z);
  let x2 := x1 in
  let y3 := y1 in
  x3 ← (if decide (x1 = 0)%Z then mret 1%Z
        else if decide (x1 = XR - 1)%Z then mret (XR - 2)%Z
        else choice [x1 - 1; x1 + 1]%Z);
  let y4 := y2 in
  let x4 := x3 in
  let RN1 := (y1 * XR + x1)%Z in
  let RN2 := (y2 * XR + x2)%Z in
  let RN3 := (y3 * XR + x3)%Z in
  let RN4 := (y4 * XR + x4)%Z in
  mret [RN1; RN2; RN3; RN4].

(** [retinal_neuron_sweep(XR, YR, loop_count)] *)
Definition retinal_neuron_sweep (XR YR : nat) (loop_count : Z) : res (list Z) :=
  if decide (YR + XR = 0)%nat then Raise ZeroDivisionError
  else
    let sweep_num := (loop_count mod Z.of_nat (YR + XR))%Z in
    if decide (sweep_num < Z.of_nat YR)%Z then
      let x_array := replicate YR sweep_num in
      let y_array := range YR in
      Ret (zip_with (fun y x => y * Z.of_nat XR + x)%Z y_array x_array)
    else
      let x_array := range XR in
      let y_array := replicate XR (sweep_num - Z.of_nat XR)%Z in
      Ret (zip_with (fun y x => y * Z.of_nat XR + x)%Z y_array x_array).

(** The body of [retinal_neuron_2_pairs(XR, YR)], each of its two
    rejection loops running for at most [fuel] iterations.  [y3] and [x3]
    are unbound before the first loop, which always runs at least once, so
    their initial value here is never read. *)
Definition retinal_neuron_2_pairs_run (fuel : nat) (XR YR : nat) : rnd (list Z) :=
  let XR := Z.of_nat XR in
  let YR := Z.of_nat YR in
  y1 ← randint YR;
  x1 ← randint XR;
  y2 ← adjacent_y YR y1;
  x2 ← adjacent_x XR x1 y1 y2;
  let RN1 := (y1 * XR + x1)%Z in
  let RN2 := (y2 * XR + x2)%Z in
  let RN3 := RN1 in
  '(y3, x3, RN3) ←
    while_loop fuel
      (fun '(_, _, RN3) => bool_decide (RN3 = RN1) || bool_decide (RN3 = RN2))
      (fun _ =>
         y3 ← randint YR;
         x3 ← randint XR;
         let RN3 := (y3 * XR + x3)%Z in
         mret (y3, x3, RN3))
      (0%Z, 0%Z, RN3);
  let RN4 := RN1 in
  RN4 ←
    while_loop fuel
      (fun RN4 => bool_decide (RN4 = RN1) || bool_decide (RN4 = RN2))
      (fun _ =>
         y4 ← adjacent_y YR y3;
         x4 ← adjacent_x XR x3 y3 y4;
         let RN4 := (y4 * XR + x4)%Z in
         mret RN4)
      RN4;
  mret [RN1; RN2; RN3; RN4].

(** [retinal_neuron_2_pairs(XR, YR)]: every iteration of a loop draws at
    least once, so that a loop stopped by the fuel given here has used up
    the tape. *)
Definition retinal_neuron_2_pairs (XR YR : nat) : rnd (list Z) :=
  fun tape => retinal_neuron_2_pairs_run (Datatypes.S (length tape)) XR YR tape.

(** [retinal_neuron_singles(XR, YR)] *)
Definition retinal_neuron_singles (XR YR : nat) : rnd (list Z) :=
  let XR := Z.of_nat XR in
  let YR := Z.of_nat YR in
  y1 ← randint YR;
  x1 ← randint XR;
  let RN1 := (y1 * XR + x1)%Z in
  mret [RN1].

(** [retinal_neuron_strobe(XR, YR)] *)
Definition retinal_neuron_strobe (XR YR : nat) : list Z :=
  range (XR * YR).

(** [retinal_neuron_2_singles(XR, YR)] *)
Definition retinal_neuron_2_singles (XR YR : nat) : rnd (list Z) :=
  fun tape =>
  let fuel := Datatypes.S (length tape) in
  let XR := Z.of_nat XR in
  let YR := Z.of_nat YR in
  (y1 ← randint YR;
   x1 ← randint XR;
   let RN1 := (y1 * XR + x1)%Z in
   let RN2 := RN1 in
   RN2 ←
     while_loop fuel
       (fun RN2 => bool_decide (RN2 = RN1))
       (fun _ =>
          y2 ← randint YR;
          x2 ← randint XR;
          let RN2 := (y2 * XR + x2)%Z in
          mret RN2)
       RN2;
   mret [RN1; RN2]) tape.

(** [v[i]] for a 1-D array *)
Definition aget {A : Type} (v : list A) (i : Z) : res A :=
  i' ← np_index (length v) i;
  match v !! i' with
  | Some a => Ret a
  | None => Raise IndexError
  end.

(** [np.tile(v, n)] *)
Definition np_tile {A : Type} (v : list A) (n : nat) : list A :=
  mjoin (replicate n v).

(** [np.repeat(v, n)] *)
Definition np_repeat {A : Type} (v : list A) (n : nat) : list A :=
  v ≫= replicate n.

(** [np.arange(a, b)] *)
Definition arange (a b : nat) : list Z := Z.of_nat <$> seq a (b - a).

(** [retinal_neuron_occular_dominance(XR, YR, loop_count)]; [/] between
    integers is the floor division the function needs to run at all. *)
Definition retinal_neuron_occular_dominance (XR YR : nat) (loop_count : Z)
  : res (list Z) :=
  let y_array := np_repeat (range YR) (XR / 2) in
  let x_array :=
    if decide (loop_count mod 2 = 0)%Z then np_tile (arange 0 (XR / 2)) YR
    else np_tile (arange (XR / 2) XR) YR in
  for_each (range (XR * YR / 2)) (fun i retinal_neurons =>
    y ← aget y_array i;
    x ← aget x_array i;
    Ret (retinal_neurons ++ [(y * Z.of_nat XR + x)%Z])) [].

(** [activate_retinal_neurons]; the result [None] is Python's [None],
    returned when no branch of the function is taken. *)
Definition activate_retinal_neurons (activity_pattern : string)
    (XR YR : nat) (loop_count : Z) : rnd (option (list Z)) :=
  if String.eqb activity_pattern "pairs" then
    l ← retinal_neuron_pairs XR YR; mret (Some l)
  else if String.eqb activity_pattern "squares" then
    l ← retinal_neuron_squares XR YR; mret (Some l)
  else if String.eqb activity_pattern "sweep" then
    l ← lift (retinal_neuron_sweep XR YR loop_count); mret (Some l)
  else if String.eqb activity_pattern "2_pairs" then
    l ← retinal_neuron_2_pairs XR YR; mret (Some l)
  else if String.eqb activity_pattern "singles" then
    l ← retinal_neuron_singles XR YR; mret (Some l)
  else if String.eqb activity_pattern "strobe" then
    mret (Some (retinal_neuron_strobe XR YR))
  else if String.eqb activity_pattern "2_singles" then
    l ← retinal_neuron_2_singles XR YR; mret (Some l)
  else if String.eqb activity_pattern "occular_dominance" then
    l ← lift (retinal_neuron_occular_dominance XR YR loop_count); mret (Some l)
  else mret None.

(** ** Tectal relaxation *)

Definition Rsum (l : list R) : R := foldr Rplus 0 l.

(** [np.mean] of a 2-D array. *)
Definition mean (H : matrix) : R :=
  Rsum (mjoin H) / INR (length (mjoin H)).

(** Elementwise sum of two arrays of one shape, and product by a scalar. *)
Definition madd (A B : matrix) : matrix := zip_with (zip_with Rplus) A B.
Definition smul (c : R) (A : matrix) : matrix :=
  (fun row : list R => Rmult c <$> row) <$> A.

(** Entry [(i, j)] of an array extended by zeros outside of its bounds. *)
Definition get0 (H : matrix) (i j : Z) : R :=
  if decide (0 <= i)%Z then
    if decide (0 <= j)%Z then default 0 (mat_at H (Z.to_nat i) (Z.to_nat j))
    else 0
  else 0.

Arguments get0 : simpl never.

(** [scipy.signal.convolve2d(H, K, mode='same', boundary='fill',
    fillvalue=0)]: the central part, of the shape of [H], of the full
    discrete convolution of [H] with the kernel [K]. *)
Definition convolve2d (H K : matrix) : matrix :=
  let cy := Z.of_nat ((length K - 1) / 2) in
  let cx := Z.of_nat ((length (default [] (head K)) - 1) / 2) in
  imap (fun i row =>
    imap (fun j _ =>
      Rsum (imap (fun m Krow =>
        Rsum (imap (fun n k =>
          k * get0 H (Z.of_nat i + cy - Z.of_nat m)
                     (Z.of_nat j + cx - Z.of_nat n)) Krow)) K)) row) H.

Definition tectal_modifiers (beta gamma delta : R) : matrix :=
  [ [0; 0; 0; delta; 0; 0; 0];
    [0; 0; delta; gamma; delta; 0; 0];
    [0; delta; gamma; beta; gamma; delta; 0];
    [delta; gamma; beta; 0; beta; gamma; delta];
    [0; delta; gamma; beta; gamma; delta; 0];
    [0; 0; delta; gamma; delta; 0; 0];
    [0; 0; 0; delta; 0; 0; 0] ].

(** The grid after one pass of the body of the loop of
    [tectal_interactions], from the grid [H_grid] and its thresholded
    copy [H_star]. *)
Definition relax_update (H_grid_initial : matrix)
    (dt beta gamma delta alpha : R) (H_grid H_star : matrix) : matrix :=
  let dH_dt := H_grid_initial in
  let dH_dt := madd dH_dt (convolve2d H_star (tectal_modifiers beta gamma delta)) in
  let dH_dt := madd dH_dt (smul alpha H_grid) in
  madd H_grid (smul dt dH_dt).

(** The [while not converged] loop of [tectal_interactions]; one unit of
    fuel is one iteration. *)
Fixpoint tectal_loop (fuel : nat) (H_grid_initial : matrix) (XT YT : nat)
    (dt beta gamma delta alpha theta : R) (verbose : bool)
    (H_grid : matrix) (n_loops : Z) : res matrix :=
  match fuel with
  | O => OutOfFuel
  | Datatypes.S fuel' =>
      H_star ← threshold H_grid theta XT YT;
      let mean_H_grid := mean H_grid in
      let H_grid :=
        relax_update H_grid_initial dt beta gamma delta alpha H_grid H_star in
      let new_H_grid := H_grid in
      let mean_new_H_grid := mean new_H_grid in
      let converged := convergence mean_new_H_grid mean_H_grid in
      if verbose then
        (* [n_loops =+ 1] assigns the value [+1] *)
        let n_loops := 1%Z in
        if decide (n_loops > 20)%Z then Ret new_H_grid
        else if converged then Ret new_H_grid
        else tectal_loop fuel' H_grid_initial XT YT dt beta gamma delta alpha
               theta verbose H_grid n_loops
      else if converged then Ret new_H_grid
      else tectal_loop fuel' H_grid_initial XT YT dt beta gamma delta alpha
             theta verbose H_grid n_loops
  end.

(** [tectal_interactions] *)
Definition tectal_interactions (fuel : nat) (H_grid_initial : matrix)
    (XT YT : nat) (dt beta gamma delta alpha theta : R) (verbose : bool)
  : res matrix :=
  let H_grid := H_grid_initial in
  let n_loops := 0%Z in
  tectal_loop fuel H_grid_initial XT YT dt beta gamma delta alpha theta verbose
    H_grid n_loops.

(** ** Hebbian update *)

(** [np.reshape(A, (n, 1))], kept as the list of its [n] entries. *)
Definition reshape_column (A : matrix) (n : nat) : res (list R) :=
  if decide (length (mjoin A) = n) then Ret (mjoin A) else Raise ValueError.

(** [s[y, x] += v] *)
Definition madd_at (s : matrix) (y x : Z) (v : R) : res matrix :=
  w ← mget s y x; mset s y x (w + v).

(** [update_synaptic_weightings] *)
Definition update_synaptic_weightings (new_H_grid : matrix) (theta : R)
    (XT YT : nat) (retinal_neurons : list Z) (h : R) (s : matrix)
    (epsilon : R) : res matrix :=
  new_H_star ← threshold new_H_grid theta XT YT;
  lin_new_H_star ← reshape_column new_H_star (XT * YT);
  for_each (range (XT * YT)) (fun y s =>
    a ← aget lin_new_H_star y;
    if decide (a > epsilon) then
      for_each retinal_neurons (fun x s =>
        a ← aget lin_new_H_star y;
        madd_at s y x (h * a)) s
    else Ret s) s.

(** ** Map quality *)

(** [np.linspace(start, stop, num)] *)
Definition linspace (start stop : R) (num : nat) : list R :=
  match num with
  | 0%nat => []
  | 1%nat => [start]
  | _ =>
      let step := (stop - start) / INR (num - 1) in
      (fun i => start + INR i * step) <$> seq 0 num
  end.

(** [quality(XT, YT, XR, YR, COM_X, COM_Y)] *)
Definition quality (XT YT XR YR : nat) (COM_X COM_Y : list R) : res R :=
  let perfect_x := np_tile (linspace 0 (INR XR - 1) XT) YT in
  let perfect_y := np_repeat (linspace 0 (INR YR - 1) YT) XT in
  let max_disp := sqrt (INR (XR + YR)) in
  let q := 0 in
  q ← for_each (range (XT * YT)) (fun i q =>
         cx ← aget COM_X i;
         px ← aget perfect_x i;
         cy ← aget COM_Y i;
         py ← aget perfect_y i;
         let disp_squared := (cx - px) * (cx - px) + (cy - py) * (cy - py) in
         let disp := sqrt disp_squared in
         disp ← (if decide (max_disp = 0) then Raise ZeroDivisionError
                 else Ret (disp / max_disp));
         Ret (q + disp)) q;
  q ← (if decide (XT * YT = 0)%nat then Raise ZeroDivisionError
       else Ret (q / INR (XT * YT)));
  let q := 1 - q in
  Ret q.

(** The policy names and marker kinds that the dispatchers compare with. *)
Definition activity_patterns : list string :=
  ["pairs"; "squares"; "sweep"; "2_pairs"; "singles"; "strobe"; "2_singles";
   "occular_dominance"]%string.

Definition PM_types : list string := ["square"; "graded"]%string.

(** ** Activation of the tectal sheet, normalisation and centres of mass *)

(** [v[i] = a] for a 1-D array *)
Definition aset {A : Type} (v : list A) (i : Z) (a : A) : res (list A) :=
  i' ← np_index (length v) i;
  Ret (<[i' := a]> v).

(** [s[y, :]] *)
Definition row_get (s : matrix) (y : Z) : res (list R) :=
  y' ← np_index (length s) y;
  match s !! y' with
  | Some row => Ret row
  | None => Raise IndexError
  end.

(** [np.reshape(v, (rows, cols))] of a 1-D array, in row-major order. *)
Definition np_reshape (v : list R) (rows cols : nat) : res matrix :=
  if decide (length v = (rows * cols)%nat) then
    Ret ((fun j => take cols (drop (j * cols) v)) <$> seq 0 rows)
  else Raise ValueError.


(** [np.mean] of a 1-D array. *)
Definition mean1 (v : list R) : R := Rsum v / INR (length v).

(** [normalise(s, ND_mean, XT, YT, XR, YR)] *)
Definition normalise (s : matrix) (ND_mean : R) (XT YT XR YR : nat)
  : res matrix :=
  for_each (range (XT * YT)) (fun y s =>
    row ← row_get s y;
    let mean_T := mean1 row in
    for_each (range (XR * YR)) (fun x s =>
      v ← mget s y x;
      mset s y x ((ND_mean / mean_T) * v)) s) s.

(** [scipy.ndimage.measurements.center_of_mass] of a 2-D array: the sums
    of the entries weighted by their row index and by their column index,
    each divided by the sum of the entries. *)
Definition center_of_mass (input : matrix) : R * R :=
  let normalizer := Rsum (mjoin input) in
  (Rsum (mjoin (imap (fun y row => (fun v => v * INR y) <$> row) input))
     / normalizer,
   Rsum (mjoin (imap (fun y row => imap (fun x v => v * INR x) row) input))
     / normalizer).

(** [calculate_COM(s, XT, YT, XR, YR)]; the result is the pair
    [(COM_X, COM_Y)]. *)
Definition calculate_COM (s : matrix) (XT YT XR YR : nat)
  : res (list R * list R) :=
  let COM_Y := replicate (YT * XT) 0 in
  let COM_X := replicate (YT * XT) 0 in
  for_each (range (XT * YT)) (fun tectal_neuron '(COM_X, COM_Y) =>
    row ← row_get s tectal_neuron;
    COM_grid ← np_reshape row YR XR;
    let COM := center_of_mass COM_grid in
    COM_Y ← aset COM_Y tectal_neuron COM.1;
    COM_X ← aset COM_X tectal_neuron COM.2;
    Ret (COM_X, COM_Y)) (COM_X, COM_Y).

(** The body of [retinal_neuron_2_singles(XR, YR)] with the fuel of its
    rejection loop as a parameter. *)
Definition retinal_neuron_2_singles_run (fuel : nat) (XR YR : nat)
  : rnd (list Z) :=
  let XR := Z.of_nat XR in
  let YR := Z.of_nat YR in
  y1 ← randint YR;
  x1 ← randint XR;
  let RN1 := (y1 * XR + x1)%Z in
  let RN2 := RN1 in
  RN2 ←
    while_loop fuel
      (fun RN2 => bool_decide (RN2 = RN1))
      (fun _ =>
         y2 ← randint YR;
         x2 ← randint XR;
         let RN2 := (y2 * XR + x2)%Z in
         mret RN2)
      RN2;
  mret [RN1; RN2].

(** ** Notions used to state the properties *)

(** The matrix [s] with the entry [(y, x)] replaced by [v]. *)
Definition cell_set (s : matrix) (y x : nat) (v : R) : matrix :=
  alter (fun row => <[x := v]> row) y s.

(** [s'] is [s] with [g y x] applied to the entry of every cell [(y, x)]
    of [cells], and nothing else changed. *)
Definition cells_updated (g : Z -> Z -> R -> R) (cells : list (Z * Z))
    (s s' : matrix) : Prop :=
  forall y x : nat,
    mat_at s' y x =
    if decide ((Z.of_nat y, Z.of_nat x) ∈ cells)
    then g (Z.of_nat y) (Z.of_nat x) <$> mat_at s y x
    else mat_at s y x.

(** One pass of the body of the relaxation loop as a function of the
    grid alone, and the grid after [k] passes. *)
Definition relax_step (H_grid_initial : matrix) (dt beta gamma delta alpha theta : R)
    (H_grid : matrix) : matrix :=
  relax_update H_grid_initial dt beta gamma delta alpha H_grid
    ((fun row : list R => thresholded theta <$> row) <$> H_grid).

Fixpoint relax_iter (k : nat) (H_grid_initial : matrix)
    (dt beta gamma delta alpha theta : R) (H_grid : matrix) : matrix :=
  match k with
  | O => H_grid
  | Datatypes.S k' =>
      relax_iter k' H_grid_initial dt beta gamma delta alpha theta
        (relax_step H_grid_initial dt beta gamma delta alpha theta H_grid)
  end.

(** The outcome of the convergence test at the end of pass [k] (counted
    from 0) of a run started from [H_grid]. *)
Definition converged_at (k : nat) (H_grid_initial : matrix)
    (dt beta gamma delta alpha theta : R) (H_grid : matrix) : bool :=
  convergence
    (mean (relax_iter (Datatypes.S k) H_grid_initial dt beta gamma delta alpha theta H_grid))
    (mean (relax_iter k H_grid_initial dt beta gamma delta alpha theta H_grid)).

(** An activation set of [n] distinct in-bounds indices of a retina of
    [XR] columns and [YR] rows. *)
Definition valid_activation (XR YR n : nat) (l : list Z) : Prop :=
  length l = n /\ NoDup l /\
  Forall (fun r => (0 <= r < Z.of_nat (XR * YR))%Z) l.

(** The run of [m] on [tape] raises nothing, and if it returns, the value
    satisfies [Q]. *)
Definition post {A : Type} (m : rnd A) (tape : list nat) (Q : A -> Prop) : Prop :=
  match m tape with
  | Ret (a, _) => Q a
  | Raise _ => False
  | OutOfFuel => True
  end.

(** [m] returns on every tape of at least [k] draws, and uses at most [k]
    of them. *)
Definition returns_within {A : Type} (k : nat) (m : rnd A) : Prop :=
  forall tape, (k <= length tape)%nat ->
    exists a t, m tape = Ret (a, t) /\ (length tape <= length t + k)%nat.

(** A run that returned leaves a tape that is no longer, and returns the
    same value on every longer tape. *)
Definition regular {A : Type} (m : rnd A) : Prop :=
  forall tape a t, m tape = Ret (a, t) ->
    (length t <= length tape)%nat /\
    forall ext, m (tape ++ ext) = Ret (a, t ++ ext).

(** The same for a computation with fuel: more fuel changes nothing. *)
Definition fregular {A : Type} (m : nat -> rnd A) : Prop :=
  forall fuel tape a t, m fuel tape = Ret (a, t) ->
    (length t <= length tape)%nat /\
    forall ext fuel', (fuel <= fuel')%nat ->
      m fuel' (tape ++ ext) = Ret (a, t ++ ext).

(** Every tape has an extension on which [m] returns a value satisfying
    [Q], given more fuel than there are draws. *)
Definition completable {A : Type} (m : nat -> rnd A) (Q : A -> Prop) : Prop :=
  forall tape, exists ext a t,
    Q a /\
    forall fuel, (length (tape ++ ext) < fuel)%nat ->
      m fuel (tape ++ ext) = Ret (a, t).

(** The grid of [rows] by [cols] neurons without activity. *)
Definition zero_grid (rows cols : nat) : matrix :=
  replicate rows (replicate cols 0).

(** The Manhattan distance of the entry [(m, n)] of a 7x7 kernel to its
    centre. *)
Definition manhattan_to_centre (m n : nat) : Z :=
  (Z.abs (Z.of_nat m - 3) + Z.abs (Z.of_nat n - 3))%Z.

(** The cells of a matrix that exist are those of another one. *)
Definition same_cells (s s' : matrix) : Prop :=
  forall y x, is_Some (mat_at s' y x) <-> is_Some (mat_at s y x).

(** A row of synaptic strengths rescaled to the mean [ND_mean]. *)
Definition scale_to (ND_mean : R) (row : list R) : list R :=
  (fun v => ND_mean / mean1 row * v) <$> row.


(** A row of [YR*XR] synaptic strengths laid out as the retinal sheet,
    and its centre of mass there. *)
Definition row_grid (row : list R) (YR XR : nat) : matrix :=
  (fun j => take XR (drop (j * XR) row)) <$> seq 0 YR.

Definition row_COM (YR XR : nat) (row : list R) : R * R :=
  center_of_mass (row_grid row YR XR).

(** * Properties *)

(** ** Convergence test *)

Lemma convergence_true_iff (m_after m_before : R) :
  convergence m_after m_before = true <->
  Rabs (m_after - m_before) < 0.005 * m_before.
Proof. unfold convergence. apply bool_decide_eq_true. Qed.

(** With a mean that is not positive the test of the code cannot succeed. *)
Lemma convergence_nonpositive_mean (m_after m_before : R) :
  m_before <= 0 -> convergence m_after m_before = false.
Proof.
  intros Hneg. unfold convergence. apply bool_decide_eq_false.
  pose proof (Rabs_pos (m_after - m_before)). lra.
Qed.

(** With a positive mean the test is the relative criterion. *)
Lemma convergence_positive_mean (m_after m_before : R) :
  0 < m_before ->
  (convergence m_after m_before = true <->
   Rabs (m_after - m_before) < 0.005 * Rabs m_before).
Proof.
  intros Hpos. rewrite convergence_true_iff.
  rewrite (Rabs_right m_before) by lra. reflexivity.
Qed.

(** C1: the test is meant to report convergence exactly when
    [|m_after - m_before| < 0.005 * |m_before|].  The code compares with
    [0.005 * m_before]: for the means [-1] and [-1], which satisfy the
    criterion, it answers [False]. *)
Theorem convergence_negative_mean_rejected :
  Rabs (-1 - -1) < 0.005 * Rabs (-1) /\ convergence (-1) (-1) = false.
Proof.
  split.
  - unfold Rabs. repeat destruct Rcase_abs; lra.
  - apply convergence_nonpositive_mean. lra.
Qed.

(** ** Sweep pattern *)

(** X20: the sweep pattern is periodic in the epoch counter, with the
    period [XR + YR], on every sheet. *)
Lemma retinal_neuron_sweep_periodic (XR YR : nat) (loop_count : Z) :
  retinal_neuron_sweep XR YR (loop_count + Z.of_nat (XR + YR)) =
  retinal_neuron_sweep XR YR loop_count.
Proof.
  unfold retinal_neuron_sweep.
  destruct (decide (YR + XR = 0)%nat) as [|Hne]; [reflexivity|].
  replace (Z.of_nat (XR + YR)) with (1 * Z.of_nat (YR + XR))%Z by lia.
  rewrite Z.mod_add by lia. reflexivity.
Qed.

Lemma length_range (n : nat) : length (range n) = n.
Proof. unfold range. rewrite length_fmap. apply length_seq. Qed.

Lemma zip_with_replicate_r {A B C : Type} (f : A -> B -> C) (l : list A)
    (n : nat) (c : B) :
  length l = n -> zip_with f l (replicate n c) = (fun a => f a c) <$> l.
Proof.
  intros <-. induction l as [|a l IH]; simpl; [reflexivity|]. f_equal. exact IH.
Qed.

Lemma zip_with_replicate_l {A B C : Type} (f : A -> B -> C) (c : A)
    (n : nat) (l : list B) :
  length l = n -> zip_with f (replicate n c) l = f c <$> l.
Proof.
  intros <-. induction l as [|a l IH]; simpl; [reflexivity|]. f_equal. exact IH.
Qed.

(** The values of the counter below [YR] select a column of [YR]
    entries; the others the row [sweep_num - XR]. *)
Lemma retinal_neuron_sweep_column (XR YR : nat) (loop_count : Z) :
  (0 <= loop_count < Z.of_nat YR)%Z ->
  retinal_neuron_sweep XR YR loop_count =
  Ret ((fun y => y * Z.of_nat XR + loop_count)%Z <$> range YR).
Proof.
  intros Hk. unfold retinal_neuron_sweep.
  destruct (decide (YR + XR = 0)%nat) as [|Hne]; [lia|].
  rewrite Z.mod_small by lia.
  destruct (decide (loop_count < Z.of_nat YR)%Z); [|lia].
  f_equal. rewrite zip_with_replicate_r by apply length_range. reflexivity.
Qed.

Lemma retinal_neuron_sweep_row (XR YR : nat) (loop_count : Z) :
  (Z.of_nat YR <= loop_count < Z.of_nat (YR + XR))%Z ->
  retinal_neuron_sweep XR YR loop_count =
  Ret ((fun x => (loop_count - Z.of_nat XR) * Z.of_nat XR + x)%Z <$> range XR).
Proof.
  intros Hk. unfold retinal_neuron_sweep.
  destruct (decide (YR + XR = 0)%nat) as [|Hne]; [lia|].
  rewrite Z.mod_small by lia.
  destruct (decide (loop_count < Z.of_nat YR)%Z); [lia|].
  f_equal. rewrite zip_with_replicate_l by apply length_range. reflexivity.
Qed.

(** C6: the pattern is meant to sweep the [XR] columns and then the [YR]
    rows.  The code tests the counter against [YR] where the number of
    columns [XR] is meant: on a sheet of width 3 and height 2, at epoch 2,
    the claim selects column 2, the neurons 2 and 5, and the code takes
    the row branch with row [2 - 3 = -1], the indices -3, -2, -1. *)
Theorem retinal_neuron_sweep_wide_sheet :
  retinal_neuron_sweep 3 2 2 = Ret [-3; -2; -1]%Z.
Proof. reflexivity. Qed.

(** ** Square polarity markers *)

(** C5: the randomly selected anchor is meant to be an in-bounds 2x2
    block.  The code places the second row of the block at [y1 - 1]: with
    the draws [y1 = 0], [x1 = 0] on a 3x3 sheet the retinal markers are
    0, 1, -3, -2; the last two are negative, and numpy reads them as the
    neurons 6 and 7 of the bottom row, which is not adjacent to row 0. *)
Theorem configure_retinal_polarity_markers_first_row :
  configure_retinal_polarity_markers 3 3 false [0; 0]%nat
    = Ret ((0, 1, -3, -2)%Z, []) /\
  np_index 9 (-3) = Ret 6%nat /\ np_index 9 (-2) = Ret 7%nat.
Proof. repeat split; reflexivity. Qed.

(** ** Dispatch on configuration strings *)

Lemma String_eqb_false_of_not_elem (x y : string) (l : list string) :
  x ∉ l -> y ∈ l -> String.eqb x y = false.
Proof.
  intros Hx Hy. apply String.eqb_neq. intros ->. exact (Hx Hy).
Qed.

(** C8, as the code has it: an unrecognised policy name or marker kind
    raises nothing; both dispatchers fall through their branches and
    return [None], consuming no random draw. *)
Theorem dispatch_unrecognised_returns_None
    (activity_pattern PM_type : string) (XR YR XT YT : nat) (loop_count : Z)
    (s : matrix) (default_polarity_markers : bool) (PM_strength_increase : R)
    (tape : list nat) :
  activity_pattern ∉ activity_patterns ->
  PM_type ∉ PM_types ->
  activate_retinal_neurons activity_pattern XR YR loop_count tape
    = Ret (None, tape) /\
  implement_polarity_markers PM_type s default_polarity_markers XR YR XT YT
    PM_strength_increase tape = Ret (None, tape).
Proof.
  intros Ha Hp. split.
  - unfold activate_retinal_neurons.
    repeat (rewrite (String_eqb_false_of_not_elem _ _ _ Ha)
              by (unfold activity_patterns;
                  repeat first [apply list_elem_of_here | apply list_elem_of_further])).
    reflexivity.
  - unfold implement_polarity_markers.
    repeat (rewrite (String_eqb_false_of_not_elem _ _ _ Hp)
              by (unfold PM_types;
                  repeat first [apply list_elem_of_here | apply list_elem_of_further])).
    reflexivity.
Qed.

Lemma dispatch_unrecognised_returns_None_witness :
  activate_retinal_neurons "two_pairs" 8 8 0 [] = Ret (None, []) /\
  implement_polarity_markers "circle" [[1]] true 8 8 1 1 5 [] = Ret (None, []).
Proof.
  apply dispatch_unrecognised_returns_None.
  - intros H%list_elem_of_In. simpl in H. intuition discriminate.
  - intros H%list_elem_of_In. simpl in H. intuition discriminate.
Defined.

(** C8, as stated, fails: the policy name [two_pairs] is none of the
    eight strings compared with, and the dispatcher returns [None]
    instead of raising. *)
Lemma activate_retinal_neurons_two_pairs_falls_through :
  ("two_pairs"%string ∉ activity_patterns) /\
  ~ (exists e, activate_retinal_neurons "two_pairs" 8 8 0 [] = Raise e) /\
  activate_retinal_neurons "two_pairs" 8 8 0 [] = Ret (None, []).
Proof.
  split; [|split].
  - intros H%list_elem_of_In. simpl in H. intuition discriminate.
  - intros [e He]. discriminate He.
  - reflexivity.
Qed.

(** ** Arrays and loops *)

Lemma np_index_nonneg (n : nat) (i : Z) :
  (0 <= i < Z.of_nat n)%Z -> np_index n i = Ret (Z.to_nat i).
Proof. intros Hi. unfold np_index. rewrite decide_True by exact Hi. reflexivity. Qed.

Lemma mat_at_Some (s : matrix) (y x : nat) (w : R) :
  mat_at s y x = Some w <->
  exists row, s !! y = Some row /\ row !! x = Some w.
Proof.
  unfold mat_at. destruct (s !! y) as [row|]; simpl.
  - split; [intros H; exists row; auto | intros (row' & [= <-] & H); exact H].
  - split; [discriminate | intros (row' & [=] & _)].
Qed.

Lemma mget_cell (s : matrix) (y x : Z) (w : R) :
  (0 <= y)%Z -> (0 <= x)%Z ->
  mat_at s (Z.to_nat y) (Z.to_nat x) = Some w ->
  mget s y x = Ret w.
Proof.
  intros Hy Hx (row & Hrow & Hw)%mat_at_Some. unfold mget.
  pose proof (lookup_lt_Some _ _ _ Hrow) as Hly.
  pose proof (lookup_lt_Some _ _ _ Hw) as Hlx.
  rewrite np_index_nonneg by lia. simpl. rewrite Hrow.
  rewrite np_index_nonneg by lia. simpl. rewrite Hw. reflexivity.
Qed.

Lemma mset_cell (s : matrix) (y x : Z) (w v : R) :
  (0 <= y)%Z -> (0 <= x)%Z ->
  mat_at s (Z.to_nat y) (Z.to_nat x) = Some w ->
  mset s y x v = Ret (cell_set s (Z.to_nat y) (Z.to_nat x) v).
Proof.
  intros Hy Hx (row & Hrow & Hw)%mat_at_Some. unfold mset, cell_set.
  pose proof (lookup_lt_Some _ _ _ Hrow) as Hly.
  pose proof (lookup_lt_Some _ _ _ Hw) as Hlx.
  rewrite np_index_nonneg by lia. simpl. rewrite Hrow.
  rewrite np_index_nonneg by lia. simpl. f_equal.
  apply list_eq. intros k.
  rewrite list_lookup_insert, list_lookup_alter.
  destruct (decide (Z.to_nat y = k)) as [<-|Hne].
  - rewrite decide_True by (split; [reflexivity | lia]).
    rewrite Hrow. reflexivity.
  - rewrite decide_False by (intros [? _]; congruence). reflexivity.
Qed.

Lemma mat_at_cell_set (s : matrix) (y x : nat) (v : R) (y' x' : nat) :
  is_Some (mat_at s y x) ->
  mat_at (cell_set s y x v) y' x' =
  if decide (y' = y /\ x' = x) then Some v else mat_at s y' x'.
Proof.
  intros [w (row & Hrow & Hw)%mat_at_Some]. unfold mat_at, cell_set.
  rewrite list_lookup_alter.
  destruct (decide (y = y')) as [<-|Hne].
  - rewrite Hrow. simpl. rewrite list_lookup_insert.
    pose proof (lookup_lt_Some _ _ _ Hw) as Hlx.
    destruct (decide (x = x')) as [<-|Hnx].
    + rewrite !decide_True by auto. reflexivity.
    + rewrite !decide_False by (intros [? ?]; congruence). reflexivity.
  - rewrite decide_False by (intros [? ?]; congruence). reflexivity.
Qed.

Lemma shape_cell_set (s : matrix) (y x : nat) (v : R) (rows cols : nat) :
  shape s rows cols -> shape (cell_set s y x v) rows cols.
Proof.
  intros [Hlen Hrows]. unfold cell_set. split.
  - rewrite length_alter. exact Hlen.
  - apply Forall_lookup. intros k row Hk.
    rewrite list_lookup_alter in Hk.
    destruct (decide (y = k)) as [<-|Hne].
    + destruct (s !! y) as [row0|] eqn:Hrow0; [|discriminate].
      injection Hk as <-. rewrite length_insert.
      exact (proj1 (Forall_lookup _ _) Hrows _ _ Hrow0).
    + exact (proj1 (Forall_lookup _ _) Hrows _ _ Hk).
Qed.

Lemma mat_at_shape (s : matrix) (rows cols y x : nat) :
  shape s rows cols -> (y < rows)%nat -> (x < cols)%nat ->
  is_Some (mat_at s y x).
Proof.
  intros [Hlen Hrows] Hy Hx.
  destruct (lookup_lt_is_Some_2 s y) as [row Hrow]; [lia|].
  pose proof (proj1 (Forall_lookup _ _) Hrows _ _ Hrow) as Hl. simpl in Hl.
  destruct (lookup_lt_is_Some_2 row x) as [w Hw]; [lia|].
  exists w. apply mat_at_Some. eauto.
Qed.

Lemma mat_at_shape_inv (s : matrix) (rows cols y x : nat) :
  shape s rows cols -> is_Some (mat_at s y x) -> (y < rows)%nat /\ (x < cols)%nat.
Proof.
  intros [Hlen Hrows] [w (row & Hrow & Hw)%mat_at_Some].
  pose proof (proj1 (Forall_lookup _ _) Hrows _ _ Hrow) as Hl. simpl in Hl.
  apply lookup_lt_Some in Hrow. apply lookup_lt_Some in Hw. lia.
Qed.

(** Two arrays of one shape with the same entries are equal. *)
Lemma matrix_eq (A B : matrix) (rows cols : nat) :
  shape A rows cols -> shape B rows cols ->
  (forall y x, mat_at A y x = mat_at B y x) -> A = B.
Proof.
  intros [HlA HrA] [HlB HrB] Heq. apply list_eq. intros y.
  destruct (A !! y) as [ra|] eqn:Ha; destruct (B !! y) as [rb|] eqn:Hb.
  - f_equal. apply list_eq. intros x.
    specialize (Heq y x). unfold mat_at in Heq. rewrite Ha, Hb in Heq. exact Heq.
  - apply lookup_lt_Some in Ha. apply lookup_ge_None in Hb. lia.
  - apply lookup_lt_Some in Hb. apply lookup_ge_None in Ha. lia.
  - reflexivity.
Qed.

Lemma for_each_app {A S : Type} (l1 l2 : list A) (body : A -> S -> res S) (s : S) :
  for_each (l1 ++ l2) body s = s' ← for_each l1 body s; for_each l2 body s'.
Proof.
  revert s. induction l1 as [|a l1 IH]; intros s; simpl; [reflexivity|].
  destruct (body a s) as [s1| |]; simpl; [apply IH | reflexivity | reflexivity].
Qed.

Lemma for_each_ext {A S : Type} (l : list A) (body1 body2 : A -> S -> res S) (s : S) :
  (forall a s0, a ∈ l -> body1 a s0 = body2 a s0) ->
  for_each l body1 s = for_each l body2 s.
Proof.
  revert s. induction l as [|a l IH]; intros s Hext; simpl; [reflexivity|].
  rewrite Hext by apply list_elem_of_here.
  destruct (body2 a s) as [s1| |]; simpl; try reflexivity.
  apply IH. intros b s0 Hb. apply Hext. apply list_elem_of_further, Hb.
Qed.

(** Two nested loops are one loop over the pairs of their indices. *)
Lemma for_each_nested {A B S : Type} (l : list A) (f : A -> list B)
    (body : A -> B -> S -> res S) (s : S) :
  for_each l (fun a s0 => for_each (f a) (body a) s0) s =
  for_each (a ← l; (fun b => (a, b)) <$> f a) (fun p => body p.1 p.2) s.
Proof.
  revert s. induction l as [|a l IH]; intros s; simpl; [reflexivity|].
  rewrite for_each_app.
  assert (Hin : forall s0, for_each ((fun b => (a, b)) <$> f a)
                     (fun p => body p.1 p.2) s0 = for_each (f a) (body a) s0).
  { intros s0. revert s0. induction (f a) as [|b lb IHb]; intros s0; simpl;
      [reflexivity|].
    destruct (body a b s0) as [s1| |]; simpl; auto. }
  rewrite Hin.
  destruct (for_each (f a) (body a) s) as [s1| |]; simpl; auto.
Qed.

(** A loop whose body rewrites one cell per index, the cells being
    distinct and in bounds, rewrites exactly those cells. *)
Lemma for_each_cells (g : Z -> Z -> R -> R) (body : Z * Z -> matrix -> res matrix)
    (cells : list (Z * Z)) (rows cols : nat) (s : matrix) :
  NoDup cells ->
  shape s rows cols ->
  (forall y x, (y, x) ∈ cells ->
     (0 <= y < Z.of_nat rows)%Z /\ (0 <= x < Z.of_nat cols)%Z) ->
  (forall y x s0 w, (y, x) ∈ cells ->
     mat_at s0 (Z.to_nat y) (Z.to_nat x) = Some w ->
     body (y, x) s0 = Ret (cell_set s0 (Z.to_nat y) (Z.to_nat x) (g y x w))) ->
  exists s', for_each cells body s = Ret s' /\ shape s' rows cols /\
             cells_updated g cells s s'.
Proof.
  intros Hnd. revert s.
  induction Hnd as [|[y x] cells Hnotin Hnd IH]; intros s Hshape Hin Hbody.
  - exists s. split; [reflexivity|]. split; [exact Hshape|].
    intros y x. rewrite decide_False by apply not_elem_of_nil. reflexivity.
  - destruct (Hin y x) as [Hy Hx]; [apply list_elem_of_here|].
    destruct (mat_at_shape s rows cols (Z.to_nat y) (Z.to_nat x) Hshape)
      as [w Hw]; [lia | lia |].
    simpl. rewrite (Hbody y x s w) by (apply list_elem_of_here || exact Hw).
    simpl.
    set (s1 := cell_set s (Z.to_nat y) (Z.to_nat x) (g y x w)).
    destruct (IH s1) as (s' & Hrun & Hshape' & Hupd).
    + apply shape_cell_set, Hshape.
    + intros y0 x0 H0. apply Hin, list_elem_of_further, H0.
    + intros y0 x0 s0 w0 H0. apply Hbody, list_elem_of_further, H0.
    + exists s'. split; [exact Hrun|]. split; [exact Hshape'|].
      intros y' x'. rewrite (Hupd y' x'). unfold s1.
      rewrite mat_at_cell_set by (exists w; exact Hw).
      destruct (decide (y' = Z.to_nat y /\ x' = Z.to_nat x)) as [[-> ->]|Hne].
      * rewrite !Z2Nat.id by lia.
        rewrite decide_False by exact Hnotin.
        rewrite decide_True by apply list_elem_of_here.
        rewrite Hw. reflexivity.
      * assert (Hpne : (Z.of_nat y', Z.of_nat x') <> (y, x)).
        { intros [= <- <-]. apply Hne. rewrite !Nat2Z.id. auto. }
        destruct (decide ((Z.of_nat y', Z.of_nat x') ∈ cells)) as [Hc|Hc].
        -- rewrite decide_True by (apply list_elem_of_further, Hc). reflexivity.
        -- rewrite decide_False; [reflexivity|].
           intros [Heq|Hc']%elem_of_cons; [exact (Hpne Heq) | exact (Hc Hc')].
Qed.

Lemma elem_of_range (z : Z) (n : nat) :
  z ∈ range n <-> (0 <= z < Z.of_nat n)%Z.
Proof.
  unfold range. rewrite list_elem_of_fmap. split.
  - intros (k & -> & Hk%elem_of_seq). lia.
  - intros Hz. exists (Z.to_nat z). split; [lia|]. apply elem_of_seq. lia.
Qed.

Lemma NoDup_range (n : nat) : NoDup (range n).
Proof. unfold range. apply NoDup_fmap_2; [apply _ | apply NoDup_seq]. Qed.

Lemma elem_of_cells {A B : Type} (l : list A) (f : A -> list B) (a : A) (b : B) :
  (a, b) ∈ (a' ← l; (fun b' => (a', b')) <$> f a') <-> a ∈ l /\ b ∈ f a.
Proof.
  rewrite list_elem_of_bind. split.
  - intros (a' & (b' & [= -> ->] & Hb)%list_elem_of_fmap & Ha). auto.
  - intros [Ha Hb]. exists a. split; [|exact Ha].
    apply list_elem_of_fmap. exists b. auto.
Qed.

Lemma NoDup_cells {A B : Type} (l : list A) (f : A -> list B) :
  NoDup l -> (forall a, a ∈ l -> NoDup (f a)) ->
  NoDup (a' ← l; (fun b' => (a', b')) <$> f a').
Proof.
  intros Hl Hf. apply NoDup_bind; [| |exact Hl].
  - intros a1 a2 [a b] _ _ (b1 & [= -> ->] & _)%list_elem_of_fmap
      (b2 & [= -> _] & _)%list_elem_of_fmap. reflexivity.
  - intros a Ha. apply NoDup_fmap_2; [|apply Hf, Ha].
    intros b1 b2 [= ->]. reflexivity.
Qed.

Lemma Rsum_zero (l : list R) : Forall (fun x => x = 0) l -> Rsum l = 0.
Proof.
  induction 1 as [|x l Hx Hl IH]; simpl; lra.
Qed.

(** ** Thresholding *)

Lemma shape_fmap (f : R -> R) (s : matrix) (rows cols : nat) :
  shape s rows cols -> shape ((fun row : list R => f <$> row) <$> s) rows cols.
Proof.
  intros [Hlen Hrows]. split.
  - rewrite length_fmap. exact Hlen.
  - apply Forall_fmap. eapply Forall_impl; [exact Hrows|].
    intros row Hrow. simpl. rewrite length_fmap. exact Hrow.
Qed.

Lemma mat_at_fmap (f : R -> R) (s : matrix) (y x : nat) :
  mat_at ((fun row : list R => f <$> row) <$> s) y x = f <$> mat_at s y x.
Proof.
  unfold mat_at. rewrite list_lookup_fmap.
  destruct (s !! y) as [row|]; simpl; [apply list_lookup_fmap | reflexivity].
Qed.

(** On a grid of the announced shape [threshold] returns the grid with
    every entry thresholded. *)
Lemma threshold_grid (H_grid : matrix) (theta : R) (XT YT : nat) :
  shape H_grid YT XT ->
  threshold H_grid theta XT YT =
  Ret ((fun row : list R => thresholded theta <$> row) <$> H_grid).
Proof.
  intros Hshape. unfold threshold.
  rewrite (for_each_nested (range YT) (fun _ => range XT)).
  edestruct (for_each_cells (fun _ _ => thresholded theta)) as (s' & Hrun & Hsh & Hupd);
    [| exact Hshape | | | rewrite Hrun].
  - apply NoDup_cells; [apply NoDup_range | intros; apply NoDup_range].
  - intros y x [Hy Hx]%elem_of_cells. apply elem_of_range in Hy, Hx. auto.
  - intros y x s0 w [Hy%elem_of_range Hx%elem_of_range]%elem_of_cells Hw. simpl.
    rewrite (mget_cell s0 y x w) by (lia || exact Hw). simpl.
    unfold thresholded.
    destruct (decide (w > theta)); apply mset_cell with w; (lia || exact Hw).
  - f_equal. apply matrix_eq with YT XT; [exact Hsh | apply shape_fmap, Hshape |].
    intros y x. rewrite Hupd, mat_at_fmap.
    destruct (decide _) as [|Hout]; [reflexivity|].
    destruct (mat_at H_grid y x) as [w|] eqn:Hw; [|reflexivity].
    exfalso. apply Hout.
    destruct (mat_at_shape_inv H_grid YT XT y x Hshape) as [Hy Hx];
      [exists w; exact Hw|].
    apply elem_of_cells. split; apply elem_of_range; lia.
Qed.

(** ** Hebbian update *)

Lemma length_mjoin_shape (s : matrix) (rows cols : nat) :
  shape s rows cols -> length (mjoin s) = (rows * cols)%nat.
Proof.
  intros [<- Hrows]. induction Hrows as [|row s Hrow Hrows IH]; [reflexivity|].
  change (mjoin (row :: s)) with (row ++ mjoin s).
  rewrite length_app, IH. simpl in *. lia.
Qed.

(** Entry [t] of the flattened grid is the entry of the grid at row
    [t / cols] and column [t mod cols]. *)
Lemma mjoin_lookup_shape (s : matrix) (rows cols t : nat) (a : R) :
  shape s rows cols ->
  mat_at s (t / cols) (t mod cols) = Some a ->
  mjoin s !! t = Some a.
Proof.
  intros Hshape Ha.
  destruct (mat_at_shape_inv s rows cols (t / cols) (t mod cols) Hshape)
    as [_ Hlt];
    [exists a; exact Ha|].
  assert (Ht : t = (t / cols * cols + t mod cols)%nat).
  { rewrite (Nat.div_mod_eq t cols) at 1. lia. }
  rewrite Ht.
  apply (join_lookup_Some_same_length' cols); [exact (proj2 Hshape) | exact Hlt |].
  apply mat_at_Some, Ha.
Qed.

Lemma aget_lookup {A : Type} (v : list A) (i : nat) (a : A) :
  v !! i = Some a -> aget v (Z.of_nat i) = Ret a.
Proof.
  intros Hi. unfold aget. pose proof (lookup_lt_Some _ _ _ Hi).
  rewrite np_index_nonneg by lia. simpl. rewrite Nat2Z.id, Hi. reflexivity.
Qed.

(** C4: on a grid of shape (YT, XT), a synapse matrix with one row per
    tectal neuron and an activation set of distinct in-bounds retinal
    indices, the update returns a matrix of the same shape in which the
    entry [(t, r)] has grown by [h] times the thresholded activity of
    tectal neuron [t] when that activity exceeds [epsilon] and [r] is in
    the activation set, and is unchanged otherwise. *)
Theorem update_synaptic_weightings_frame
    (new_H_grid : matrix) (theta : R) (XT YT : nat) (retinal_neurons : list Z)
    (h : R) (s : matrix) (epsilon : R) (n_retinal : nat) :
  shape new_H_grid YT XT ->
  shape s (XT * YT) n_retinal ->
  NoDup retinal_neurons ->
  (forall r, r ∈ retinal_neurons -> (0 <= r < Z.of_nat n_retinal)%Z) ->
  exists s',
    update_synaptic_weightings new_H_grid theta XT YT retinal_neurons h s epsilon
      = Ret s' /\
    shape s' (XT * YT) n_retinal /\
    forall (t r : nat) (a w : R),
      mat_at new_H_grid (t / XT) (t mod XT) = Some a ->
      mat_at s t r = Some w ->
      mat_at s' t r =
      Some (if decide (thresholded theta a > epsilon /\
                       Z.of_nat r ∈ retinal_neurons)
            then w + h * thresholded theta a
            else w).
Proof.
  intros HshapeH Hshape Hnd Hin. unfold update_synaptic_weightings.
  rewrite threshold_grid by exact HshapeH. simpl.
  set (H_star := (fun row : list R => thresholded theta <$> row) <$> new_H_grid).
  assert (HshapeS : shape H_star YT XT) by apply shape_fmap, HshapeH.
  unfold reshape_column.
  rewrite decide_True by (rewrite (length_mjoin_shape _ _ _ HshapeS); lia).
  simpl. set (lin := mjoin H_star).
  assert (Hlen : length lin = (XT * YT)%nat)
    by (unfold lin; rewrite (length_mjoin_shape _ _ _ HshapeS); lia).
  set (val := fun y : Z => default 0 (lin !! Z.to_nat y)).
  assert (Hval : forall y, y ∈ range (XT * YT) -> aget lin y = Ret (val y)).
  { intros y Hy%elem_of_range.
    destruct (lookup_lt_is_Some_2 lin (Z.to_nat y)) as [a Ha]; [lia|].
    rewrite <- (Z2Nat.id y) at 1 by lia.
    rewrite (aget_lookup _ _ _ Ha). unfold val. rewrite Ha. reflexivity. }
  set (active := fun y : Z =>
         if decide (val y > epsilon) then retinal_neurons else []).
  set (body := fun (y x : Z) (s0 : matrix) =>
         a ← aget lin y; madd_at s0 y x (h * a)).
  rewrite (for_each_ext _ _ (fun y s0 => for_each (active y) (body y) s0)).
  2:{ intros y s0 Hy. unfold body, active. rewrite (Hval y Hy). simpl.
      destruct (decide (val y > epsilon)); reflexivity. }
  rewrite for_each_nested.
  destruct (for_each_cells (fun y _ w => w + h * val y)
              (fun p => body p.1 p.2)
              (a' ← range (XT * YT); (fun b' => (a', b')) <$> active a')
              (XT * YT) n_retinal s)
    as (s' & Hrun & Hsh & Hupd); [| exact Hshape | | | ].
  - apply NoDup_cells; [apply NoDup_range|].
    intros y _. unfold active.
    destruct (decide (val y > epsilon)); simpl; [exact Hnd | apply NoDup_nil_2].
  - intros y x [Hy%elem_of_range Hx]%elem_of_cells. split; [lia|].
    unfold active in Hx. destruct (decide (val y > epsilon)); [apply Hin, Hx|].
    apply elem_of_nil in Hx. destruct Hx.
  - intros y x s0 w [Hy Hx]%elem_of_cells Hw. simpl. unfold body.
    rewrite (Hval y Hy). simpl. unfold madd_at.
    assert (0 <= x)%Z.
    { unfold active in Hx. destruct (decide (val y > epsilon)); [apply Hin in Hx; lia|].
      apply elem_of_nil in Hx. destruct Hx. }
    apply elem_of_range in Hy.
    rewrite (mget_cell s0 y x w) by (lia || exact Hw). simpl.
    apply mset_cell with w; (lia || exact Hw).
  - exists s'. split; [exact Hrun|]. split; [exact Hsh|].
    intros t r a w Ha Hw. rewrite Hupd, Hw. simpl.
    assert (Hvt : val (Z.of_nat t) = thresholded theta a).
    { unfold val, lin. rewrite Nat2Z.id.
      rewrite (mjoin_lookup_shape H_star YT XT t (thresholded theta a) HshapeS);
        [reflexivity|].
      unfold H_star. rewrite mat_at_fmap, Ha. reflexivity. }
    destruct (mat_at_shape_inv s _ _ t r Hshape) as [Ht Hr];
      [exists w; exact Hw|].
    assert (Hmem : (Z.of_nat t, Z.of_nat r) ∈
              (a' ← range (XT * YT); (fun b' => (a', b')) <$> active a') <->
            thresholded theta a > epsilon /\ Z.of_nat r ∈ retinal_neurons).
    { rewrite elem_of_cells, elem_of_range. unfold active. rewrite Hvt.
      destruct (decide (thresholded theta a > epsilon)) as [Hgt|Hle].
      - split; [intros [_ ?]; auto | intros [_ ?]; split; [lia | auto]].
      - split; [intros [_ []%elem_of_nil] | intros [? _]; contradiction]. }
    destruct (decide (thresholded theta a > epsilon /\
                      Z.of_nat r ∈ retinal_neurons)) as [Hyes|Hno].
    + rewrite decide_True by (apply Hmem, Hyes). rewrite Hvt. reflexivity.
    + rewrite decide_False by (intros Hc; apply Hno, Hmem, Hc). reflexivity.
Qed.

Lemma update_synaptic_weightings_frame_witness :
  exists s',
    update_synaptic_weightings [[12]] 10 1 1 [0%Z] 1 [[1]] 1 = Ret s' /\
    shape s' (1 * 1) 1 /\
    forall (t r : nat) (a w : R),
      mat_at [[12]] (t / 1) (t mod 1) = Some a ->
      mat_at [[1]] t r = Some w ->
      mat_at s' t r =
      Some (if decide (thresholded 10 a > 1 /\ Z.of_nat r ∈ [0%Z])
            then w + 1 * thresholded 10 a
            else w).
Proof.
  apply (update_synaptic_weightings_frame [[12]] 10 1 1 [0%Z] 1 [[1]] 1 1).
  - split; [reflexivity | repeat constructor].
  - split; [reflexivity | repeat constructor].
  - apply NoDup_singleton.
  - intros r Hr. apply list_elem_of_singleton in Hr. lia.
Defined.

(** ** Relaxation loop *)

Lemma shape_madd (A B : matrix) (rows cols : nat) :
  shape A rows cols -> shape B rows cols -> shape (madd A B) rows cols.
Proof.
  intros [HlA HrA] [HlB HrB]. unfold madd. split.
  - rewrite length_zip_with. lia.
  - apply Forall_lookup. intros k row Hk.
    apply lookup_zip_with_Some in Hk as (ra & rb & -> & Ha & Hb).
    pose proof (proj1 (Forall_lookup _ _) HrA _ _ Ha) as Hla.
    pose proof (proj1 (Forall_lookup _ _) HrB _ _ Hb) as Hlb.
    simpl in *. rewrite length_zip_with. lia.
Qed.

Lemma shape_convolve2d (H K : matrix) (rows cols : nat) :
  shape H rows cols -> shape (convolve2d H K) rows cols.
Proof.
  intros [Hl Hr]. unfold convolve2d. split.
  - rewrite length_imap. exact Hl.
  - apply Forall_lookup. intros k row Hk.
    rewrite list_lookup_imap in Hk.
    destruct (H !! k) as [row0|] eqn:Hrow0; [|discriminate].
    injection Hk as <-. rewrite length_imap.
    exact (proj1 (Forall_lookup _ _) Hr _ _ Hrow0).
Qed.

Lemma shape_relax_step (H_grid_initial : matrix) (dt beta gamma delta alpha theta : R)
    (H_grid : matrix) (rows cols : nat) :
  shape H_grid_initial rows cols -> shape H_grid rows cols ->
  shape (relax_step H_grid_initial dt beta gamma delta alpha theta H_grid)
    rows cols.
Proof.
  intros H0 HH. unfold relax_step, relax_update, smul.
  repeat first [apply shape_madd | apply shape_fmap | apply shape_convolve2d];
    assumption.
Qed.

(** What the loop does from a grid of the announced shape, with the
    verbose diagnostics off. *)
Lemma tectal_loop_runs (H_grid_initial : matrix) (XT YT : nat)
    (dt beta gamma delta alpha theta : R) (fuel : nat) :
  shape H_grid_initial YT XT ->
  forall (H_grid : matrix) (n_loops : Z),
    shape H_grid YT XT ->
    ((forall k, (k < fuel)%nat ->
        converged_at k H_grid_initial dt beta gamma delta alpha theta H_grid = false) ->
     tectal_loop fuel H_grid_initial XT YT dt beta gamma delta alpha theta false
       H_grid n_loops = OutOfFuel) /\
    (forall n, (n < fuel)%nat ->
       (forall k, (k < n)%nat ->
          converged_at k H_grid_initial dt beta gamma delta alpha theta H_grid = false) ->
       converged_at n H_grid_initial dt beta gamma delta alpha theta H_grid = true ->
       tectal_loop fuel H_grid_initial XT YT dt beta gamma delta alpha theta false
         H_grid n_loops =
       Ret (relax_iter (Datatypes.S n) H_grid_initial dt beta gamma delta alpha
              theta H_grid)).
Proof.
  intros H0. induction fuel as [|fuel IH]; intros H_grid n_loops HH.
  - split; [reflexivity | intros n Hn; lia].
  - simpl. rewrite threshold_grid by exact HH. simpl.
    fold (relax_step H_grid_initial dt beta gamma delta alpha theta H_grid).
    set (H1 := relax_step H_grid_initial dt beta gamma delta alpha theta H_grid).
    assert (HH1 : shape H1 YT XT) by (apply shape_relax_step; assumption).
    destruct (IH H1 n_loops HH1) as [IHa IHb].
    change (convergence (mean H1) (mean H_grid)) with
      (converged_at 0 H_grid_initial dt beta gamma delta alpha theta H_grid).
    split.
    + intros Hnot. rewrite (Hnot 0%nat) by lia.
      apply IHa. intros k Hk. apply (Hnot (Datatypes.S k)). lia.
    + intros [|n] Hn Hbefore Hat.
      * rewrite Hat. reflexivity.
      * rewrite (Hbefore 0%nat) by lia.
        apply (IHb n); [lia | | exact Hat].
        intros k Hk. apply (Hbefore (Datatypes.S k)). lia.
Qed.

Lemma get0_single_zero (i j : Z) : get0 [[0]] i j = 0.
Proof.
  unfold get0, mat_at.
  destruct (decide (0 <= i)%Z); [|reflexivity].
  destruct (decide (0 <= j)%Z); [|reflexivity].
  destruct (Z.to_nat i) as [|y]; [|reflexivity].
  destruct (Z.to_nat j) as [|x]; reflexivity.
Qed.

(** The all-zero grid of one neuron is a fixed point of the relaxation
    pass, and its mean never passes the convergence test. *)
Lemma relax_step_single_zero (dt beta gamma delta alpha theta : R) :
  0 <= theta ->
  relax_step [[0]] dt beta gamma delta alpha theta [[0]] = [[0]].
Proof.
  intros Htheta.
  unfold relax_step, relax_update, madd, smul, convolve2d, tectal_modifiers,
    thresholded.
  simpl. destruct (decide (0 > theta)) as [Hgt|_]; [lra|].
  rewrite !get0_single_zero. repeat f_equal. lra.
Qed.

Lemma relax_iter_single_zero (dt beta gamma delta alpha theta : R) (k : nat) :
  0 <= theta ->
  relax_iter k [[0]] dt beta gamma delta alpha theta [[0]] = [[0]].
Proof.
  intros Htheta. induction k as [|k IH]; [reflexivity|].
  simpl. rewrite relax_step_single_zero by exact Htheta. exact IH.
Qed.

Lemma converged_at_single_zero (dt beta gamma delta alpha theta : R) (k : nat) :
  0 <= theta ->
  converged_at k [[0]] dt beta gamma delta alpha theta [[0]] = false.
Proof.
  intros Htheta. unfold converged_at.
  rewrite !relax_iter_single_zero by exact Htheta.
  apply convergence_nonpositive_mean. unfold mean. simpl. lra.
Qed.

Lemma shape_zero_grid (rows cols : nat) : shape (zero_grid rows cols) rows cols.
Proof.
  unfold zero_grid. split; [apply length_replicate|].
  apply Forall_forall. intros row Hrow%elem_of_replicate.
  destruct Hrow as [-> _]. apply length_replicate.
Qed.

Lemma mat_at_zero_grid (rows cols y x : nat) (v : R) :
  mat_at (zero_grid rows cols) y x = Some v -> v = 0.
Proof.
  intros (row & Hrow & Hv)%mat_at_Some. unfold zero_grid in Hrow.
  apply lookup_replicate in Hrow as [-> _].
  apply lookup_replicate in Hv as [-> _]. reflexivity.
Qed.

Lemma get0_zero_grid (rows cols : nat) (i j : Z) :
  get0 (zero_grid rows cols) i j = 0.
Proof.
  unfold get0.
  destruct (decide (0 <= i)%Z); [|reflexivity].
  destruct (decide (0 <= j)%Z); [|reflexivity].
  destruct (mat_at (zero_grid rows cols) (Z.to_nat i) (Z.to_nat j)) as [v|] eqn:Hv;
    [|reflexivity].
  simpl. exact (mat_at_zero_grid _ _ _ _ _ Hv).
Qed.

Lemma Rsum_imap_zero {A : Type} (f : nat -> A -> R) (l : list A) :
  (forall i a, f i a = 0) -> Rsum (imap f l) = 0.
Proof.
  revert f. induction l as [|a l IH]; intros f Hf; [reflexivity|].
  simpl. rewrite Hf, IH by (intros i b; apply Hf). lra.
Qed.

Lemma mat_at_convolve2d_zero_grid (rows cols : nat) (K : matrix) (y x : nat) :
  mat_at (convolve2d (zero_grid rows cols) K) y x =
  mat_at (zero_grid rows cols) y x.
Proof.
  unfold convolve2d, mat_at. rewrite list_lookup_imap.
  destruct (zero_grid rows cols !! y) as [row|] eqn:Hrow; [|reflexivity].
  simpl. rewrite list_lookup_imap.
  destruct (row !! x) as [v|] eqn:Hv; [|reflexivity].
  simpl. f_equal.
  rewrite Rsum_imap_zero.
  - symmetry. apply (mat_at_zero_grid rows cols y x).
    apply mat_at_Some. eauto.
  - intros m Krow. apply Rsum_imap_zero. intros n k.
    rewrite get0_zero_grid. ring.
Qed.

Lemma mat_at_madd (A B : matrix) (y x : nat) :
  mat_at (madd A B) y x =
  a ← mat_at A y x; b ← mat_at B y x; Some (a + b).
Proof.
  unfold madd, mat_at. rewrite lookup_zip_with.
  destruct (A !! y) as [ra|]; simpl; [|reflexivity].
  destruct (B !! y) as [rb|]; simpl.
  - rewrite lookup_zip_with. reflexivity.
  - destruct (ra !! x); reflexivity.
Qed.

Lemma mat_at_smul (c : R) (A : matrix) (y x : nat) :
  mat_at (smul c A) y x = Rmult c <$> mat_at A y x.
Proof. unfold smul. apply mat_at_fmap. Qed.

(** The thresholded copy of a grid that is nowhere above [theta] is the
    zero grid. *)
Lemma thresholded_subthreshold (H_grid : matrix) (theta : R) (XT YT : nat) :
  shape H_grid YT XT ->
  (forall y x v, mat_at H_grid y x = Some v -> v <= theta) ->
  (fun row : list R => thresholded theta <$> row) <$> H_grid = zero_grid YT XT.
Proof.
  intros Hshape Hsub.
  apply (matrix_eq _ _ YT XT);
    [apply shape_fmap, Hshape | apply shape_zero_grid |].
  intros y x. rewrite mat_at_fmap.
  destruct (mat_at H_grid y x) as [v|] eqn:Hv; simpl.
  - destruct (mat_at_shape (zero_grid YT XT) YT XT y x) as [z Hz].
    + apply shape_zero_grid.
    + apply (mat_at_shape_inv H_grid YT XT y x Hshape). eauto.
    + apply (mat_at_shape_inv H_grid YT XT y x Hshape). eauto.
    + rewrite Hz. f_equal. rewrite (mat_at_zero_grid _ _ _ _ _ Hz).
      unfold thresholded. destruct (decide (v > theta)) as [Hgt|]; [|reflexivity].
      specialize (Hsub y x v Hv). lra.
  - destruct (mat_at (zero_grid YT XT) y x) as [z|] eqn:Hz; [|reflexivity].
    destruct (mat_at_shape H_grid YT XT y x Hshape) as [w Hw].
    + apply (mat_at_shape_inv _ YT XT y x (shape_zero_grid YT XT)). eauto.
    + apply (mat_at_shape_inv _ YT XT y x (shape_zero_grid YT XT)). eauto.
    + congruence.
Qed.

Lemma relax_step_subthreshold (H_grid_initial H_grid : matrix) (XT YT : nat)
    (dt beta gamma delta alpha theta : R) (y x : nat) (h0 h : R) :
  shape H_grid YT XT ->
  (forall y' x' v, mat_at H_grid y' x' = Some v -> v <= theta) ->
  mat_at H_grid_initial y x = Some h0 ->
  mat_at H_grid y x = Some h ->
  mat_at (relax_step H_grid_initial dt beta gamma delta alpha theta H_grid) y x
  = Some (h + dt * (h0 + 0 + alpha * h)).
Proof.
  intros Hshape Hsub H0 Hh. unfold relax_step, relax_update.
  rewrite (thresholded_subthreshold H_grid theta XT YT Hshape Hsub).
  rewrite !mat_at_madd, !mat_at_smul, !mat_at_madd, mat_at_smul,
    mat_at_convolve2d_zero_grid, H0, Hh.
  destruct (mat_at_shape (zero_grid YT XT) YT XT y x) as [z Hz].
  - apply shape_zero_grid.
  - apply (mat_at_shape_inv H_grid YT XT y x Hshape). eauto.
  - apply (mat_at_shape_inv H_grid YT XT y x Hshape). eauto.
  - rewrite Hz. simpl. rewrite (mat_at_zero_grid _ _ _ _ _ Hz). reflexivity.
Qed.

Lemma relax_step_zero_grid (XT YT : nat) (dt beta gamma delta alpha theta : R) :
  0 <= theta ->
  relax_step (zero_grid YT XT) dt beta gamma delta alpha theta (zero_grid YT XT)
  = zero_grid YT XT.
Proof.
  intros Htheta.
  apply (matrix_eq _ _ YT XT);
    [apply shape_relax_step; apply shape_zero_grid | apply shape_zero_grid |].
  intros y x.
  destruct (mat_at (zero_grid YT XT) y x) as [z|] eqn:Hz.
  - pose proof (mat_at_zero_grid _ _ _ _ _ Hz) as ->.
    rewrite (relax_step_subthreshold _ _ XT YT _ _ _ _ _ _ _ _ 0 0);
      [f_equal; ring | apply shape_zero_grid | | exact Hz | exact Hz].
    intros y' x' v Hv. rewrite (mat_at_zero_grid _ _ _ _ _ Hv). exact Htheta.
  - destruct (mat_at (relax_step _ _ _ _ _ _ _ _) y x) as [v|] eqn:Hv;
      [|reflexivity].
    destruct (mat_at_shape (zero_grid YT XT) YT XT y x) as [w Hw].
    + apply shape_zero_grid.
    + eapply (mat_at_shape_inv _ YT XT y x); [|eexists; exact Hv].
      apply shape_relax_step; apply shape_zero_grid.
    + eapply (mat_at_shape_inv _ YT XT y x); [|eexists; exact Hv].
      apply shape_relax_step; apply shape_zero_grid.
    + congruence.
Qed.

Lemma Rsum_mjoin_zero_grid (rows cols : nat) :
  Rsum (mjoin (zero_grid rows cols)) = 0.
Proof.
  apply Rsum_zero, Forall_forall. intros v Hv.
  apply list_elem_of_lookup in Hv as [k Hk].
  apply join_lookup_Some in Hk as (j & row & i & Hrow & Hv & _).
  apply (mat_at_zero_grid rows cols j i). apply mat_at_Some. eauto.
Qed.

(** From the zero grid, with a threshold that is not negative, every pass
    returns the zero grid, whose mean never passes the convergence
    test. *)
Lemma relax_iter_zero_grid (XT YT : nat) (dt beta gamma delta alpha theta : R)
    (n : nat) :
  0 <= theta ->
  relax_iter n (zero_grid YT XT) dt beta gamma delta alpha theta
    (zero_grid YT XT) = zero_grid YT XT.
Proof.
  intros Htheta. induction n as [|n IH]; [reflexivity|].
  simpl. rewrite relax_step_zero_grid by exact Htheta. exact IH.
Qed.

Lemma converged_at_zero_grid (XT YT : nat) (dt beta gamma delta alpha theta : R)
    (k : nat) :
  0 <= theta ->
  converged_at k (zero_grid YT XT) dt beta gamma delta alpha theta
    (zero_grid YT XT) = false.
Proof.
  intros Htheta. unfold converged_at.
  rewrite !relax_iter_zero_grid by exact Htheta.
  apply convergence_nonpositive_mean.
  unfold mean. rewrite Rsum_mjoin_zero_grid. unfold Rdiv. lra.
Qed.

(** On grids of the announced shape no pass of the loop raises. *)
Lemma tectal_loop_never_raises (H_grid_initial : matrix) (XT YT : nat)
    (dt beta gamma delta alpha theta : R) (fuel : nat) :
  shape H_grid_initial YT XT ->
  forall (H_grid : matrix) (n_loops : Z) (e : exn),
    shape H_grid YT XT ->
    tectal_loop fuel H_grid_initial XT YT dt beta gamma delta alpha theta false
      H_grid n_loops <> Raise e.
Proof.
  intros H0. induction fuel as [|fuel IH]; intros H_grid n_loops e HH;
    [discriminate|].
  simpl. rewrite threshold_grid by exact HH. simpl.
  destruct (convergence _ _); [discriminate|].
  apply IH, shape_relax_step; assumption.
Qed.

(** One pass on a sheet of a single neuron that is not above the
    threshold. *)
Lemma relax_step_single (h0 h dt beta gamma delta alpha theta : R) :
  h <= theta ->
  relax_step [[h0]] dt beta gamma delta alpha theta [[h]]
  = [[h + dt * (h0 + alpha * h)]].
Proof.
  intros Hsub.
  unfold relax_step, relax_update, madd, smul, convolve2d, tectal_modifiers,
    thresholded.
  simpl. destruct (decide (h > theta)) as [Hgt|_]; [lra|].
  rewrite !get0_single_zero. repeat f_equal. ring.
Qed.

(** C2, as the code has it with the verbose diagnostics off: the loop has
    no iteration guard.  On a grid of the announced shape it is still
    iterating for as long as the convergence test fails, whatever the
    number of passes already made; it returns the grid of the first pass
    whose test succeeds; it never raises; and from the all-zero grid,
    with a threshold that is not negative, it never exits. *)
Theorem tectal_interactions_unguarded (H_grid_initial : matrix) (XT YT : nat)
    (dt beta gamma delta alpha theta : R) :
  shape H_grid_initial YT XT ->
  (forall fuel,
     (forall k, (k < fuel)%nat ->
        converged_at k H_grid_initial dt beta gamma delta alpha theta
          H_grid_initial = false) ->
     tectal_interactions fuel H_grid_initial XT YT dt beta gamma delta alpha
       theta false = OutOfFuel) /\
  (forall n fuel, (n < fuel)%nat ->
     (forall k, (k < n)%nat ->
        converged_at k H_grid_initial dt beta gamma delta alpha theta
          H_grid_initial = false) ->
     converged_at n H_grid_initial dt beta gamma delta alpha theta
       H_grid_initial = true ->
     tectal_interactions fuel H_grid_initial XT YT dt beta gamma delta alpha
       theta false =
     Ret (relax_iter (Datatypes.S n) H_grid_initial dt beta gamma delta alpha
            theta H_grid_initial)) /\
  (forall fuel e,
     tectal_interactions fuel H_grid_initial XT YT dt beta gamma delta alpha
       theta false <> Raise e) /\
  (0 <= theta ->
   forall fuel,
     tectal_interactions fuel (zero_grid YT XT) XT YT dt beta gamma delta alpha
       theta false = OutOfFuel).
Proof.
  intros H0. unfold tectal_interactions. split; [|split; [|split]].
  - intros fuel Hnot.
    apply (tectal_loop_runs H_grid_initial XT YT dt beta gamma delta alpha
             theta fuel H0 H_grid_initial 0%Z H0), Hnot.
  - intros n fuel Hn Hbefore Hat.
    apply (tectal_loop_runs H_grid_initial XT YT dt beta gamma delta alpha
             theta fuel H0 H_grid_initial 0%Z H0); assumption.
  - intros fuel e. apply tectal_loop_never_raises; exact H0.
  - intros Htheta fuel.
    apply (tectal_loop_runs (zero_grid YT XT) XT YT dt beta gamma delta alpha
             theta fuel (shape_zero_grid YT XT) (zero_grid YT XT) 0%Z
             (shape_zero_grid YT XT)).
    intros k _. apply converged_at_zero_grid. exact Htheta.
Qed.

(** On a sheet of one neuron of drive 1, with [dt = 2] and the decay
    [alpha = -0.5], the first pass moves the activity from 1 to 2 and
    fails the test, and the second pass leaves it at 2 and passes it:
    the loop is still running after one pass and returns after two. *)
Lemma tectal_interactions_unguarded_witness :
  shape [[1]] 1 1 /\
  tectal_interactions 1 [[1]] 1 1 2 0.05 0.025 (-0.06) (-0.5) 10 false
    = OutOfFuel /\
  tectal_interactions 2 [[1]] 1 1 2 0.05 0.025 (-0.06) (-0.5) 10 false
    = Ret (relax_iter 2 [[1]] 2 0.05 0.025 (-0.06) (-0.5) 10 [[1]]) /\
  relax_iter 2 [[1]] 2 0.05 0.025 (-0.06) (-0.5) 10 [[1]]
    = [[1 + 2 * (1 + -0.5 * 1) + 2 * (1 + -0.5 * (1 + 2 * (1 + -0.5 * 1)))]] /\
  (forall fuel e,
     tectal_interactions fuel [[1]] 1 1 2 0.05 0.025 (-0.06) (-0.5) 10 false
       <> Raise e) /\
  (forall fuel,
     tectal_interactions fuel (zero_grid 1 1) 1 1 2 0.05 0.025 (-0.06) (-0.5)
       10 false = OutOfFuel).
Proof.
  assert (Hshape : shape [[1]] 1 1)
    by (split; [reflexivity | repeat constructor]).
  assert (Hfirst :
            relax_step [[1]] 2 0.05 0.025 (-0.06) (-0.5) 10 [[1]]
            = [[1 + 2 * (1 + -0.5 * 1)]])
    by (apply relax_step_single; lra).
  assert (Hsecond :
            relax_step [[1]] 2 0.05 0.025 (-0.06) (-0.5) 10
              [[1 + 2 * (1 + -0.5 * 1)]]
            = [[1 + 2 * (1 + -0.5 * 1)
                + 2 * (1 + -0.5 * (1 + 2 * (1 + -0.5 * 1)))]])
    by (apply relax_step_single; lra).
  assert (Hnot :
            converged_at 0 [[1]] 2 0.05 0.025 (-0.06) (-0.5) 10 [[1]] = false).
  { unfold converged_at. simpl. rewrite Hfirst.
    unfold convergence. apply bool_decide_eq_false.
    unfold mean. simpl. unfold Rabs. destruct Rcase_abs; lra. }
  assert (Hat :
            converged_at 1 [[1]] 2 0.05 0.025 (-0.06) (-0.5) 10 [[1]] = true).
  { unfold converged_at. simpl. rewrite Hfirst, Hsecond.
    apply convergence_true_iff.
    unfold mean. simpl. unfold Rabs. destruct Rcase_abs; lra. }
  destruct (tectal_interactions_unguarded [[1]] 1 1 2 0.05 0.025 (-0.06)
              (-0.5) 10 Hshape) as (Hruns & Hreturns & Hraise & Hzero).
  split; [exact Hshape|]. split; [|split; [|split; [|split]]].
  - apply Hruns. intros k Hk. replace k with 0%nat by lia. exact Hnot.
  - apply (Hreturns 1%nat 2%nat); [lia | | exact Hat].
    intros k Hk. replace k with 0%nat by lia. exact Hnot.
  - simpl. rewrite Hfirst, Hsecond. reflexivity.
  - exact Hraise.
  - apply Hzero. lra.
Defined.

(** C2, as stated, fails: on the all-zero grid of one neuron, with the
    parameters of the reference run, no number of passes makes the loop
    return or raise. *)
Lemma tectal_interactions_zero_grid_never_exits :
  ~ (exists fuel,
       tectal_interactions fuel [[0]] 1 1 1 0.05 0.025 (-0.06) (-0.5) 10 false
       <> OutOfFuel).
Proof.
  intros [fuel Hexit]. apply Hexit. unfold tectal_interactions.
  apply (tectal_loop_runs [[0]] 1 1 1 0.05 0.025 (-0.06) (-0.5) 10 fuel).
  - split; [reflexivity | repeat constructor].
  - split; [reflexivity | repeat constructor].
  - intros k _. apply converged_at_single_zero. lra.
Qed.

(** A run that exits: with the decay [alpha = -1] and [dt = 1] the grid
    of one neuron of activity 1 is unchanged by the first pass, which
    therefore passes the test. *)
Lemma relax_step_single_one (beta gamma delta : R) :
  relax_step [[1]] 1 beta gamma delta (-1) 10 [[1]] = [[1]].
Proof.
  unfold relax_step, relax_update, madd, smul, convolve2d, tectal_modifiers,
    thresholded.
  simpl. destruct (decide (1 > 10)) as [Hgt|_]; [lra|].
  rewrite !get0_single_zero. repeat f_equal. lra.
Qed.

Example tectal_interactions_first_pass :
  tectal_interactions 1 [[1]] 1 1 1 0.05 0.025 (-0.06) (-1) 10 false
  = Ret [[1]].
Proof.
  assert (Hshape : shape [[1]] 1 1) by (split; [reflexivity | repeat constructor]).
  destruct (tectal_loop_runs [[1]] 1 1 1 0.05 0.025 (-0.06) (-1) 10 1
              Hshape [[1]] 0%Z Hshape) as [_ Hret].
  unfold tectal_interactions. rewrite (Hret 0%nat).
  - simpl. rewrite relax_step_single_one. reflexivity.
  - lia.
  - intros k Hk. lia.
  - unfold converged_at. simpl. rewrite relax_step_single_one.
    apply convergence_true_iff. unfold mean. simpl.
    unfold Rabs. destruct Rcase_abs; lra.
Qed.

(** With the verbose diagnostics on, the counter is assigned [+1] at every
    pass and the cap at 20 passes is never reached: the loop behaves as
    with the diagnostics off. *)
Lemma tectal_loop_verbose_same (H_grid_initial : matrix) (XT YT : nat)
    (dt beta gamma delta alpha theta : R) (fuel : nat) (H_grid : matrix)
    (n_loops : Z) :
  tectal_loop fuel H_grid_initial XT YT dt beta gamma delta alpha theta true
    H_grid n_loops =
  tectal_loop fuel H_grid_initial XT YT dt beta gamma delta alpha theta false
    H_grid 1.
Proof.
  revert H_grid n_loops. induction fuel as [|fuel IH]; intros H_grid n_loops;
    [reflexivity|].
  simpl. destruct (threshold H_grid theta XT YT) as [H_star| |]; simpl;
    try reflexivity.
  destruct (convergence _ _); [reflexivity|].
  apply IH.
Qed.

(** ** Graded polarity markers *)

Lemma for_each_fmap {A B S : Type} (f : A -> B) (l : list A)
    (body : B -> S -> res S) (s : S) :
  for_each (f <$> l) body s = for_each l (fun a => body (f a)) s.
Proof.
  revert s. induction l as [|a l IH]; intros s; simpl; [reflexivity|].
  destruct (body (f a) s) as [s1| |]; simpl; auto.
Qed.

Lemma cell_set_same (s : matrix) (y x : nat) (w : R) :
  mat_at s y x = Some w -> cell_set s y x w = s.
Proof.
  intros (row & Hrow & Hw)%mat_at_Some. unfold cell_set.
  apply list_eq. intros k. rewrite list_lookup_alter.
  destruct (decide (y = k)) as [<-|]; [|reflexivity].
  rewrite Hrow. simpl. f_equal. apply list_insert_id, Hw.
Qed.

(** The factor applied to the synapse between retinal neuron [i] and
    tectal neuron [j]. *)
Lemma graded_polarity_markers_cells (s : matrix) (XT YT XR YR : nat) :
  shape s (XT * YT) (XR * YR) ->
  exists s',
    graded_polarity_markers s XT YT XR YR = Ret s' /\
    shape s' (XT * YT) (XR * YR) /\
    forall (j i : nat) (w : R),
      mat_at s j i = Some w ->
      mat_at s' j i =
      Some (if decide (graded_dist XT YT XR YR (Z.of_nat i) (Z.of_nat j) < 0.5)
            then (-8 * graded_dist XT YT XR YR (Z.of_nat i) (Z.of_nat j) + 5) * w
            else w).
Proof.
  intros Hshape. unfold graded_polarity_markers.
  rewrite (for_each_nested (range (XR * YR)) (fun _ => range (XT * YT))).
  set (g := fun (j i : Z) (w : R) =>
         if decide (graded_dist XT YT XR YR i j < 0.5)
         then (-8 * graded_dist XT YT XR YR i j + 5) * w else w).
  set (body := fun (p : Z * Z) (s0 : matrix) =>
         if decide (graded_dist XT YT XR YR p.2 p.1 < 0.5)
         then v ← mget s0 p.1 p.2;
              mset s0 p.1 p.2 ((-8 * graded_dist XT YT XR YR p.2 p.1 + 5) * v)
         else Ret s0).
  set (cols := i ← range (XR * YR); (fun j => (i, j)) <$> range (XT * YT)).
  set (swap := fun p : Z * Z => (p.2, p.1)).
  assert (Hswap : cols = swap <$> (swap <$> cols)).
  { rewrite <- list_fmap_compose. rewrite <- (list_fmap_id cols) at 1.
    apply list_fmap_ext. intros _ [i j] _. reflexivity. }
  rewrite Hswap, for_each_fmap.
  destruct (for_each_cells g body (swap <$> cols) (XT * YT) (XR * YR) s)
    as (s' & Hrun & Hsh & Hupd); [| exact Hshape | | | ].
  - apply NoDup_fmap_2.
    + intros [a b] [c d] [= -> ->]. reflexivity.
    + apply NoDup_cells; [apply NoDup_range | intros; apply NoDup_range].
  - intros y x ([i j] & [= -> ->] & Hc)%list_elem_of_fmap.
    apply elem_of_cells in Hc as [Hi%elem_of_range Hj%elem_of_range]. lia.
  - intros y x s0 w ([i j] & [= -> ->] & Hc)%list_elem_of_fmap Hw.
    apply elem_of_cells in Hc as [Hi%elem_of_range Hj%elem_of_range].
    unfold body, g. simpl.
    destruct (decide (graded_dist XT YT XR YR i j < 0.5)).
    + rewrite (mget_cell s0 j i w) by (lia || exact Hw). simpl.
      apply mset_cell with w; (lia || exact Hw).
    + rewrite cell_set_same by exact Hw. reflexivity.
  - exists s'. split; [exact Hrun|]. split; [exact Hsh|].
    intros j i w Hw. rewrite Hupd, Hw. simpl.
    destruct (mat_at_shape_inv s _ _ j i Hshape) as [Hj Hi];
      [exists w; exact Hw|].
    rewrite decide_True; [reflexivity|].
    apply list_elem_of_fmap. exists (Z.of_nat i, Z.of_nat j). split; [reflexivity|].
    apply elem_of_cells. split; apply elem_of_range; lia.
Qed.

(** With the retinal neuron and the tectal neuron at one normalised
    position, the factor is 5. *)
Lemma graded_dist_same_position (XT YT XR YR : nat) (i j : Z) :
  IZR (i / Z.of_nat XR) / INR YR = IZR (j / Z.of_nat XT) / INR YT ->
  IZR (i mod Z.of_nat XR) / INR XR = IZR (j mod Z.of_nat XT) / INR XT ->
  graded_dist XT YT XR YR i j = 0 /\
  -8 * graded_dist XT YT XR YR i j + 5 = 5.
Proof.
  intros Ha Hb. assert (Hd : graded_dist XT YT XR YR i j = 0).
  { unfold graded_dist. rewrite Ha, Hb.
    replace (_ + _) with 0 by ring. rewrite sqrt_0. unfold Rdiv. ring. }
  split; [exact Hd | rewrite Hd; ring].
Qed.

Lemma sqrt2_gt_1 : 1 < sqrt 2.
Proof.
  rewrite <- sqrt_1 at 1. apply sqrt_lt_1; lra.
Qed.

(** On a tectal sheet of width 2 and a retina of one neuron, the second
    tectal neuron is at Euclidean distance 1/2 of the retinal neuron, and
    the code's [dist] for the pair is that distance times [sqrt 2]. *)
Lemma graded_dist_half :
  graded_dist 2 1 1 1 0 1 = sqrt 2 / 2.
Proof.
  unfold graded_dist. simpl.
  change (0 `div` Z.of_nat 1)%Z with 0%Z. change (1 `div` Z.of_nat 2)%Z with 0%Z.
  change (0 `mod` Z.of_nat 1)%Z with 0%Z. change (1 `mod` Z.of_nat 2)%Z with 1%Z.
  match goal with
  | |- sqrt ?a / _ = _ => replace a with ((1 / 2) * (1 / 2)) by field
  end.
  rewrite sqrt_square by lra.
  pose proof sqrt2_gt_1. field. lra.
Qed.

(** C3: the distance is meant to be divided by [sqrt 2], the largest
    separation, so that markers reach up to half of it.  The code divides
    by [1 / sqrt 2]: for a tectal sheet of width 2 and a retina of one
    neuron, the second tectal neuron is at normalised distance
    [(1/2) / sqrt 2 < 0.5] of the retinal neuron, and its synapse, which
    the claim multiplies by [5 - 8 * (1/2) / sqrt 2], is left unchanged. *)
Theorem graded_polarity_markers_half_distance :
  sqrt ((0 - 0) * (0 - 0) + (0 - 1 / 2) * (0 - 1 / 2)) / sqrt 2 < 0.5 /\
  graded_polarity_markers [[1]; [1]] 2 1 1 1 = Ret [[5]; [1]].
Proof.
  pose proof sqrt2_gt_1 as Hsqrt. split.
  - replace ((0 - 0) * (0 - 0) + (0 - 1 / 2) * (0 - 1 / 2))
      with ((1 / 2) * (1 / 2)) by field.
    rewrite sqrt_square by lra.
    apply (Rmult_lt_reg_r (sqrt 2)); [lra|].
    unfold Rdiv. rewrite Rmult_assoc, Rinv_l by lra. lra.
  - unfold graded_polarity_markers. simpl.
    destruct (graded_dist_same_position 2 1 1 1 0 0) as [Hd _];
      [reflexivity | |].
    { change (IZR (0 `mod` Z.of_nat 1)) with 0.
      change (IZR (0 `mod` Z.of_nat 2)) with 0. unfold Rdiv. ring. }
    change (Z.of_nat 0) with 0%Z. change (Z.of_nat 1) with 1%Z.
    rewrite Hd, graded_dist_half.
    destruct (decide (0 < 0.5)) as [_|Hn]; [|lra].
    simpl.
    destruct (decide (sqrt 2 / 2 < 0.5)) as [Hlt|_]; [lra|].
    simpl. replace ((-8 * 0 + 5) * 1) with 5 by lra. reflexivity.
Qed.

(** ** Map quality *)

Lemma length_linspace (start stop : R) (num : nat) :
  length (linspace start stop num) = num.
Proof.
  destruct num as [|[|num]]; [reflexivity | reflexivity |].
  unfold linspace. rewrite length_fmap, length_seq. reflexivity.
Qed.

Lemma length_np_tile {A : Type} (v : list A) (n : nat) :
  length (np_tile v n) = (n * length v)%nat.
Proof.
  unfold np_tile. induction n as [|n IH]; [reflexivity|].
  change (mjoin (replicate (Datatypes.S n) v)) with (v ++ mjoin (replicate n v)).
  rewrite length_app, IH. lia.
Qed.

Lemma length_np_repeat {A : Type} (v : list A) (n : nat) :
  length (np_repeat v n) = (length v * n)%nat.
Proof.
  unfold np_repeat. induction v as [|a v IH]; [reflexivity|].
  rewrite bind_cons, length_app, IH, length_replicate. simpl. lia.
Qed.

Lemma for_each_sum {A : Type} (f : A -> R) (l : list A) (q : R) :
  for_each l (fun a q0 => Ret (q0 + f a)) q = Ret (q + Rsum (f <$> l)).
Proof.
  revert q. induction l as [|a l IH]; intros q.
  - change (Ret q = Ret (q + 0)). f_equal. lra.
  - change (for_each l (fun a0 q0 => Ret (q0 + f a0)) (q + f a)
            = Ret (q + (f a + Rsum (f <$> l)))).
    rewrite IH. f_equal. lra.
Qed.

Lemma Rsum_nonneg (l : list R) : Forall (fun x => 0 <= x) l -> 0 <= Rsum l.
Proof.
  induction 1 as [|x l Hx Hl IH]; simpl; lra.
Qed.

Lemma max_disp_pos (XR YR : nat) :
  (XR + YR <> 0)%nat -> 0 < sqrt (INR (XR + YR)).
Proof.
  intros Hne. apply sqrt_lt_R0. apply lt_0_INR. lia.
Qed.

(** With at least one tectal neuron, a retina that is not empty and
    coordinate arrays of one entry per tectal neuron, [quality] returns
    one minus the mean of the normalised displacements. *)
Lemma quality_value (XT YT XR YR : nat) (COM_X COM_Y : list R) :
  (XT * YT <> 0)%nat -> (XR + YR <> 0)%nat ->
  length COM_X = (XT * YT)%nat -> length COM_Y = (XT * YT)%nat ->
  quality XT YT XR YR COM_X COM_Y =
  Ret (1 - Rsum ((fun k : nat =>
                    sqrt ((default 0 (COM_X !! k)
                           - default 0 (np_tile (linspace 0 (INR XR - 1) XT) YT !! k))
                          * (default 0 (COM_X !! k)
                             - default 0 (np_tile (linspace 0 (INR XR - 1) XT) YT !! k))
                          + (default 0 (COM_Y !! k)
                             - default 0 (np_repeat (linspace 0 (INR YR - 1) YT) XT !! k))
                            * (default 0 (COM_Y !! k)
                               - default 0 (np_repeat (linspace 0 (INR YR - 1) YT) XT !! k)))
                    / sqrt (INR (XR + YR))) <$> seq 0 (XT * YT))
           / INR (XT * YT)).
Proof.
  intros HN HD HX HY. unfold quality.
  set (perfect_x := np_tile (linspace 0 (INR XR - 1) XT) YT).
  set (perfect_y := np_repeat (linspace 0 (INR YR - 1) YT) XT).
  assert (Hpx : length perfect_x = (XT * YT)%nat).
  { unfold perfect_x. rewrite length_np_tile, length_linspace. lia. }
  assert (Hpy : length perfect_y = (XT * YT)%nat).
  { unfold perfect_y. rewrite length_np_repeat, length_linspace. lia. }
  pose proof (max_disp_pos XR YR HD) as Hmax.
  unfold range. rewrite for_each_fmap.
  set (term := fun k : nat =>
         sqrt ((default 0 (COM_X !! k) - default 0 (perfect_x !! k))
               * (default 0 (COM_X !! k) - default 0 (perfect_x !! k))
               + (default 0 (COM_Y !! k) - default 0 (perfect_y !! k))
                 * (default 0 (COM_Y !! k) - default 0 (perfect_y !! k)))
         / sqrt (INR (XR + YR))).
  rewrite (for_each_ext _ _ (fun k q0 => Ret (q0 + term k))).
  2:{ intros k q0 Hk%elem_of_seq.
      destruct (lookup_lt_is_Some_2 COM_X k) as [cx Hcx]; [lia|].
      destruct (lookup_lt_is_Some_2 COM_Y k) as [cy Hcy]; [lia|].
      destruct (lookup_lt_is_Some_2 perfect_x k) as [px Hpxk]; [lia|].
      destruct (lookup_lt_is_Some_2 perfect_y k) as [py Hpyk]; [lia|].
      rewrite (aget_lookup _ _ _ Hcx), (aget_lookup _ _ _ Hcy),
        (aget_lookup _ _ _ Hpxk), (aget_lookup _ _ _ Hpyk).
      simpl. rewrite decide_False by lra. simpl.
      unfold term. rewrite Hcx, Hcy, Hpxk, Hpyk. reflexivity. }
  rewrite for_each_sum. simpl.
  rewrite decide_False by exact HN. simpl.
  f_equal. f_equal. f_equal. lra.
Qed.

(** C9, as the code has it: for every geometry with at least one tectal
    neuron and a retina that is not empty, the quality of the exact ideal
    linear mapping is exactly 1. *)
Theorem quality_ideal_mapping (XT YT XR YR : nat) :
  (1 <= XT)%nat -> (1 <= YT)%nat -> (1 <= XR + YR)%nat ->
  quality XT YT XR YR
    (np_tile (linspace 0 (INR XR - 1) XT) YT)
    (np_repeat (linspace 0 (INR YR - 1) YT) XT) = Ret 1.
Proof.
  intros HXT HYT HR.
  rewrite quality_value.
  - f_equal. rewrite Rsum_zero; [unfold Rdiv; ring|].
    apply Forall_fmap, Forall_forall. intros k _. simpl.
    match goal with
    | |- sqrt ?a / _ = 0 => replace a with 0 by ring
    end.
    rewrite sqrt_0. unfold Rdiv. ring.
  - nia.
  - lia.
  - rewrite length_np_tile, length_linspace. lia.
  - rewrite length_np_repeat, length_linspace. lia.
Qed.

Lemma quality_ideal_mapping_witness :
  quality 10 10 8 8
    (np_tile (linspace 0 (INR 8 - 1) 10) 10)
    (np_repeat (linspace 0 (INR 8 - 1) 10) 10) = Ret 1.
Proof. apply (quality_ideal_mapping 10 10 8 8); lia. Defined.

(** C9, as stated for every geometry, fails: without tectal neurons the
    ideal mapping is the empty pair of arrays and [quality] divides by
    the number of tectal neurons, which is zero. *)
Lemma quality_no_tectal_neuron :
  quality 0 0 8 8
    (np_tile (linspace 0 (INR 8 - 1) 0) 0)
    (np_repeat (linspace 0 (INR 8 - 1) 0) 0) = Raise ZeroDivisionError.
Proof. reflexivity. Qed.

(** C10: for every geometry with positive dimensions and coordinate
    arrays of one entry per tectal neuron, [quality] returns a value that
    is at most 1; and the value can be negative, as for the map of one
    neuron whose centroid lies at abscissa 10 of a retina of one neuron. *)
Theorem quality_at_most_1 (XT YT XR YR : nat) (COM_X COM_Y : list R) :
  (1 <= XT)%nat -> (1 <= YT)%nat -> (1 <= XR)%nat -> (1 <= YR)%nat ->
  length COM_X = (XT * YT)%nat -> length COM_Y = (XT * YT)%nat ->
  (exists q, quality XT YT XR YR COM_X COM_Y = Ret q /\ q <= 1) /\
  (exists q, quality 1 1 1 1 [10] [0] = Ret q /\ q < 0).
Proof.
  intros HXT HYT HXR HYR HX HY. split.
  - rewrite quality_value by (nia || lia).
    eexists. split; [reflexivity|].
    pose proof (max_disp_pos XR YR ltac:(lia)) as Hmax.
    assert (HN : 0 < INR (XT * YT)) by (apply lt_0_INR; nia).
    pose proof (Rinv_0_lt_compat _ HN) as HNinv.
    pose proof (Rinv_0_lt_compat _ Hmax) as Hmaxinv.
    match goal with
    | |- 1 - Rsum ?l / _ <= 1 => assert (Hsum : 0 <= Rsum l)
    end.
    { apply Rsum_nonneg, Forall_fmap, Forall_forall. intros k _. simpl.
      apply Rmult_le_pos; [apply sqrt_pos | lra]. }
    unfold Rdiv at 1. nra.
  - rewrite quality_value by (simpl; lia || reflexivity).
    eexists. split; [reflexivity|].
    simpl.
    replace ((10 - 0) * (10 - 0) + (0 - 0) * (0 - 0)) with (10 * 10) by ring.
    rewrite sqrt_square by lra.
    assert (Hs : sqrt (1 + 1) < 2).
    { assert (H4 : sqrt (2 * 2) = 2) by (apply sqrt_square; lra).
      rewrite <- H4. apply sqrt_lt_1; lra. }
    assert (Hp : 0 < sqrt (1 + 1)) by (apply sqrt_lt_R0; lra).
    assert (H5 : 5 < 10 / sqrt (1 + 1)).
    { apply (Rmult_lt_reg_r (sqrt (1 + 1))); [exact Hp|].
      unfold Rdiv. rewrite Rmult_assoc, Rinv_l by lra. lra. }
    lra.
Qed.

Lemma quality_at_most_1_witness :
  (exists q, quality 1 1 1 1 [0] [0] = Ret q /\ q <= 1) /\
  (exists q, quality 1 1 1 1 [10] [0] = Ret q /\ q < 0).
Proof.
  apply (quality_at_most_1 1 1 1 1 [0] [0]); (lia || reflexivity).
Defined.

(** ** Random activation patterns *)

(** *** Rules for [post] *)

Lemma post_ret {A : Type} (a : A) (tape : list nat) (Q : A -> Prop) :
  Q a -> post (mret a) tape Q.
Proof. intros HQ. exact HQ. Qed.

Lemma post_bind {A B : Type} (m : rnd A) (f : A -> rnd B) (tape : list nat)
    (Q : B -> Prop) :
  post m tape (fun a => forall t, post (f a) t Q) -> post (m ≫= f) tape Q.
Proof.
  unfold post. change ((m ≫= f) tape) with (rnd_bind _ _ f m tape).
  unfold rnd_bind. destruct (m tape) as [[a t]| |]; [|tauto|tauto].
  intros Hf. exact (Hf t).
Qed.

Lemma post_conseq {A : Type} (m : rnd A) (tape : list nat) (Q Q' : A -> Prop) :
  (forall a, Q a -> Q' a) -> post m tape Q -> post m tape Q'.
Proof.
  unfold post. intros HQ. destruct (m tape) as [[a t]| |]; auto.
Qed.

Lemma post_randint (n : Z) (tape : list nat) (Q : Z -> Prop) :
  (0 < n)%Z -> (forall v, (0 <= v < n)%Z -> Q v) -> post (randint n) tape Q.
Proof.
  intros Hn HQ. unfold post, randint.
  destruct (decide (n <= 0)%Z); [lia|].
  destruct tape as [|r tape]; [exact I|].
  apply HQ. apply Z.mod_pos_bound. exact Hn.
Qed.

Lemma nth_elem_of {A : Type} (l : list A) (d : A) (k : nat) :
  (k < length l)%nat -> nth k l d ∈ l.
Proof.
  revert k. induction l as [|a l IH]; intros k Hk; simpl in Hk; [lia|].
  destruct k as [|k]; simpl.
  - apply list_elem_of_here.
  - apply list_elem_of_further, IH. lia.
Qed.

Lemma post_choice (l : list Z) (tape : list nat) (Q : Z -> Prop) :
  l <> [] -> (forall v, v ∈ l -> Q v) -> post (choice l) tape Q.
Proof.
  intros Hl HQ. unfold post, choice.
  destruct l as [|d l]; [congruence|].
  destruct tape as [|r tape]; [exact I|].
  apply HQ, nth_elem_of. apply Nat.mod_upper_bound. simpl. lia.
Qed.

Lemma post_while {S : Type} (Inv : S -> Prop) (cond : S -> bool)
    (body : S -> rnd S) (fuel : nat) (s : S) (tape : list nat) :
  Inv s ->
  (forall s0 t, Inv s0 -> cond s0 = true -> post (body s0) t Inv) ->
  post (while_loop fuel cond body s) tape
    (fun s' => Inv s' /\ cond s' = false).
Proof.
  intros Hs Hbody. revert s tape Hs.
  induction fuel as [|fuel IH]; intros s tape Hs; [exact I|].
  simpl. destruct (cond s) eqn:Hc.
  - apply post_bind. eapply post_conseq; [|apply (Hbody s tape Hs Hc)].
    intros s1 Hs1 t. apply IH, Hs1.
  - apply post_ret. auto.
Qed.

(** *** Adjacent neurons *)

(** A value drawn from a literal list of choices is one of its entries. *)
Ltac among_choices :=
  let v := fresh "v" in
  let Hv := fresh "Hv" in
  intros v Hv; apply list_elem_of_In in Hv; simpl in Hv; lia.

Lemma post_adjacent_y (YR y1 : Z) (tape : list nat) :
  (2 <= YR)%Z -> (0 <= y1 < YR)%Z ->
  post (adjacent_y YR y1) tape
    (fun y2 => (0 <= y2 < YR)%Z /\ (y2 = y1 \/ y2 = y1 + 1 \/ y2 = y1 - 1)%Z).
Proof.
  intros HYR Hy1. unfold adjacent_y.
  destruct (decide (y1 = 0)%Z); [|destruct (decide (y1 = YR - 1)%Z)];
    (apply post_choice; [discriminate|]);
    among_choices.
Qed.

Lemma post_adjacent_x (XR x1 y1 y2 : Z) (tape : list nat) :
  (2 <= XR)%Z -> (0 <= x1 < XR)%Z ->
  post (adjacent_x XR x1 y1 y2) tape
    (fun x2 => (0 <= x2 < XR)%Z /\
               ((y2 = y1 /\ (x2 = x1 + 1 \/ x2 = x1 - 1)%Z) \/
                (y2 <> y1 /\ x2 = x1))).
Proof.
  intros HXR Hx1. unfold adjacent_x.
  destruct (decide (y2 = y1)).
  - destruct (decide (x1 = 0)%Z); [|destruct (decide (x1 = XR - 1)%Z)].
    + apply post_ret. lia.
    + apply post_ret. lia.
    + apply post_choice; [discriminate|].
      among_choices.
  - apply post_ret. lia.
Qed.

(** The linear index of a neuron determines its coordinates. *)
Lemma linear_index_inj (XR y x y' x' : Z) :
  (0 <= x < XR)%Z -> (0 <= x' < XR)%Z ->
  (y * XR + x = y' * XR + x')%Z -> y = y' /\ x = x'.
Proof.
  intros Hx Hx' Heq.
  assert (y = y') by nia. subst. lia.
Qed.

Lemma linear_index_bounds (XR YR y x : Z) :
  (0 <= y < YR)%Z -> (0 <= x < XR)%Z -> (0 <= y * XR + x < XR * YR)%Z.
Proof. intros Hy Hx. nia. Qed.

(** *** Safety of the three patterns *)

Lemma NoDup_2 {A : Type} (a b : A) : a <> b -> NoDup [a; b].
Proof.
  intros Hab. apply NoDup_cons. split; [|apply NoDup_singleton].
  intros H%list_elem_of_singleton. exact (Hab H).
Qed.

Lemma NoDup_4 {A : Type} (a b c d : A) :
  a <> b -> a <> c -> a <> d -> b <> c -> b <> d -> c <> d ->
  NoDup [a; b; c; d].
Proof.
  intros Hab Hac Had Hbc Hbd Hcd.
  apply NoDup_cons. split.
  { intros H%list_elem_of_In. simpl in H. intuition congruence. }
  apply NoDup_cons. split.
  { intros H%list_elem_of_In. simpl in H. intuition congruence. }
  apply NoDup_2, Hcd.
Qed.

Lemma post_retinal_neuron_pairs (XR YR : nat) (tape : list nat) :
  (2 <= XR)%nat -> (2 <= YR)%nat ->
  post (retinal_neuron_pairs XR YR) tape (valid_activation XR YR 2).
Proof.
  intros HXR HYR. unfold retinal_neuron_pairs. cbv zeta.
  apply post_bind, post_randint; [lia|]. intros y1 Hy1 t1.
  apply post_bind, post_randint; [lia|]. intros x1 Hx1 t2.
  apply post_bind. eapply post_conseq; [|apply post_adjacent_y; lia].
  intros y2 [Hy2 Hy] t3.
  apply post_bind. eapply post_conseq; [|apply post_adjacent_x; lia].
  intros x2 [Hx2 Hx] t4.
  apply post_ret. split; [reflexivity|]. split.
  - apply NoDup_2. intros Heq.
    apply linear_index_inj in Heq; [lia | lia | lia].
  - pose proof (linear_index_bounds _ _ _ _ Hy1 Hx1).
    pose proof (linear_index_bounds _ _ _ _ Hy2 Hx2).
    repeat constructor; lia.
Qed.

Lemma post_retinal_neuron_squares (XR YR : nat) (tape : list nat) :
  (2 <= XR)%nat -> (2 <= YR)%nat ->
  post (retinal_neuron_squares XR YR) tape (valid_activation XR YR 4).
Proof.
  intros HXR HYR. unfold retinal_neuron_squares. cbv zeta.
  apply post_bind, post_randint; [lia|]. intros y1 Hy1 t1.
  apply post_bind, post_randint; [lia|]. intros x1 Hx1 t2.
  apply post_bind.
  apply (post_conseq _ _ (fun y2 => (0 <= y2 < Z.of_nat YR)%Z /\ y2 <> y1)).
  2:{ destruct (decide (y1 = 0)%Z); [|destruct (decide (y1 = Z.of_nat YR - 1)%Z)].
      - apply post_ret. lia.
      - apply post_ret. lia.
      - apply post_choice; [discriminate|].
        among_choices. }
  intros y2 [Hy2 Hy] t3.
  apply post_bind.
  apply (post_conseq _ _ (fun x3 => (0 <= x3 < Z.of_nat XR)%Z /\ x3 <> x1)).
  2:{ destruct (decide (x1 = 0)%Z); [|destruct (decide (x1 = Z.of_nat XR - 1)%Z)].
      - apply post_ret. lia.
      - apply post_ret. lia.
      - apply post_choice; [discriminate|].
        among_choices. }
  intros x3 [Hx3 Hx] t4.
  apply post_ret. split; [reflexivity|]. split.
  - apply NoDup_4; intros Heq; apply linear_index_inj in Heq; lia.
  - pose proof (linear_index_bounds _ _ _ _ Hy1 Hx1).
    pose proof (linear_index_bounds _ _ _ _ Hy2 Hx1).
    pose proof (linear_index_bounds _ _ _ _ Hy1 Hx3).
    pose proof (linear_index_bounds _ _ _ _ Hy2 Hx3).
    repeat constructor; lia.
Qed.

Lemma rejected_false (RN RN1 RN2 : Z) :
  bool_decide (RN = RN1) || bool_decide (RN = RN2) = false ->
  RN <> RN1 /\ RN <> RN2.
Proof.
  intros [H1 H2]%orb_false_elim.
  apply bool_decide_eq_false in H1, H2. auto.
Qed.

Lemma post_retinal_neuron_2_pairs_run (fuel XR YR : nat) (tape : list nat) :
  (2 <= XR)%nat -> (2 <= YR)%nat ->
  post (retinal_neuron_2_pairs_run fuel XR YR) tape (valid_activation XR YR 4).
Proof.
  intros HXR HYR. unfold retinal_neuron_2_pairs_run. cbv zeta.
  apply post_bind, post_randint; [lia|]. intros y1 Hy1 t1.
  apply post_bind, post_randint; [lia|]. intros x1 Hx1 t2.
  apply post_bind. eapply post_conseq; [|apply post_adjacent_y; lia].
  intros y2 [Hy2 Hy] t3.
  apply post_bind. eapply post_conseq; [|apply post_adjacent_x; lia].
  intros x2 [Hx2 Hx] t4.
  set (RN1 := (y1 * Z.of_nat XR + x1)%Z).
  set (RN2 := (y2 * Z.of_nat XR + x2)%Z).
  assert (H12 : RN1 <> RN2).
  { unfold RN1, RN2. intros Heq. apply linear_index_inj in Heq; lia. }
  pose proof (linear_index_bounds _ _ _ _ Hy1 Hx1) as Hb1.
  pose proof (linear_index_bounds _ _ _ _ Hy2 Hx2) as Hb2.
  fold RN1 in Hb1. fold RN2 in Hb2.
  apply post_bind.
  eapply post_conseq;
    [|apply (post_while (fun '(y3, x3, RN3) =>
                RN3 = RN1 \/
                ((0 <= y3 < Z.of_nat YR)%Z /\ (0 <= x3 < Z.of_nat XR)%Z /\
                 RN3 = (y3 * Z.of_nat XR + x3)%Z)))].
  2:{ left. reflexivity. }
  2:{ intros [[y3' x3'] RN3'] t _ _.
      apply post_bind, post_randint; [lia|]. intros y3 Hy3 t5.
      apply post_bind, post_randint; [lia|]. intros x3 Hx3 t6.
      apply post_ret. right. auto. }
  intros [[y3 x3] RN3] [Hinv Hc] t5.
  apply rejected_false in Hc as [H31 H32].
  destruct Hinv as [?|(Hy3 & Hx3 & HRN3)]; [contradiction|].
  pose proof (linear_index_bounds _ _ _ _ Hy3 Hx3) as Hb3. rewrite <- HRN3 in Hb3.
  apply post_bind.
  eapply post_conseq;
    [|apply (post_while (fun RN4 =>
                RN4 = RN1 \/
                ((0 <= RN4 < Z.of_nat XR * Z.of_nat YR)%Z /\ RN4 <> RN3)))].
  2:{ left. reflexivity. }
  2:{ intros RN4' t _ _.
      apply post_bind. eapply post_conseq; [|apply post_adjacent_y; lia].
      intros y4 [Hy4 Hy34] t7.
      apply post_bind. eapply post_conseq; [|apply post_adjacent_x; lia].
      intros x4 [Hx4 Hx34] t8.
      apply post_ret. right. split.
      - apply linear_index_bounds; assumption.
      - rewrite HRN3. intros Heq. apply linear_index_inj in Heq; lia. }
  intros RN4 [Hinv Hc] t6.
  apply rejected_false in Hc as [H41 H42].
  destruct Hinv as [?|[Hb4 H43]]; [contradiction|].
  apply post_ret. split; [reflexivity|]. split.
  - apply NoDup_4; congruence.
  - repeat constructor; lia.
Qed.

(** *** Rules for [returns_within] *)

Lemma rnd_bind_Ret {A B : Type} (m : rnd A) (f : A -> rnd B) (tape t : list nat)
    (a : A) :
  m tape = Ret (a, t) -> (m ≫= f) tape = f a t.
Proof.
  intros Hm. change ((m ≫= f) tape) with (rnd_bind _ _ f m tape).
  unfold rnd_bind. rewrite Hm. reflexivity.
Qed.

Lemma rnd_bind_OutOfFuel {A B : Type} (m : rnd A) (f : A -> rnd B)
    (tape : list nat) :
  m tape = OutOfFuel -> (m ≫= f) tape = OutOfFuel.
Proof.
  intros Hm. change ((m ≫= f) tape) with (rnd_bind _ _ f m tape).
  unfold rnd_bind. rewrite Hm. reflexivity.
Qed.

Lemma rnd_bind_Raise {A B : Type} (m : rnd A) (f : A -> rnd B)
    (tape : list nat) (e : exn) :
  m tape = Raise e -> (m ≫= f) tape = Raise e.
Proof.
  intros Hm. change ((m ≫= f) tape) with (rnd_bind _ _ f m tape).
  unfold rnd_bind. rewrite Hm. reflexivity.
Qed.

Lemma returns_within_ret {A : Type} (a : A) : returns_within 0 (mret a).
Proof. intros tape _. exists a, tape. split; [reflexivity | lia]. Qed.

Lemma returns_within_bind {A B : Type} (k1 k2 : nat) (m : rnd A) (f : A -> rnd B) :
  returns_within k1 m -> (forall a, returns_within k2 (f a)) ->
  returns_within (k1 + k2) (m ≫= f).
Proof.
  intros Hm Hf tape Hlen.
  destruct (Hm tape) as (a & t & Hrun & Ht); [lia|].
  destruct (Hf a t) as (b & t' & Hrun' & Ht'); [lia|].
  exists b, t'. split; [|lia].
  rewrite (rnd_bind_Ret _ _ _ _ _ Hrun). exact Hrun'.
Qed.

Lemma returns_within_weaken {A : Type} (k k' : nat) (m : rnd A) :
  (k <= k')%nat -> returns_within k m -> returns_within k' m.
Proof.
  intros Hk Hm tape Hlen.
  destruct (Hm tape) as (a & t & Hrun & Ht); [lia|].
  exists a, t. split; [exact Hrun | lia].
Qed.

Lemma returns_within_randint (n : Z) : (0 < n)%Z -> returns_within 1 (randint n).
Proof.
  intros Hn tape Hlen. unfold randint.
  destruct (decide (n <= 0)%Z); [lia|].
  destruct tape as [|r tape]; [simpl in Hlen; lia|].
  eexists _, tape. split; [reflexivity | simpl; lia].
Qed.

Lemma returns_within_choice (l : list Z) : l <> [] -> returns_within 1 (choice l).
Proof.
  intros Hl tape Hlen. unfold choice.
  destruct l as [|d l]; [congruence|].
  destruct tape as [|r tape]; [simpl in Hlen; lia|].
  eexists _, tape. split; [reflexivity | simpl; lia].
Qed.

Lemma returns_within_adjacent_y (YR y1 : Z) : returns_within 1 (adjacent_y YR y1).
Proof.
  unfold adjacent_y.
  destruct (decide (y1 = 0)%Z); [|destruct (decide (y1 = YR - 1)%Z)];
    apply returns_within_choice; discriminate.
Qed.

Lemma returns_within_adjacent_x (XR x1 y1 y2 : Z) :
  returns_within 1 (adjacent_x XR x1 y1 y2).
Proof.
  unfold adjacent_x.
  destruct (decide (y2 = y1)).
  - destruct (decide (x1 = 0)%Z); [|destruct (decide (x1 = XR - 1)%Z)].
    + apply (returns_within_weaken 0); [lia | apply returns_within_ret].
    + apply (returns_within_weaken 0); [lia | apply returns_within_ret].
    + apply returns_within_choice; discriminate.
  - apply (returns_within_weaken 0); [lia | apply returns_within_ret].
Qed.

Lemma returns_within_retinal_neuron_pairs (XR YR : nat) :
  (2 <= XR)%nat -> (2 <= YR)%nat ->
  returns_within 4 (retinal_neuron_pairs XR YR).
Proof.
  intros HXR HYR. unfold retinal_neuron_pairs. cbv zeta.
  apply (returns_within_bind 1 3); [apply returns_within_randint; lia|].
  intros y1.
  apply (returns_within_bind 1 2); [apply returns_within_randint; lia|].
  intros x1.
  apply (returns_within_bind 1 1); [apply returns_within_adjacent_y|].
  intros y2.
  apply (returns_within_bind 1 0); [apply returns_within_adjacent_x|].
  intros x2. apply returns_within_ret.
Qed.

Lemma returns_within_retinal_neuron_squares (XR YR : nat) :
  (2 <= XR)%nat -> (2 <= YR)%nat ->
  returns_within 4 (retinal_neuron_squares XR YR).
Proof.
  intros HXR HYR. unfold retinal_neuron_squares. cbv zeta.
  apply (returns_within_bind 1 3); [apply returns_within_randint; lia|].
  intros y1.
  apply (returns_within_bind 1 2); [apply returns_within_randint; lia|].
  intros x1.
  apply (returns_within_bind 1 1).
  { destruct (decide (y1 = 0)%Z); [|destruct (decide (y1 = Z.of_nat YR - 1)%Z)].
    - apply (returns_within_weaken 0); [lia | apply returns_within_ret].
    - apply (returns_within_weaken 0); [lia | apply returns_within_ret].
    - apply returns_within_choice; discriminate. }
  intros y2.
  apply (returns_within_bind 1 0).
  { destruct (decide (x1 = 0)%Z); [|destruct (decide (x1 = Z.of_nat XR - 1)%Z)].
    - apply (returns_within_weaken 0); [lia | apply returns_within_ret].
    - apply (returns_within_weaken 0); [lia | apply returns_within_ret].
    - apply returns_within_choice; discriminate. }
  intros x3. apply returns_within_ret.
Qed.

(** *** Rules for [regular] *)

Lemma rnd_bind_inv_Ret {A B : Type} (m : rnd A) (f : A -> rnd B)
    (tape t' : list nat) (b : B) :
  (m ≫= f) tape = Ret (b, t') ->
  exists a t, m tape = Ret (a, t) /\ f a t = Ret (b, t').
Proof.
  change ((m ≫= f) tape) with (rnd_bind _ _ f m tape). unfold rnd_bind.
  destruct (m tape) as [[a t]| |]; [|discriminate|discriminate].
  intros Hf. exists a, t. auto.
Qed.

Lemma regular_ret {A : Type} (a : A) : regular (mret a).
Proof.
  intros tape a' t [= <- <-]. split; [lia|]. intros ext. reflexivity.
Qed.

Lemma regular_randint (n : Z) : regular (randint n).
Proof.
  intros tape a t. unfold randint.
  destruct (decide (n <= 0)%Z); [discriminate|].
  destruct tape as [|r tape]; [discriminate|].
  intros [= <- <-]. split; [simpl; lia|]. intros ext. reflexivity.
Qed.

Lemma regular_choice (l : list Z) : regular (choice l).
Proof.
  intros tape a t. unfold choice.
  destruct l as [|d l]; [discriminate|].
  destruct tape as [|r tape]; [discriminate|].
  intros [= <- <-]. split; [simpl; lia|]. intros ext. reflexivity.
Qed.

Lemma regular_bind {A B : Type} (m : rnd A) (f : A -> rnd B) :
  regular m -> (forall a, regular (f a)) -> regular (m ≫= f).
Proof.
  intros Hm Hf tape b t' (a & t & Hrun & Hrun')%rnd_bind_inv_Ret.
  destruct (Hm _ _ _ Hrun) as [Hlen Hext].
  destruct (Hf a _ _ _ Hrun') as [Hlen' Hext'].
  split; [lia|]. intros ext.
  rewrite (rnd_bind_Ret _ _ _ _ _ (Hext ext)). apply Hext'.
Qed.

Lemma regular_adjacent_y (YR y1 : Z) : regular (adjacent_y YR y1).
Proof.
  unfold adjacent_y.
  destruct (decide (y1 = 0)%Z); [|destruct (decide (y1 = YR - 1)%Z)];
    apply regular_choice.
Qed.

Lemma regular_adjacent_x (XR x1 y1 y2 : Z) : regular (adjacent_x XR x1 y1 y2).
Proof.
  unfold adjacent_x.
  destruct (decide (y2 = y1)); [|apply regular_ret].
  destruct (decide (x1 = 0)%Z); [apply regular_ret|].
  destruct (decide (x1 = XR - 1)%Z); [apply regular_ret | apply regular_choice].
Qed.

(** Straight-line code made of draws is regular. *)
Ltac solve_regular :=
  repeat first
    [ apply regular_ret | apply regular_randint | apply regular_choice
    | apply regular_adjacent_y | apply regular_adjacent_x
    | apply regular_bind | intro ].

Lemma fregular_const {A : Type} (m : rnd A) : regular m -> fregular (fun _ => m).
Proof.
  intros Hm fuel tape a t Hrun. destruct (Hm _ _ _ Hrun) as [Hlen Hext].
  split; [exact Hlen|]. intros ext fuel' _. apply Hext.
Qed.

Lemma fregular_bind {A B : Type} (m : nat -> rnd A) (f : A -> nat -> rnd B) :
  fregular m -> (forall a, fregular (f a)) ->
  fregular (fun fuel => m fuel ≫= fun a => f a fuel).
Proof.
  intros Hm Hf fuel tape b t' (a & t & Hrun & Hrun')%rnd_bind_inv_Ret.
  destruct (Hm _ _ _ _ Hrun) as [Hlen Hext].
  destruct (Hf a _ _ _ _ Hrun') as [Hlen' Hext'].
  split; [lia|]. intros ext fuel' Hfuel.
  rewrite (rnd_bind_Ret _ _ _ _ _ (Hext ext fuel' Hfuel)). apply Hext', Hfuel.
Qed.

Lemma fregular_while {S : Type} (cond : S -> bool) (body : S -> rnd S) (s : S) :
  (forall s0, regular (body s0)) ->
  fregular (fun fuel => while_loop fuel cond body s).
Proof.
  intros Hbody fuel. revert s.
  induction fuel as [|fuel IH]; intros s tape s' t; [discriminate|].
  simpl. destruct (cond s) eqn:Hc.
  - intros (s1 & t1 & Hrun & Hrun')%rnd_bind_inv_Ret.
    destruct (Hbody s _ _ _ Hrun) as [Hlen Hext].
    destruct (IH s1 _ _ _ Hrun') as [Hlen' Hext'].
    split; [lia|]. intros ext [|fuel'] Hfuel; [lia|].
    simpl. rewrite Hc.
    rewrite (rnd_bind_Ret _ _ _ _ _ (Hext ext)). apply Hext'. lia.
  - intros [= <- <-]. split; [lia|]. intros ext [|fuel'] Hfuel; [lia|].
    simpl. rewrite Hc. reflexivity.
Qed.

(** *** Rules for [completable] *)

Lemma completable_const {A : Type} (k : nat) (m : rnd A) (Q : A -> Prop) :
  returns_within k m -> (forall tape, post m tape Q) ->
  completable (fun _ => m) Q.
Proof.
  intros Hret Hpost tape.
  destruct (Hret (tape ++ replicate k 0%nat)) as (a & t & Hrun & _).
  { rewrite length_app, length_replicate. lia. }
  exists (replicate k 0%nat), a, t. split.
  - specialize (Hpost (tape ++ replicate k 0%nat)). unfold post in Hpost.
    rewrite Hrun in Hpost. exact Hpost.
  - intros fuel _. exact Hrun.
Qed.

Lemma completable_bind {A B : Type} (m : nat -> rnd A) (f : A -> nat -> rnd B)
    (Q : A -> Prop) (Q' : B -> Prop) :
  fregular m -> completable m Q ->
  (forall a, Q a -> completable (f a) Q') ->
  completable (fun fuel => m fuel ≫= fun a => f a fuel) Q'.
Proof.
  intros Hreg Hm Hf tape.
  destruct (Hm tape) as (ext1 & a & t1 & HQ & Hrun).
  destruct (Hf a HQ t1) as (ext2 & b & t2 & HQ' & Hrun').
  exists (ext1 ++ ext2), b, t2. split; [exact HQ'|].
  intros fuel Hfuel. rewrite length_app, length_app in Hfuel.
  destruct (Hreg _ _ _ _ (Hrun (Datatypes.S (length (tape ++ ext1))) ltac:(lia)))
    as [Hlen Hext].
  rewrite length_app in Hlen.
  rewrite app_assoc.
  rewrite (rnd_bind_Ret _ _ _ _ _
             (Hext ext2 fuel ltac:(rewrite length_app; lia))).
  apply Hrun'. rewrite length_app. lia.
Qed.

Lemma post_Ret {A : Type} (m : rnd A) (tape t : list nat) (a : A) (Q : A -> Prop) :
  post m tape Q -> m tape = Ret (a, t) -> Q a.
Proof. unfold post. intros Hpost Hrun. rewrite Hrun in Hpost. exact Hpost. Qed.

(** A rejection loop can always be completed when its body keeps the
    invariant, draws at least once, can finish an iteration that the end
    of the tape interrupted, and can be accepted from an empty tape. *)
Lemma completable_while {S : Type} (Inv : S -> Prop) (cond : S -> bool)
    (body : S -> rnd S) (s : S) :
  (forall s0, regular (body s0)) ->
  (forall s0 t, Inv s0 -> cond s0 = true -> post (body s0) t Inv) ->
  (forall s0 tape a t, body s0 tape = Ret (a, t) ->
     (length t < length tape)%nat) ->
  (forall s0 tape, Inv s0 -> cond s0 = true -> body s0 tape = OutOfFuel ->
     exists ext s1, body s0 (tape ++ ext) = Ret (s1, [])) ->
  (forall s0, Inv s0 -> cond s0 = true ->
     exists ext s1, body s0 ext = Ret (s1, []) /\ cond s1 = false) ->
  Inv s ->
  completable (fun fuel => while_loop fuel cond body s)
    (fun s' => Inv s' /\ cond s' = false).
Proof.
  intros Hreg Hinv Hdraw Hfinish Hexit Hs tape.
  remember (length tape) as n eqn:Hn.
  assert (Hle : (length tape <= n)%nat) by lia. clear Hn.
  revert tape s Hs Hle.
  induction n as [|n IH]; intros tape s Hs Hle.
  - (* the tape is empty *)
    destruct tape as [|r tape]; [|simpl in Hle; lia].
    destruct (cond s) eqn:Hc.
    + destruct (Hexit s Hs Hc) as (ext & s1 & Hrun & Hc1).
      exists ext, s1, []. split.
      * split; [|exact Hc1]. exact (post_Ret _ _ _ _ _ (Hinv s ext Hs Hc) Hrun).
      * intros fuel Hfuel. simpl in *.
        pose proof (Hdraw _ _ _ _ Hrun) as Hlen. simpl in Hlen.
        destruct fuel as [|[|fuel]]; [lia | lia |].
        simpl. rewrite Hc. rewrite (rnd_bind_Ret _ _ _ _ _ Hrun).
        simpl. rewrite Hc1. reflexivity.
    + exists [], s, []. split; [auto|].
      intros [|fuel] Hfuel; [simpl in Hfuel; lia|]. simpl. rewrite Hc. reflexivity.
  - destruct (cond s) eqn:Hc.
    2:{ exists [], s, (tape ++ []). split; [auto|].
        intros [|fuel] Hfuel; [lia|]. simpl. rewrite Hc. reflexivity. }
    destruct (body s tape) as [[s1 t1]| |] eqn:Hrun.
    + pose proof (Hdraw _ _ _ _ Hrun) as Hlen.
      pose proof (post_Ret _ _ _ _ _ (Hinv s tape Hs Hc) Hrun) as Hs1.
      destruct (IH t1 s1 Hs1) as (ext & s' & t & HQ & Hloop); [lia|].
      exists ext, s', t. split; [exact HQ|].
      intros [|fuel] Hfuel; [lia|]. simpl. rewrite Hc.
      destruct (Hreg s _ _ _ Hrun) as [_ Hext].
      rewrite (rnd_bind_Ret _ _ _ _ _ (Hext ext)).
      apply Hloop. rewrite length_app in *. lia.
    + pose proof (Hinv s tape Hs Hc) as Hpost. unfold post in Hpost.
      rewrite Hrun in Hpost. destruct Hpost.
    + destruct (Hfinish s tape Hs Hc Hrun) as (ext1 & s1 & Hrun1).
      pose proof (Hdraw _ _ _ _ Hrun1) as Hlen1. simpl in Hlen1.
      pose proof (post_Ret _ _ _ _ _ (Hinv s _ Hs Hc) Hrun1) as Hs1.
      destruct (cond s1) eqn:Hc1.
      * destruct (Hexit s1 Hs1 Hc1) as (ext2 & s2 & Hrun2 & Hc2).
        pose proof (Hdraw _ _ _ _ Hrun2) as Hlen2. simpl in Hlen2.
        exists (ext1 ++ ext2), s2, []. split.
        { split; [|exact Hc2].
          exact (post_Ret _ _ _ _ _ (Hinv s1 ext2 Hs1 Hc1) Hrun2). }
        intros fuel Hfuel. rewrite app_assoc in *.
        rewrite length_app in Hfuel.
        destruct fuel as [|[|[|fuel]]]; [lia | lia | lia |].
        simpl. rewrite Hc.
        destruct (Hreg s _ _ _ Hrun1) as [_ Hext].
        rewrite (rnd_bind_Ret _ _ _ _ _ (Hext ext2)). simpl. rewrite Hc1.
        rewrite (rnd_bind_Ret _ _ _ _ _ Hrun2). simpl. rewrite Hc2. reflexivity.
      * exists ext1, s1, []. split; [auto|].
        intros fuel Hfuel.
        destruct fuel as [|[|fuel]]; [lia | lia |].
        simpl. rewrite Hc. rewrite (rnd_bind_Ret _ _ _ _ _ Hrun1).
        simpl. rewrite Hc1. reflexivity.
Qed.

(** *** The rejection loops of the two-pairs pattern can exit *)

Lemma randint_cons (n : Z) (r : nat) (t : list nat) :
  (0 < n)%Z -> randint n (r :: t) = Ret ((Z.of_nat r mod n)%Z, t).
Proof.
  intros Hn. unfold randint. destruct (decide (n <= 0)%Z); [lia | reflexivity].
Qed.

Lemma randint_nil (n : Z) : (0 < n)%Z -> randint n [] = OutOfFuel.
Proof.
  intros Hn. unfold randint. destruct (decide (n <= 0)%Z); [lia | reflexivity].
Qed.

Lemma draws_bind {A B : Type} (m : rnd A) (f : A -> rnd B) :
  (forall tape a t, m tape = Ret (a, t) -> (length t < length tape)%nat) ->
  (forall a, regular (f a)) ->
  forall tape b t', (m ≫= f) tape = Ret (b, t') -> (length t' < length tape)%nat.
Proof.
  intros Hm Hf tape b t' (a & t & Hrun & Hrun')%rnd_bind_inv_Ret.
  pose proof (Hm _ _ _ Hrun). destruct (Hf a _ _ _ Hrun') as [Hlen _]. lia.
Qed.

Lemma draws_randint (n : Z) (tape : list nat) (a : Z) (t : list nat) :
  randint n tape = Ret (a, t) -> (length t < length tape)%nat.
Proof.
  unfold randint. destruct (decide (n <= 0)%Z); [discriminate|].
  destruct tape as [|r tape]; [discriminate|].
  intros [= <- <-]. simpl. lia.
Qed.

Lemma draws_choice (l : list Z) (tape : list nat) (a : Z) (t : list nat) :
  choice l tape = Ret (a, t) -> (length t < length tape)%nat.
Proof.
  unfold choice. destruct l as [|d l]; [discriminate|].
  destruct tape as [|r tape]; [discriminate|].
  intros [= <- <-]. simpl. lia.
Qed.

Lemma draws_adjacent_y (YR y1 : Z) (tape : list nat) (a : Z) (t : list nat) :
  adjacent_y YR y1 tape = Ret (a, t) -> (length t < length tape)%nat.
Proof.
  unfold adjacent_y.
  destruct (decide (y1 = 0)%Z); [|destruct (decide (y1 = YR - 1)%Z)];
    apply draws_choice.
Qed.

Lemma adjacent_y_nil (YR y1 : Z) : adjacent_y YR y1 [] = OutOfFuel.
Proof.
  unfold adjacent_y.
  destruct (decide (y1 = 0)%Z); [|destruct (decide (y1 = YR - 1)%Z)]; reflexivity.
Qed.

Lemma adjacent_y_cons (YR y1 : Z) (r : nat) (t : list nat) :
  exists y2, adjacent_y YR y1 (r :: t) = Ret (y2, t).
Proof.
  unfold adjacent_y.
  destruct (decide (y1 = 0)%Z); [|destruct (decide (y1 = YR - 1)%Z)];
    eexists; reflexivity.
Qed.

(** A draw that keeps the row, and a draw that changes it. *)
Lemma adjacent_y_can_stay (YR y : Z) :
  exists r, forall t, adjacent_y YR y (r :: t) = Ret (y, t).
Proof.
  unfold adjacent_y.
  destruct (decide (y = 0)%Z); [|destruct (decide (y = YR - 1)%Z)].
  - exists 0%nat. reflexivity.
  - exists 0%nat. reflexivity.
  - exists 1%nat. reflexivity.
Qed.

Lemma adjacent_y_can_move (YR y : Z) :
  exists r y', (forall t, adjacent_y YR y (r :: t) = Ret (y', t)) /\
               (y' = y + 1 \/ y' = y - 1)%Z /\
               ((2 <= YR)%Z -> (0 <= y < YR)%Z -> (0 <= y' < YR)%Z).
Proof.
  unfold adjacent_y.
  destruct (decide (y = 0)%Z); [|destruct (decide (y = YR - 1)%Z)].
  - exists 1%nat, (y + 1)%Z. split; [reflexivity | lia].
  - exists 1%nat, (y - 1)%Z. split; [reflexivity | lia].
  - exists 0%nat, (y - 1)%Z. split; [reflexivity | lia].
Qed.

Lemma adjacent_x_other_row (XR x y y' : Z) (t : list nat) :
  y' <> y -> adjacent_x XR x y y' t = Ret (x, t).
Proof.
  intros Hne. unfold adjacent_x.
  destruct (decide (y' = y)); [contradiction | reflexivity].
Qed.

Lemma adjacent_x_can_move (XR x y : Z) :
  exists ext x', adjacent_x XR x y y ext = Ret (x', []) /\
                 (x' = x + 1 \/ x' = x - 1)%Z /\
                 ((2 <= XR)%Z -> (0 <= x < XR)%Z -> (0 <= x' < XR)%Z).
Proof.
  unfold adjacent_x. destruct (decide (y = y)); [|congruence].
  destruct (decide (x = 0)%Z); [|destruct (decide (x = XR - 1)%Z)].
  - exists [], (x + 1)%Z. split; [reflexivity | lia].
  - exists [], (x - 1)%Z. split; [reflexivity | lia].
  - exists [0%nat], (x - 1)%Z. split; [reflexivity | lia].
Qed.

(** An iteration interrupted after the row was drawn can be finished. *)
Lemma adjacent_x_finish (XR x y y' : Z) :
  adjacent_x XR x y y' [] = OutOfFuel ->
  exists x', adjacent_x XR x y y' [0%nat] = Ret (x', []).
Proof.
  unfold adjacent_x.
  destruct (decide (y' = y)); [|discriminate].
  destruct (decide (x = 0)%Z); [discriminate|].
  destruct (decide (x = XR - 1)%Z); [discriminate|].
  intros _. eexists. reflexivity.
Qed.

(** Among the neurons (0, 0), (0, 1) and (1, 0), one is neither of two
    given neurons: the first loop can accept a draw. *)
Lemma third_neuron_exit (XR YR RN1 RN2 : Z) :
  (2 <= XR)%Z -> (2 <= YR)%Z ->
  exists ext y3 x3,
    (y3' ← randint YR; x3' ← randint XR;
     mret (y3', x3', (y3' * XR + x3')%Z)) ext
      = Ret ((y3, x3, (y3 * XR + x3)%Z), []) /\
    (y3 * XR + x3)%Z <> RN1 /\ (y3 * XR + x3)%Z <> RN2.
Proof.
  intros HXR HYR.
  assert (Hrun : forall a b : nat,
            (Z.of_nat a < YR)%Z -> (Z.of_nat b < XR)%Z ->
            (y3' ← randint YR; x3' ← randint XR;
             mret (y3', x3', (y3' * XR + x3')%Z)) [a; b]
            = Ret ((Z.of_nat a, Z.of_nat b, (Z.of_nat a * XR + Z.of_nat b)%Z), [])).
  { intros a b Ha Hb.
    rewrite (rnd_bind_Ret _ _ _ _ _ (randint_cons YR a [b] ltac:(lia))).
    rewrite (rnd_bind_Ret _ _ _ _ _ (randint_cons XR b [] ltac:(lia))).
    rewrite !Z.mod_small by lia. reflexivity. }
  destruct (decide (0 = RN1 \/ 0 = RN2)%Z) as [H0|H0].
  - destruct (decide (1 = RN1 \/ 1 = RN2)%Z) as [H1|H1].
    + exists [1; 0]%nat, 1%Z, 0%Z. split; [apply (Hrun 1 0)%nat; lia | lia].
    + exists [0; 1]%nat, 0%Z, 1%Z. split; [apply (Hrun 0 1)%nat; lia | lia].
  - exists [0; 0]%nat, 0%Z, 0%Z. split; [apply (Hrun 0 0)%nat; lia | lia].
Qed.

(** A neuron has a vertical and a horizontal neighbour; they differ in
    both coordinates, the two neurons of an adjacent pair in one only, so
    that one of the two neighbours is outside of the pair: the second
    loop can accept a draw. *)
Lemma fourth_neuron_exit (XR YR y1 x1 y2 x2 y3 x3 : Z) :
  (2 <= XR)%Z -> (2 <= YR)%Z ->
  (0 <= x1 < XR)%Z -> (0 <= x2 < XR)%Z ->
  (0 <= y3 < YR)%Z -> (0 <= x3 < XR)%Z ->
  (y2 = y1 /\ (x2 = x1 + 1 \/ x2 = x1 - 1)%Z) \/ (y2 <> y1 /\ x2 = x1) ->
  exists ext RN4,
    (y4 ← adjacent_y YR y3; x4 ← adjacent_x XR x3 y3 y4;
     mret (y4 * XR + x4)%Z) ext = Ret (RN4, []) /\
    RN4 <> (y1 * XR + x1)%Z /\ RN4 <> (y2 * XR + x2)%Z.
Proof.
  intros HXR HYR Hx1 Hx2 Hy3 Hx3 Hadj.
  destruct (adjacent_y_can_move YR y3) as (rA & ya & HA & Hya & Hyab).
  destruct (adjacent_y_can_stay YR y3) as (rB & HB).
  destruct (adjacent_x_can_move XR x3 y3) as (extB & xb & HxB & Hxb & Hxbb).
  specialize (Hyab HYR Hy3). specialize (Hxbb HXR Hx3).
  destruct (decide ((ya * XR + x3 = y1 * XR + x1)%Z \/
                    (ya * XR + x3 = y2 * XR + x2)%Z)) as [HAin|HAout].
  - exists (rB :: extB), (y3 * XR + xb)%Z. split.
    + rewrite (rnd_bind_Ret _ _ _ _ _ (HB extB)).
      rewrite (rnd_bind_Ret _ _ _ _ _ HxB). reflexivity.
    + split; intros HBin;
        apply linear_index_inj in HBin; try lia;
        destruct HAin as [HAin|HAin];
        apply linear_index_inj in HAin; lia.
  - exists [rA], (ya * XR + x3)%Z. split.
    + rewrite (rnd_bind_Ret _ _ _ _ _ (HA [])).
      rewrite (rnd_bind_Ret _ _ _ _ _
                 (adjacent_x_other_row XR x3 y3 ya [] ltac:(lia))).
      reflexivity.
    + split; intros Heq; apply HAout; auto.
Qed.

Lemma completable_retinal_neuron_2_pairs_run (XR YR : nat) :
  (2 <= XR)%nat -> (2 <= YR)%nat ->
  completable (fun fuel => retinal_neuron_2_pairs_run fuel XR YR)
    (fun _ => True).
Proof.
  intros HXR HYR. unfold retinal_neuron_2_pairs_run. cbv zeta.
  eapply completable_bind with (Q := fun y1 => (0 <= y1 < Z.of_nat YR)%Z).
  { apply fregular_const, regular_randint. }
  { apply (completable_const 1); [apply returns_within_randint; lia|].
    intros tape. apply post_randint; [lia | auto]. }
  intros y1 Hy1.
  eapply completable_bind with (Q := fun x1 => (0 <= x1 < Z.of_nat XR)%Z).
  { apply fregular_const, regular_randint. }
  { apply (completable_const 1); [apply returns_within_randint; lia|].
    intros tape. apply post_randint; [lia | auto]. }
  intros x1 Hx1.
  eapply completable_bind.
  { apply fregular_const, regular_adjacent_y. }
  { apply (completable_const 1); [apply returns_within_adjacent_y|].
    intros tape. apply post_adjacent_y; [lia | exact Hy1]. }
  intros y2 [Hy2 Hy].
  eapply completable_bind.
  { apply fregular_const, regular_adjacent_x. }
  { apply (completable_const 1); [apply returns_within_adjacent_x|].
    intros tape. apply post_adjacent_x; [lia | exact Hx1]. }
  intros x2 [Hx2 Hx].
  set (RN1 := (y1 * Z.of_nat XR + x1)%Z).
  set (RN2 := (y2 * Z.of_nat XR + x2)%Z).
  eapply completable_bind.
  { apply fregular_while. intros _.
    solve_regular. }
  { apply (completable_while
             (fun '(y3, x3, RN3) =>
                RN3 = RN1 \/
                ((0 <= y3 < Z.of_nat YR)%Z /\ (0 <= x3 < Z.of_nat XR)%Z /\
                 RN3 = (y3 * Z.of_nat XR + x3)%Z))).
    - intros _.
      solve_regular.
    - intros [[y3' x3'] RN3'] t _ _.
      apply post_bind, post_randint; [lia|]. intros y3 Hy3 t5.
      apply post_bind, post_randint; [lia|]. intros x3 Hx3 t6.
      apply post_ret. right. auto.
    - intros _. apply draws_bind; [apply draws_randint|]. intros y3.
      apply regular_bind; [apply regular_randint|]. intros x3.
      apply regular_ret.
    - intros _ [|r [|r' tape]] _ _ Hrun.
      + exists [0; 0]%nat. eexists.
        rewrite (rnd_bind_Ret _ _ _ _ _
                   (randint_cons (Z.of_nat YR) 0 [0%nat] ltac:(lia))).
        rewrite (rnd_bind_Ret _ _ _ _ _
                   (randint_cons (Z.of_nat XR) 0 [] ltac:(lia))).
        reflexivity.
      + exists [0%nat]. eexists. simpl.
        rewrite (rnd_bind_Ret _ _ _ _ _
                   (randint_cons (Z.of_nat YR) r [0%nat] ltac:(lia))).
        rewrite (rnd_bind_Ret _ _ _ _ _
                   (randint_cons (Z.of_nat XR) 0 [] ltac:(lia))).
        reflexivity.
      + rewrite (rnd_bind_Ret _ _ _ _ _
                   (randint_cons (Z.of_nat YR) r (r' :: tape) ltac:(lia))) in Hrun.
        rewrite (rnd_bind_Ret _ _ _ _ _
                   (randint_cons (Z.of_nat XR) r' tape ltac:(lia))) in Hrun.
        discriminate Hrun.
    - intros _ _ _.
      destruct (third_neuron_exit (Z.of_nat XR) (Z.of_nat YR) RN1 RN2)
        as (ext & y3 & x3 & Hrun & H31 & H32); [lia | lia |].
      exists ext, (y3, x3, (y3 * Z.of_nat XR + x3)%Z). split; [exact Hrun|].
      apply orb_false_intro; apply bool_decide_eq_false; assumption.
    - left. reflexivity. }
  intros [[y3 x3] RN3] [Hinv Hc].
  apply rejected_false in Hc as [H31 H32].
  destruct Hinv as [?|(Hy3 & Hx3 & HRN3)]; [contradiction|].
  eapply completable_bind.
  { apply fregular_while. intros _.
    solve_regular. }
  { apply (completable_while (fun _ => True)).
    - intros _.
      solve_regular.
    - intros RN4' t _ _.
      apply post_bind. eapply post_conseq; [|apply post_adjacent_y; lia].
      intros y4 [Hy4 Hy34] t7.
      apply post_bind. eapply post_conseq; [|apply post_adjacent_x; lia].
      intros x4 [Hx4 Hx34] t8.
      apply post_ret. exact I.
    - intros _. apply draws_bind; [apply draws_adjacent_y|]. intros y4.
      apply regular_bind; [apply regular_adjacent_x|]. intros x4.
      apply regular_ret.
    - intros _ [|r [|r' tape]] _ _ Hrun.
      + destruct (adjacent_y_can_move (Z.of_nat YR) y3) as (rA & ya & HA & Hya & _).
        exists [rA]. eexists. simpl.
        rewrite (rnd_bind_Ret _ _ _ _ _ (HA [])).
        rewrite (rnd_bind_Ret _ _ _ _ _
                   (adjacent_x_other_row (Z.of_nat XR) x3 y3 ya [] ltac:(lia))).
        reflexivity.
      + destruct (adjacent_y_cons (Z.of_nat YR) y3 r []) as [y4 Hy4].
        rewrite (rnd_bind_Ret _ _ _ _ _ Hy4) in Hrun.
        destruct (adjacent_x (Z.of_nat XR) x3 y3 y4 []) as [[x4 t]| |] eqn:Hx4.
        * rewrite (rnd_bind_Ret _ _ _ _ _ Hx4) in Hrun. discriminate Hrun.
        * rewrite (rnd_bind_Raise _ _ _ _ Hx4) in Hrun. discriminate Hrun.
        * destruct (adjacent_x_finish _ _ _ _ Hx4) as [x4 Hx4'].
          destruct (adjacent_y_cons (Z.of_nat YR) y3 r [0%nat]) as [y4' Hy4'].
          exists [0%nat]. eexists. simpl.
          rewrite (rnd_bind_Ret _ _ _ _ _ Hy4').
          assert (y4' = y4).
          { destruct (regular_adjacent_y _ _ _ _ _ Hy4) as [_ Hext].
            specialize (Hext [0%nat]). simpl in Hext. congruence. }
          subst y4'. rewrite (rnd_bind_Ret _ _ _ _ _ Hx4'). reflexivity.
      + destruct (adjacent_y_cons (Z.of_nat YR) y3 r (r' :: tape)) as [y4 Hy4].
        rewrite (rnd_bind_Ret _ _ _ _ _ Hy4) in Hrun.
        destruct (returns_within_adjacent_x (Z.of_nat XR) x3 y3 y4 (r' :: tape))
          as (x4 & t & Hx4 & _); [simpl; lia|].
        rewrite (rnd_bind_Ret _ _ _ _ _ Hx4) in Hrun. discriminate Hrun.
    - intros _ _ _.
      destruct (fourth_neuron_exit (Z.of_nat XR) (Z.of_nat YR) y1 x1 y2 x2 y3 x3)
        as (ext & RN4 & Hrun & H41 & H42); try lia.
      exists ext, RN4. split; [exact Hrun|].
      apply orb_false_intro; apply bool_decide_eq_false; assumption.
    - exact I. }
  intros RN4 _.
  apply (completable_const 0); [apply returns_within_ret|].
  intros tape. apply post_ret. exact I.
Qed.

(** C7: on a retina of at least 2 columns and 2 rows, for every tape of
    random draws, [pairs] returns 2 indices and [squares] and [two_pairs]
    4 indices, pairwise distinct and within [0, XR * YR).  None of the
    three raises; [pairs] and [squares] return as soon as the tape holds
    4 draws; the rejection loops of [two_pairs] are only ever stopped by
    the end of the tape, and every tape has an extension on which they
    exit. *)
Theorem activation_sets_distinct_in_bounds (XR YR : nat) :
  (2 <= XR)%nat -> (2 <= YR)%nat ->
  (forall tape,
     match retinal_neuron_pairs XR YR tape with
     | Ret (l, _) => valid_activation XR YR 2 l
     | Raise _ => False
     | OutOfFuel => (length tape < 4)%nat
     end) /\
  (forall tape,
     match retinal_neuron_squares XR YR tape with
     | Ret (l, _) => valid_activation XR YR 4 l
     | Raise _ => False
     | OutOfFuel => (length tape < 4)%nat
     end) /\
  (forall tape,
     match retinal_neuron_2_pairs XR YR tape with
     | Ret (l, _) => valid_activation XR YR 4 l
     | Raise _ => False
     | OutOfFuel =>
         exists ext l t,
           retinal_neuron_2_pairs XR YR (tape ++ ext) = Ret (l, t)
     end).
Proof.
  intros HXR HYR. split; [|split]; intros tape.
  - pose proof (post_retinal_neuron_pairs XR YR tape HXR HYR) as Hpost.
    pose proof (returns_within_retinal_neuron_pairs XR YR HXR HYR tape) as Hret.
    unfold post in Hpost.
    destruct (retinal_neuron_pairs XR YR tape) as [[l t]| |]; try exact Hpost.
    destruct (le_lt_dec 4 (length tape)) as [Hlen|Hlen]; [|exact Hlen].
    destruct (Hret Hlen) as (a & t & Hrun & _). discriminate Hrun.
  - pose proof (post_retinal_neuron_squares XR YR tape HXR HYR) as Hpost.
    pose proof (returns_within_retinal_neuron_squares XR YR HXR HYR tape) as Hret.
    unfold post in Hpost.
    destruct (retinal_neuron_squares XR YR tape) as [[l t]| |]; try exact Hpost.
    destruct (le_lt_dec 4 (length tape)) as [Hlen|Hlen]; [|exact Hlen].
    destruct (Hret Hlen) as (a & t & Hrun & _). discriminate Hrun.
  - pose proof (post_retinal_neuron_2_pairs_run (Datatypes.S (length tape))
                  XR YR tape HXR HYR) as Hpost.
    unfold post in Hpost. unfold retinal_neuron_2_pairs at 1.
    destruct (retinal_neuron_2_pairs_run _ XR YR tape) as [[l t]| |];
      try exact Hpost.
    destruct (completable_retinal_neuron_2_pairs_run XR YR HXR HYR tape)
      as (ext & l & t & _ & Hrun).
    exists ext, l, t. unfold retinal_neuron_2_pairs. apply Hrun. lia.
Qed.

Lemma activation_sets_distinct_in_bounds_witness :
  (forall tape,
     match retinal_neuron_pairs 8 8 tape with
     | Ret (l, _) => valid_activation 8 8 2 l
     | Raise _ => False
     | OutOfFuel => (length tape < 4)%nat
     end) /\
  (forall tape,
     match retinal_neuron_squares 8 8 tape with
     | Ret (l, _) => valid_activation 8 8 4 l
     | Raise _ => False
     | OutOfFuel => (length tape < 4)%nat
     end) /\
  (forall tape,
     match retinal_neuron_2_pairs 8 8 tape with
     | Ret (l, _) => valid_activation 8 8 4 l
     | Raise _ => False
     | OutOfFuel =>
         exists ext l t,
           retinal_neuron_2_pairs 8 8 (tape ++ ext) = Ret (l, t)
     end).
Proof. apply (activation_sets_distinct_in_bounds 8 8); lia. Defined.

(** A run of each pattern on a retina of 8 by 8 neurons. *)
Example retinal_neuron_pairs_run :
  retinal_neuron_pairs 8 8 [3; 5; 1; 0]%nat = Ret ([29; 28]%Z, []).
Proof. reflexivity. Qed.

Example retinal_neuron_squares_run :
  retinal_neuron_squares 8 8 [0; 7; 1; 1]%nat
  = Ret ([7; 15; 6; 14]%Z, [1; 1]%nat).
Proof. reflexivity. Qed.

Example retinal_neuron_2_pairs_rejects :
  retinal_neuron_2_pairs 8 8 [0; 0; 1; 0; 0; 1; 0; 0; 1; 1]%nat
  = Ret ([0; 8; 1; 9]%Z, []).
Proof. reflexivity. Qed.

(** ** Square polarity markers with the default anchor *)

(** With the default anchor, on sheets of at least 2 by 2 neurons, the
    four synapses between the top-left retinal and tectal neurons of the
    same rank are multiplied by the strength factor, nothing else changes
    and no random number is drawn. *)
Lemma square_polarity_markers_default (s : matrix) (XR YR XT YT : nat)
    (PM_strength_increase : R) (tape : list nat) :
  (2 <= XR)%nat -> (2 <= YR)%nat -> (2 <= XT)%nat -> (2 <= YT)%nat ->
  shape s (XT * YT) (XR * YR) ->
  exists s',
    square_polarity_markers s true XR YR XT YT PM_strength_increase tape
      = Ret (s', tape) /\
    shape s' (XT * YT) (XR * YR) /\
    cells_updated (fun _ _ w => w * PM_strength_increase)
      [(0, 0); (1, 1); (Z.of_nat XT, Z.of_nat XR);
       (Z.of_nat XT + 1, Z.of_nat XR + 1)]%Z s s'.
Proof.
  intros HXR HYR HXT HYT Hshape.
  set (cells := [(0, 0); (1, 1); (Z.of_nat XT, Z.of_nat XR);
                 (Z.of_nat XT + 1, Z.of_nat XR + 1)]%Z).
  destruct (for_each_cells (fun _ _ w => w * PM_strength_increase)
              (fun p s0 => mmul s0 p.1 p.2 PM_strength_increase)
              cells (XT * YT) (XR * YR) s)
    as (s' & Hrun & Hsh & Hupd); [| exact Hshape | | |].
  - apply NoDup_4; intros [= ? ?]; lia.
  - intros y x Hin. apply list_elem_of_In in Hin. simpl in Hin.
    destruct Hin as [[= <- <-]|[[= <- <-]|[[= <- <-]|[[= <- <-]|[]]]]]; nia.
  - intros y x s0 w Hin Hw. simpl. unfold mmul.
    assert (0 <= y /\ 0 <= x)%Z as [Hy Hx].
    { apply list_elem_of_In in Hin. simpl in Hin.
      destruct Hin as [[= <- <-]|[[= <- <-]|[[= <- <-]|[[= <- <-]|[]]]]]; lia. }
    rewrite (mget_cell s0 y x w) by (lia || exact Hw). simpl.
    apply mset_cell with w; (lia || exact Hw).
  - exists s'. split; [|split; [exact Hsh | exact Hupd]].
    unfold square_polarity_markers, configure_retinal_polarity_markers,
      configure_tectal_polarity_markers.
    cbv [mbind mret rnd_bind rnd_ret]. cbv zeta.
    unfold increase_polarity_marker_synapse_strengths.
    simpl in Hrun.
    replace (0 * Z.of_nat XT + 0)%Z with 0%Z by lia.
    replace (0 * Z.of_nat XR + 0)%Z with 0%Z by lia.
    replace (0 * Z.of_nat XT + 1)%Z with 1%Z by lia.
    replace (0 * Z.of_nat XR + 1)%Z with 1%Z by lia.
    replace (1 * Z.of_nat XT + 0)%Z with (Z.of_nat XT) by lia.
    replace (1 * Z.of_nat XR + 0)%Z with (Z.of_nat XR) by lia.
    replace (1 * Z.of_nat XT + 1)%Z with (Z.of_nat XT + 1)%Z by lia.
    replace (1 * Z.of_nat XR + 1)%Z with (Z.of_nat XR + 1)%Z by lia.
    unfold lift.
    destruct (mmul s 0 0 PM_strength_increase) as [s1| |]; simpl in *;
      try discriminate Hrun.
    destruct (mmul s1 1 1 PM_strength_increase) as [s2| |]; simpl in *;
      try discriminate Hrun.
    destruct (mmul s2 (Z.of_nat XT) (Z.of_nat XR) PM_strength_increase)
      as [s3| |]; simpl in *; try discriminate Hrun.
    destruct (mmul s3 (Z.of_nat XT + 1) (Z.of_nat XR + 1) PM_strength_increase)
      as [s4| |]; simpl in *; try discriminate Hrun.
    injection Hrun as ->. reflexivity.
Qed.

(** * Further properties *)

(** ** Thresholding *)

(** X1: on a grid of the announced shape, [threshold] returns a grid of
    that shape whose entries are the excess of the activity over [theta]
    where there is one and 0 elsewhere; no entry of the result is
    negative. *)
Theorem threshold_entries (H_grid : matrix) (theta : R) (XT YT : nat) :
  shape H_grid YT XT ->
  exists H_star,
    threshold H_grid theta XT YT = Ret H_star /\
    shape H_star YT XT /\
    (forall y x v, mat_at H_grid y x = Some v ->
       mat_at H_star y x = Some (if decide (v > theta) then v - theta else 0)) /\
    (forall y x v, mat_at H_star y x = Some v -> 0 <= v).
Proof.
  intros Hshape. eexists. split; [apply threshold_grid, Hshape|].
  split; [apply shape_fmap, Hshape|]. split.
  - intros y x v Hv. rewrite mat_at_fmap, Hv. reflexivity.
  - intros y x v. rewrite mat_at_fmap.
    destruct (mat_at H_grid y x) as [w|]; [|discriminate].
    intros [= <-]. unfold thresholded. destruct (decide (w > theta)); lra.
Qed.

Lemma threshold_entries_witness :
  exists H_star,
    threshold [[12; 3]] 10 2 1 = Ret H_star /\
    shape H_star 1 2 /\
    (forall y x v, mat_at [[12; 3]] y x = Some v ->
       mat_at H_star y x = Some (if decide (v > 10) then v - 10 else 0)) /\
    (forall y x v, mat_at H_star y x = Some v -> 0 <= v).
Proof.
  apply (threshold_entries [[12; 3]] 10 2 1).
  split; [reflexivity | repeat constructor].
Defined.

(** A loop raises when each of its steps returns or raises [e], keeping
    an invariant, and one of them raises [e] from every state. *)
Lemma for_each_raises {A S : Type} (Inv : S -> Prop) (e : exn) (l : list A)
    (body : A -> S -> res S) (s : S) :
  Inv s ->
  (forall a s0, a ∈ l -> Inv s0 ->
     body a s0 = Raise e \/ exists s1, body a s0 = Ret s1 /\ Inv s1) ->
  (exists a, a ∈ l /\ forall s0, Inv s0 -> body a s0 = Raise e) ->
  for_each l body s = Raise e.
Proof.
  revert s. induction l as [|a l IH]; intros s Hs Hstep (bad & Hbad & Hraise).
  - apply elem_of_nil in Hbad. destruct Hbad.
  - simpl. destruct (Hstep a s) as [Hr|(s1 & Hr & Hs1)];
      [apply list_elem_of_here | exact Hs | |]; rewrite Hr; simpl.
    + reflexivity.
    + apply IH; [exact Hs1 | |].
      * intros b s0 Hb. apply Hstep, list_elem_of_further, Hb.
      * exists bad. split; [|exact Hraise].
        apply elem_of_cons in Hbad as [->|Hbad]; [|exact Hbad].
        rewrite (Hraise s Hs) in Hr. discriminate Hr.
Qed.

Lemma mget_missing (s : matrix) (y x : Z) :
  (0 <= y)%Z -> (0 <= x)%Z ->
  mat_at s (Z.to_nat y) (Z.to_nat x) = None ->
  mget s y x = Raise IndexError.
Proof.
  intros Hy Hx Hnone. unfold mget, np_index.
  destruct (decide (0 <= y < Z.of_nat (length s))%Z) as [Hin|Hout]; simpl.
  - destruct (s !! Z.to_nat y) as [row|] eqn:Hrow; [|reflexivity].
    unfold mat_at in Hnone. rewrite Hrow in Hnone. simpl in Hnone.
    destruct (decide (0 <= x < Z.of_nat (length row))%Z) as [Hxin|Hxout]; simpl.
    + rewrite Hnone. reflexivity.
    + rewrite decide_False by lia. reflexivity.
  - rewrite decide_False by lia. reflexivity.
Qed.

Lemma same_cells_cell_set (s : matrix) (y x : nat) (v : R) :
  is_Some (mat_at s y x) -> same_cells s (cell_set s y x v).
Proof.
  intros Hsome y' x'. rewrite mat_at_cell_set by exact Hsome.
  destruct (decide (y' = y /\ x' = x)) as [[-> ->]|]; [|reflexivity].
  split; [intros _; exact Hsome | intros _; eexists; reflexivity].
Qed.

Lemma threshold_missing_cell (H_grid : matrix) (theta : R) (XT YT j i : nat) :
  (j < YT)%nat -> (i < XT)%nat -> mat_at H_grid j i = None ->
  threshold H_grid theta XT YT = Raise IndexError.
Proof.
  intros Hj Hi Hnone. unfold threshold.
  rewrite (for_each_nested (range YT) (fun _ => range XT)).
  apply (for_each_raises (same_cells H_grid)).
  - intros y x. reflexivity.
  - intros [y x] s0 [Hy%elem_of_range Hx%elem_of_range]%elem_of_cells Hinv.
    simpl. destruct (mat_at s0 (Z.to_nat y) (Z.to_nat x)) as [w|] eqn:Hw.
    + right. rewrite (mget_cell s0 y x w) by (lia || exact Hw). simpl.
      exists (cell_set s0 (Z.to_nat y) (Z.to_nat x) (thresholded theta w)).
      split.
      * unfold thresholded.
        destruct (decide (w > theta)); apply mset_cell with w; (lia || exact Hw).
      * intros y' x'.
        rewrite (same_cells_cell_set s0 _ _ _ ltac:(exists w; exact Hw) y' x').
        apply Hinv.
    + left. rewrite (mget_missing s0 y x) by (lia || exact Hw). reflexivity.
  - exists (Z.of_nat j, Z.of_nat i). split.
    + apply elem_of_cells. split; apply elem_of_range; lia.
    + intros s0 Hinv. simpl.
      assert (Hs0 : mat_at s0 j i = None).
      { destruct (mat_at s0 j i) as [v|] eqn:Hs0; [|reflexivity].
        destruct (proj1 (Hinv j i) ltac:(exists v; exact Hs0)) as [w Hw].
        congruence. }
      rewrite (mget_missing s0) by (lia || (rewrite !Nat2Z.id; exact Hs0)).
      reflexivity.
Qed.

(** X2: when a cell of the announced shape is missing from the grid,
    [threshold] raises [IndexError]. *)
Theorem threshold_small_grid (H_grid : matrix) (theta : R) (XT YT j i : nat) :
  (j < YT)%nat -> (i < XT)%nat -> mat_at H_grid j i = None ->
  threshold H_grid theta XT YT = Raise IndexError.
Proof. apply threshold_missing_cell. Qed.

Lemma threshold_small_grid_witness :
  threshold [[12; 3]] 10 3 1 = Raise IndexError.
Proof. apply (threshold_small_grid [[12; 3]] 10 3 1 0 2); (lia || reflexivity). Defined.

(** ** The interaction kernel *)

(** X3: the kernel of the lateral interactions holds [beta] at Manhattan
    distance 1 of its centre, [gamma] at distance 2, [delta] at distance 3
    and 0 elsewhere, over 7 rows and 7 columns. *)
Theorem tectal_modifiers_manhattan (beta gamma delta : R) (m n : nat) :
  mat_at (tectal_modifiers beta gamma delta) m n =
  if decide (m < 7 /\ n < 7)%nat then
    Some (if decide (manhattan_to_centre m n = 1)%Z then beta
          else if decide (manhattan_to_centre m n = 2)%Z then gamma
          else if decide (manhattan_to_centre m n = 3)%Z then delta
          else 0)
  else None.
Proof.
  destruct (decide (m < 7 /\ n < 7)%nat) as [[Hm Hn]|Hout].
  - do 7 (destruct m as [|m];
          [do 7 (destruct n as [|n]; [reflexivity|]); lia|]).
    lia.
  - do 7 (destruct m as [|m];
          [do 7 (destruct n as [|n]; [exfalso; apply Hout; lia|]); reflexivity|]).
    reflexivity.
Qed.

(** ** Map quality *)

(** X6: [quality] raises [ZeroDivisionError] when there is no tectal
    neuron, and when the retina is empty while the first centroid
    exists. *)
Theorem quality_division_by_zero (XT YT XR YR : nat) (COM_X COM_Y : list R) :
  (XT * YT = 0)%nat \/
  ((XR + YR = 0)%nat /\ COM_X <> [] /\ COM_Y <> []) ->
  quality XT YT XR YR COM_X COM_Y = Raise ZeroDivisionError.
Proof.
  intros [HN|(HD & HX & HY)]; unfold quality.
  - rewrite HN. reflexivity.
  - destruct (decide (XT * YT = 0)%nat) as [HN|HN].
    { rewrite HN. reflexivity. }
    destruct (XT * YT)%nat as [|N] eqn:HNeq; [congruence|].
    set (perfect_x := np_tile (linspace 0 (INR XR - 1) XT) YT).
    set (perfect_y := np_repeat (linspace 0 (INR YR - 1) YT) XT).
    assert (Hpx : length perfect_x = Datatypes.S N).
    { unfold perfect_x. rewrite length_np_tile, length_linspace. lia. }
    assert (Hpy : length perfect_y = Datatypes.S N).
    { unfold perfect_y. rewrite length_np_repeat, length_linspace. lia. }
    destruct COM_X as [|cx COM_X]; [congruence|].
    destruct COM_Y as [|cy COM_Y]; [congruence|].
    destruct perfect_x as [|px perfect_x]; [discriminate|].
    destruct perfect_y as [|py perfect_y]; [discriminate|].
    rewrite HD. simpl. rewrite sqrt_0.
    rewrite decide_True by reflexivity. reflexivity.
Qed.

Lemma quality_division_by_zero_witness :
  quality 0 3 8 8 [1; 2] [] = Raise ZeroDivisionError.
Proof. apply (quality_division_by_zero 0 3 8 8 [1; 2] []). left. reflexivity. Defined.

Lemma aget_outcome {A : Type} (v : list A) (i : Z) :
  (0 <= i)%Z ->
  (exists a, aget v i = Ret a /\ v !! Z.to_nat i = Some a) \/
  (aget v i = Raise IndexError /\ (length v <= Z.to_nat i)%nat).
Proof.
  intros Hi. unfold aget, np_index.
  destruct (decide (0 <= i < Z.of_nat (length v))%Z) as [Hin|Hout]; simpl.
  - left. destruct (lookup_lt_is_Some_2 v (Z.to_nat i)) as [a Ha]; [lia|].
    exists a. rewrite Ha. auto.
  - right. rewrite decide_False by lia. split; [reflexivity | lia].
Qed.

(** X7: [quality] raises [IndexError] when a coordinate array has fewer
    entries than there are tectal neurons. *)
Theorem quality_short_arrays (XT YT XR YR : nat) (COM_X COM_Y : list R) :
  (XR + YR <> 0)%nat ->
  (length COM_X < XT * YT)%nat \/ (length COM_Y < XT * YT)%nat ->
  quality XT YT XR YR COM_X COM_Y = Raise IndexError.
Proof.
  intros HD Hshort. unfold quality.
  set (perfect_x := np_tile (linspace 0 (INR XR - 1) XT) YT).
  set (perfect_y := np_repeat (linspace 0 (INR YR - 1) YT) XT).
  pose proof (max_disp_pos XR YR HD) as Hmax.
  match goal with
  | |- (for_each _ ?b _ ≫= _) = _ => set (body := b)
  end.
  assert (Hloop : for_each (range (XT * YT)) body 0 = Raise IndexError).
  { apply (for_each_raises (fun _ => True)); [exact I | |].
    - intros i q Hi%elem_of_range _. unfold body.
      destruct (aget_outcome COM_X i) as [(cx & -> & _)|[-> _]]; [lia | |];
        simpl; [|left; reflexivity].
      destruct (aget_outcome perfect_x i) as [(px & -> & _)|[-> _]]; [lia | |];
        simpl; [|left; reflexivity].
      destruct (aget_outcome COM_Y i) as [(cy & -> & _)|[-> _]]; [lia | |];
        simpl; [|left; reflexivity].
      destruct (aget_outcome perfect_y i) as [(py & -> & _)|[-> _]]; [lia | |];
        simpl; [|left; reflexivity].
      rewrite decide_False by lra. simpl. right. eexists. split; [reflexivity|exact I].
    - destruct Hshort as [Hx|Hy].
      + exists (Z.of_nat (length COM_X)). split; [apply elem_of_range; lia|].
        intros q _. unfold body.
        destruct (aget_outcome COM_X (Z.of_nat (length COM_X)))
          as [(cx & _ & Hcx)|[-> _]]; [lia | | reflexivity].
        rewrite Nat2Z.id in Hcx. apply lookup_lt_Some in Hcx. lia.
      + exists (Z.of_nat (length COM_Y)). split; [apply elem_of_range; lia|].
        intros q _. unfold body.
        destruct (aget_outcome COM_X (Z.of_nat (length COM_Y)))
          as [(cx & -> & _)|[-> _]]; [lia | | reflexivity]; simpl.
        destruct (aget_outcome perfect_x (Z.of_nat (length COM_Y)))
          as [(px & -> & _)|[-> _]]; [lia | | reflexivity]; simpl.
        destruct (aget_outcome COM_Y (Z.of_nat (length COM_Y)))
          as [(cy & _ & Hcy)|[-> _]]; [lia | | reflexivity].
        rewrite Nat2Z.id in Hcy. apply lookup_lt_Some in Hcy. lia. }
  rewrite Hloop. reflexivity.
Qed.

Lemma quality_short_arrays_witness :
  quality 2 1 8 8 [1] [1; 2] = Raise IndexError.
Proof. apply (quality_short_arrays 2 1 8 8 [1] [1; 2]); [lia | left; simpl; lia]. Defined.

(** ** Relaxation *)

Lemma tectal_loop_post (H_grid_initial : matrix) (XT YT : nat)
    (dt beta gamma delta alpha theta : R) (fuel : nat) :
  shape H_grid_initial YT XT ->
  forall (H_grid : matrix) (n_loops : Z),
    shape H_grid YT XT ->
    match tectal_loop fuel H_grid_initial XT YT dt beta gamma delta alpha theta
            false H_grid n_loops with
    | Ret new_H_grid =>
        shape new_H_grid YT XT /\
        exists H_before,
          shape H_before YT XT /\
          new_H_grid =
            relax_step H_grid_initial dt beta gamma delta alpha theta H_before /\
          Rabs (mean new_H_grid - mean H_before) < 0.005 * mean H_before
    | Raise _ => False
    | OutOfFuel => True
    end.
Proof.
  intros H0. induction fuel as [|fuel IH]; intros H_grid n_loops HH;
    [exact I|].
  simpl. rewrite threshold_grid by exact HH. simpl.
  fold (relax_step H_grid_initial dt beta gamma delta alpha theta H_grid).
  set (H1 := relax_step H_grid_initial dt beta gamma delta alpha theta H_grid).
  assert (HH1 : shape H1 YT XT) by (apply shape_relax_step; assumption).
  destruct (convergence (mean H1) (mean H_grid)) eqn:Hc.
  - split; [exact HH1|]. exists H_grid. split; [exact HH|].
    split; [reflexivity|]. apply convergence_true_iff, Hc.
  - apply IH, HH1.
Qed.

(** X8: on a grid of the announced shape, with or without the verbose
    diagnostics, [tectal_interactions] never raises, and a grid that it
    returns has that shape and comes from a pass that changed the mean of
    the grid by less than 0.5% of its value before the pass. *)
Theorem tectal_interactions_post (H_grid_initial : matrix) (XT YT : nat)
    (dt beta gamma delta alpha theta : R) (verbose : bool) (fuel : nat) :
  shape H_grid_initial YT XT ->
  match tectal_interactions fuel H_grid_initial XT YT dt beta gamma delta
          alpha theta verbose with
  | Ret new_H_grid =>
      shape new_H_grid YT XT /\
      exists H_before,
        shape H_before YT XT /\
        new_H_grid =
          relax_step H_grid_initial dt beta gamma delta alpha theta H_before /\
        Rabs (mean new_H_grid - mean H_before) < 0.005 * mean H_before
  | Raise _ => False
  | OutOfFuel => True
  end.
Proof.
  intros H0. unfold tectal_interactions. destruct verbose.
  - rewrite tectal_loop_verbose_same. apply tectal_loop_post; exact H0.
  - apply tectal_loop_post; exact H0.
Qed.

Lemma tectal_interactions_post_witness :
  match tectal_interactions 1 [[1]] 1 1 1 0.05 0.025 (-0.06) (-1) 10 true with
  | Ret new_H_grid =>
      shape new_H_grid 1 1 /\
      exists H_before,
        shape H_before 1 1 /\
        new_H_grid = relax_step [[1]] 1 0.05 0.025 (-0.06) (-1) 10 H_before /\
        Rabs (mean new_H_grid - mean H_before) < 0.005 * mean H_before
  | Raise _ => False
  | OutOfFuel => True
  end.
Proof.
  apply (tectal_interactions_post [[1]] 1 1 1 0.05 0.025 (-0.06) (-1) 10 true 1).
  split; [reflexivity | repeat constructor].
Defined.

(** X9: a grid with a missing cell of the announced shape makes
    [tectal_interactions] raise [IndexError] at its first pass. *)
Theorem tectal_interactions_small_grid (H_grid_initial : matrix) (XT YT : nat)
    (dt beta gamma delta alpha theta : R) (verbose : bool) (fuel j i : nat) :
  (j < YT)%nat -> (i < XT)%nat -> mat_at H_grid_initial j i = None ->
  tectal_interactions (Datatypes.S fuel) H_grid_initial XT YT dt beta gamma
    delta alpha theta verbose = Raise IndexError.
Proof.
  intros Hj Hi Hnone. unfold tectal_interactions. simpl.
  rewrite (threshold_missing_cell H_grid_initial theta XT YT j i Hj Hi Hnone).
  reflexivity.
Qed.

Lemma tectal_interactions_small_grid_witness :
  tectal_interactions 1 [[1]] 2 1 1 0.05 0.025 (-0.06) (-1) 10 false
  = Raise IndexError.
Proof.
  apply (tectal_interactions_small_grid [[1]] 2 1 1 0.05 0.025 (-0.06) (-1) 10
           false 0 0 1); (lia || reflexivity).
Defined.

(** X10: while no neuron is above the threshold the lateral interactions
    are silent: a pass of the relaxation moves the activity [h] of a
    neuron of retinal drive [h0] to [h + dt * (h0 + alpha * h)]. *)
Theorem relax_step_without_interaction (H_grid_initial H_grid : matrix)
    (XT YT : nat) (dt beta gamma delta alpha theta : R) (y x : nat) (h0 h : R) :
  shape H_grid YT XT ->
  (forall y' x' v, mat_at H_grid y' x' = Some v -> v <= theta) ->
  mat_at H_grid_initial y x = Some h0 ->
  mat_at H_grid y x = Some h ->
  mat_at (relax_step H_grid_initial dt beta gamma delta alpha theta H_grid) y x
  = Some (h + dt * (h0 + alpha * h)).
Proof.
  intros Hshape Hsub H0 Hh.
  rewrite (relax_step_subthreshold _ _ XT YT _ _ _ _ _ _ _ _ h0 h) by assumption.
  f_equal. ring.
Qed.

Lemma relax_step_without_interaction_witness :
  mat_at (relax_step [[1]] 1 0.05 0.025 (-0.06) (-0.5) 10 [[1]]) 0 0
  = Some (1 + 1 * (1 + -0.5 * 1)).
Proof.
  apply (relax_step_without_interaction [[1]] [[1]] 1 1 1 0.05 0.025 (-0.06)
           (-0.5) 10 0 0 1 1).
  - split; [reflexivity | repeat constructor].
  - intros [|y'] [|x'] v; simpl; intros [= <-]. lra.
  - reflexivity.
  - reflexivity.
Defined.

(** X11: a sheet without retinal drive never converges: from the zero
    grid of any shape, with a threshold that is not negative, the
    relaxation loop is still running after any number of passes, with or
    without the verbose diagnostics. *)
Theorem tectal_interactions_zero_drive (XT YT : nat)
    (dt beta gamma delta alpha theta : R) (verbose : bool) (fuel : nat) :
  0 <= theta ->
  tectal_interactions fuel (zero_grid YT XT) XT YT dt beta gamma delta alpha
    theta verbose = OutOfFuel.
Proof.
  intros Htheta. unfold tectal_interactions.
  assert (Hfalse : forall n_loops,
            tectal_loop fuel (zero_grid YT XT) XT YT dt beta gamma delta
              alpha theta false (zero_grid YT XT) n_loops = OutOfFuel).
  { intros n_loops.
    apply (tectal_loop_runs (zero_grid YT XT) XT YT dt beta gamma delta alpha
             theta fuel (shape_zero_grid YT XT) (zero_grid YT XT) n_loops
             (shape_zero_grid YT XT)).
    intros k _. unfold converged_at.
    assert (Hiter : forall n,
              relax_iter n (zero_grid YT XT) dt beta gamma delta alpha theta
                (zero_grid YT XT) = zero_grid YT XT).
    { intros n. induction n as [|n IH]; [reflexivity|].
      simpl. rewrite relax_step_zero_grid by exact Htheta. exact IH. }
    rewrite !Hiter. apply convergence_nonpositive_mean.
    unfold mean. rewrite Rsum_mjoin_zero_grid. unfold Rdiv. lra. }
  destruct verbose.
  - rewrite tectal_loop_verbose_same. apply Hfalse.
  - apply Hfalse.
Qed.

Lemma tectal_interactions_zero_drive_witness :
  tectal_interactions 50 (zero_grid 8 8) 8 8 1 0.05 0.025 (-0.06) (-0.5) 10
    false = OutOfFuel.
Proof.
  apply (tectal_interactions_zero_drive 8 8 1 0.05 0.025 (-0.06) (-0.5) 10
           false 50).
  lra.
Defined.

Lemma tectal_loop_counter (H_grid_initial : matrix) (XT YT : nat)
    (dt beta gamma delta alpha theta : R) (fuel : nat) (H_grid : matrix)
    (n_loops n_loops' : Z) :
  tectal_loop fuel H_grid_initial XT YT dt beta gamma delta alpha theta false
    H_grid n_loops =
  tectal_loop fuel H_grid_initial XT YT dt beta gamma delta alpha theta false
    H_grid n_loops'.
Proof.
  revert H_grid. induction fuel as [|fuel IH]; intros H_grid; [reflexivity|].
  simpl. destruct (threshold H_grid theta XT YT) as [H_star| |]; simpl;
    try reflexivity.
  destruct (convergence _ _); [reflexivity | apply IH].
Qed.

(** X12: the verbose diagnostics never change the outcome of
    [tectal_interactions]; in particular their cap at 20 passes never
    stops the loop. *)
Theorem tectal_interactions_verbose (H_grid_initial : matrix) (XT YT : nat)
    (dt beta gamma delta alpha theta : R) (fuel : nat) :
  tectal_interactions fuel H_grid_initial XT YT dt beta gamma delta alpha theta
    true =
  tectal_interactions fuel H_grid_initial XT YT dt beta gamma delta alpha theta
    false.
Proof.
  unfold tectal_interactions. rewrite tectal_loop_verbose_same.
  apply tectal_loop_counter.
Qed.

(** ** Graded polarity markers *)

Lemma graded_dist_nonneg (XT YT XR YR : nat) (i j : Z) :
  0 <= graded_dist XT YT XR YR i j.
Proof.
  unfold graded_dist. pose proof sqrt2_gt_1 as Hs.
  apply Rmult_le_pos; [apply sqrt_pos|].
  apply Rlt_le, Rinv_0_lt_compat. unfold Rdiv. rewrite Rmult_1_l.
  apply Rinv_0_lt_compat. lra.
Qed.

(** X13: on a synapse matrix of the announced shape, the graded markers
    multiply every synapse by a factor between 1 and 5. *)
Theorem graded_polarity_markers_factor (s : matrix) (XT YT XR YR : nat) :
  shape s (XT * YT) (XR * YR) ->
  exists s',
    graded_polarity_markers s XT YT XR YR = Ret s' /\
    shape s' (XT * YT) (XR * YR) /\
    forall (j i : nat) (w : R),
      mat_at s j i = Some w ->
      exists c, 1 <= c <= 5 /\ mat_at s' j i = Some (c * w).
Proof.
  intros Hshape.
  destruct (graded_polarity_markers_cells s XT YT XR YR Hshape)
    as (s' & Hrun & Hsh & Hcells).
  exists s'. split; [exact Hrun|]. split; [exact Hsh|].
  intros j i w Hw. rewrite (Hcells j i w Hw).
  pose proof (graded_dist_nonneg XT YT XR YR (Z.of_nat i) (Z.of_nat j)) as Hd.
  destruct (decide (graded_dist XT YT XR YR (Z.of_nat i) (Z.of_nat j) < 0.5)).
  - eexists. split; [|reflexivity]. lra.
  - exists 1. split; [lra|]. f_equal. ring.
Qed.

Lemma graded_polarity_markers_factor_witness :
  exists s',
    graded_polarity_markers [[1]; [1]] 2 1 1 1 = Ret s' /\
    shape s' (2 * 1) (1 * 1) /\
    forall (j i : nat) (w : R),
      mat_at [[1]; [1]] j i = Some w ->
      exists c, 1 <= c <= 5 /\ mat_at s' j i = Some (c * w).
Proof.
  apply (graded_polarity_markers_factor [[1]; [1]] 2 1 1 1).
  split; [reflexivity | repeat constructor].
Defined.

(** X14: between two sheets of the same dimensions, the graded markers
    multiply the synapse of every tectal neuron with the retinal neuron
    of the same index by exactly 5. *)
Theorem graded_polarity_markers_diagonal (s : matrix) (X Y : nat) :
  shape s (X * Y) (X * Y) ->
  exists s',
    graded_polarity_markers s X Y X Y = Ret s' /\
    forall (k : nat) (w : R),
      mat_at s k k = Some w -> mat_at s' k k = Some (5 * w).
Proof.
  intros Hshape.
  destruct (graded_polarity_markers_cells s X Y X Y Hshape)
    as (s' & Hrun & _ & Hcells).
  exists s'. split; [exact Hrun|].
  intros k w Hw. rewrite (Hcells k k w Hw).
  destruct (graded_dist_same_position X Y X Y (Z.of_nat k) (Z.of_nat k))
    as [Hd H5]; [reflexivity | reflexivity |].
  rewrite H5, Hd. rewrite decide_True by lra. reflexivity.
Qed.

Lemma graded_polarity_markers_diagonal_witness :
  exists s',
    graded_polarity_markers [[1; 1]; [1; 1]] 2 1 2 1 = Ret s' /\
    forall (k : nat) (w : R),
      mat_at [[1; 1]; [1; 1]] k k = Some w -> mat_at s' k k = Some (5 * w).
Proof.
  apply (graded_polarity_markers_diagonal [[1; 1]; [1; 1]] 2 1).
  split; [reflexivity | repeat constructor].
Defined.

(** ** Hebbian update *)

(** The entries of the updated matrix, as needed below. *)
Lemma update_synaptic_weightings_entries
    (new_H_grid : matrix) (theta : R) (XT YT : nat) (retinal_neurons : list Z)
    (h : R) (s : matrix) (epsilon : R) (n_retinal : nat) :
  shape new_H_grid YT XT ->
  shape s (XT * YT) n_retinal ->
  NoDup retinal_neurons ->
  (forall r, r ∈ retinal_neurons -> (0 <= r < Z.of_nat n_retinal)%Z) ->
  exists s',
    update_synaptic_weightings new_H_grid theta XT YT retinal_neurons h s epsilon
      = Ret s' /\
    shape s' (XT * YT) n_retinal /\
    forall (t r : nat) (a w : R),
      mat_at new_H_grid (t / XT) (t mod XT) = Some a ->
      mat_at s t r = Some w ->
      mat_at s' t r =
      Some (if decide (thresholded theta a > epsilon /\
                       Z.of_nat r ∈ retinal_neurons)
            then w + h * thresholded theta a
            else w).
Proof.
  intros HshapeH Hshape Hnd Hin. unfold update_synaptic_weightings.
  rewrite threshold_grid by exact HshapeH. simpl.
  set (H_star := (fun row : list R => thresholded theta <$> row) <$> new_H_grid).
  assert (HshapeS : shape H_star YT XT) by apply shape_fmap, HshapeH.
  unfold reshape_column.
  rewrite decide_True by (rewrite (length_mjoin_shape _ _ _ HshapeS); lia).
  simpl. set (lin := mjoin H_star).
  assert (Hlen : length lin = (XT * YT)%nat)
    by (unfold lin; rewrite (length_mjoin_shape _ _ _ HshapeS); lia).
  set (val := fun y : Z => default 0 (lin !! Z.to_nat y)).
  assert (Hval : forall y, y ∈ range (XT * YT) -> aget lin y = Ret (val y)).
  { intros y Hy%elem_of_range.
    destruct (lookup_lt_is_Some_2 lin (Z.to_nat y)) as [a Ha]; [lia|].
    rewrite <- (Z2Nat.id y) at 1 by lia.
    rewrite (aget_lookup _ _ _ Ha). unfold val. rewrite Ha. reflexivity. }
  set (active := fun y : Z =>
         if decide (val y > epsilon) then retinal_neurons else []).
  set (body := fun (y x : Z) (s0 : matrix) =>
         a ← aget lin y; madd_at s0 y x (h * a)).
  rewrite (for_each_ext _ _ (fun y s0 => for_each (active y) (body y) s0)).
  2:{ intros y s0 Hy. unfold body, active. rewrite (Hval y Hy). simpl.
      destruct (decide (val y > epsilon)); reflexivity. }
  rewrite for_each_nested.
  destruct (for_each_cells (fun y _ w => w + h * val y)
              (fun p => body p.1 p.2)
              (a' ← range (XT * YT); (fun b' => (a', b')) <$> active a')
              (XT * YT) n_retinal s)
    as (s' & Hrun & Hsh & Hupd); [| exact Hshape | | | ].
  - apply NoDup_cells; [apply NoDup_range|].
    intros y _. unfold active.
    destruct (decide (val y > epsilon)); simpl; [exact Hnd | apply NoDup_nil_2].
  - intros y x [Hy%elem_of_range Hx]%elem_of_cells. split; [lia|].
    unfold active in Hx. destruct (decide (val y > epsilon)); [apply Hin, Hx|].
    apply elem_of_nil in Hx. destruct Hx.
  - intros y x s0 w [Hy Hx]%elem_of_cells Hw. simpl. unfold body.
    rewrite (Hval y Hy). simpl. unfold madd_at.
    assert (0 <= x)%Z.
    { unfold active in Hx. destruct (decide (val y > epsilon)); [apply Hin in Hx; lia|].
      apply elem_of_nil in Hx. destruct Hx. }
    apply elem_of_range in Hy.
    rewrite (mget_cell s0 y x w) by (lia || exact Hw). simpl.
    apply mset_cell with w; (lia || exact Hw).
  - exists s'. split; [exact Hrun|]. split; [exact Hsh|].
    intros t r a w Ha Hw. rewrite Hupd, Hw. simpl.
    assert (Hvt : val (Z.of_nat t) = thresholded theta a).
    { unfold val, lin. rewrite Nat2Z.id.
      rewrite (mjoin_lookup_shape H_star YT XT t (thresholded theta a) HshapeS);
        [reflexivity|].
      unfold H_star. rewrite mat_at_fmap, Ha. reflexivity. }
    destruct (mat_at_shape_inv s _ _ t r Hshape) as [Ht Hr];
      [exists w; exact Hw|].
    assert (Hmem : (Z.of_nat t, Z.of_nat r) ∈
              (a' ← range (XT * YT); (fun b' => (a', b')) <$> active a') <->
            thresholded theta a > epsilon /\ Z.of_nat r ∈ retinal_neurons).
    { rewrite elem_of_cells, elem_of_range. unfold active. rewrite Hvt.
      destruct (decide (thresholded theta a > epsilon)) as [Hgt|Hle].
      - split; [intros [_ ?]; auto | intros [_ ?]; split; [lia | auto]].
      - split; [intros [_ []%elem_of_nil] | intros [? _]; contradiction]. }
    destruct (decide (thresholded theta a > epsilon /\
                      Z.of_nat r ∈ retinal_neurons)) as [Hyes|Hno].
    + rewrite decide_True by (apply Hmem, Hyes). rewrite Hvt. reflexivity.
    + rewrite decide_False by (intros Hc; apply Hno, Hmem, Hc). reflexivity.
Qed.

(** X15: with a learning rate that is not negative, the Hebbian update
    never weakens a synapse. *)
Theorem update_synaptic_weightings_monotone
    (new_H_grid : matrix) (theta : R) (XT YT : nat) (retinal_neurons : list Z)
    (h : R) (s : matrix) (epsilon : R) (n_retinal : nat) :
  0 <= h ->
  shape new_H_grid YT XT ->
  shape s (XT * YT) n_retinal ->
  NoDup retinal_neurons ->
  (forall r, r ∈ retinal_neurons -> (0 <= r < Z.of_nat n_retinal)%Z) ->
  exists s',
    update_synaptic_weightings new_H_grid theta XT YT retinal_neurons h s epsilon
      = Ret s' /\
    forall (t r : nat) (w : R),
      mat_at s t r = Some w ->
      exists w', mat_at s' t r = Some w' /\ w <= w'.
Proof.
  intros Hh HshapeH Hshape Hnd Hin.
  destruct (update_synaptic_weightings_entries new_H_grid theta XT YT
              retinal_neurons h s epsilon n_retinal HshapeH Hshape Hnd Hin)
    as (s' & Hrun & _ & Hentries).
  exists s'. split; [exact Hrun|].
  intros t r w Hw.
  destruct (mat_at_shape_inv s _ _ t r Hshape) as [Ht Hr];
    [exists w; exact Hw|].
  assert (HXT : (XT <> 0)%nat) by (intros ->; lia).
  destruct (mat_at_shape new_H_grid YT XT (t / XT) (t mod XT) HshapeH)
    as [a Ha].
  { apply Nat.Div0.div_lt_upper_bound. lia. }
  { apply Nat.mod_upper_bound. exact HXT. }
  rewrite (Hentries t r a w Ha Hw).
  eexists. split; [reflexivity|].
  destruct (decide _); [|lra].
  assert (0 <= thresholded theta a).
  { unfold thresholded. destruct (decide (a > theta)); lra. }
  nra.
Qed.

Lemma update_synaptic_weightings_monotone_witness :
  exists s',
    update_synaptic_weightings [[12]] 10 1 1 [0%Z] 1 [[1]] 1 = Ret s' /\
    forall (t r : nat) (w : R),
      mat_at [[1]] t r = Some w ->
      exists w', mat_at s' t r = Some w' /\ w <= w'.
Proof.
  apply (update_synaptic_weightings_monotone [[12]] 10 1 1 [0%Z] 1 [[1]] 1 1).
  - lra.
  - split; [reflexivity | repeat constructor].
  - split; [reflexivity | repeat constructor].
  - apply NoDup_singleton.
  - intros r Hr. apply list_elem_of_singleton in Hr. lia.
Defined.

Lemma for_each_unchanged {A S : Type} (l : list A) (body : A -> S -> res S) (s : S) :
  (forall a, a ∈ l -> body a s = Ret s) -> for_each l body s = Ret s.
Proof.
  induction l as [|a l IH]; intros Hbody; [reflexivity|].
  simpl. rewrite Hbody by apply list_elem_of_here. simpl.
  apply IH. intros b Hb. apply Hbody, list_elem_of_further, Hb.
Qed.

(** X16: when no tectal neuron has a thresholded activity above
    [epsilon], the Hebbian update returns the synapse matrix unchanged,
    whatever the matrix and the activation set, which are not read. *)
Theorem update_synaptic_weightings_silent
    (new_H_grid : matrix) (theta : R) (XT YT : nat) (retinal_neurons : list Z)
    (h : R) (s : matrix) (epsilon : R) :
  shape new_H_grid YT XT ->
  (forall y x a, mat_at new_H_grid y x = Some a ->
     thresholded theta a <= epsilon) ->
  update_synaptic_weightings new_H_grid theta XT YT retinal_neurons h s epsilon
  = Ret s.
Proof.
  intros HshapeH Hsilent. unfold update_synaptic_weightings.
  rewrite threshold_grid by exact HshapeH. simpl.
  set (H_star := (fun row : list R => thresholded theta <$> row) <$> new_H_grid).
  assert (HshapeS : shape H_star YT XT) by apply shape_fmap, HshapeH.
  unfold reshape_column.
  rewrite decide_True by (rewrite (length_mjoin_shape _ _ _ HshapeS); lia).
  simpl. apply for_each_unchanged.
  intros y Hy%elem_of_range.
  destruct (lookup_lt_is_Some_2 (mjoin H_star) (Z.to_nat y)) as [a Ha].
  { rewrite (length_mjoin_shape _ _ _ HshapeS). lia. }
  rewrite <- (Z2Nat.id y) by lia. rewrite (aget_lookup _ _ _ Ha). simpl.
  rewrite decide_False; [reflexivity|].
  apply join_lookup_Some in Ha as (j & row & i & Hrow & Hv & _).
  assert (Hat : mat_at H_star j i = Some a) by (apply mat_at_Some; eauto).
  unfold H_star in Hat. rewrite mat_at_fmap in Hat.
  destruct (mat_at new_H_grid j i) as [b|] eqn:Hb; [|discriminate].
  injection Hat as <-. specialize (Hsilent j i b Hb). lra.
Qed.

Lemma update_synaptic_weightings_silent_witness :
  update_synaptic_weightings [[3]] 10 1 1 [7%Z] 1 [[1]] 2 = Ret [[1]].
Proof.
  apply (update_synaptic_weightings_silent [[3]] 10 1 1 [7%Z] 1 [[1]] 2).
  - split; [reflexivity | repeat constructor].
  - intros [|y] [|x] a; simpl; intros [= <-].
    unfold thresholded. destruct (decide (3 > 10)); lra.
Defined.

(** ** Square polarity markers *)

(** X17: with the default anchor, on sheets of at least 2 by 2 neurons,
    the square markers multiply by the strength factor the four synapses
    that join the top-left 2x2 retinal and tectal neurons of the same
    rank, change no other synapse and draw no random number. *)
Theorem square_polarity_markers_default_anchor (s : matrix) (XR YR XT YT : nat)
    (PM_strength_increase : R) (tape : list nat) :
  (2 <= XR)%nat -> (2 <= YR)%nat -> (2 <= XT)%nat -> (2 <= YT)%nat ->
  shape s (XT * YT) (XR * YR) ->
  exists s',
    square_polarity_markers s true XR YR XT YT PM_strength_increase tape
      = Ret (s', tape) /\
    shape s' (XT * YT) (XR * YR) /\
    forall (t r : nat) (w : R),
      mat_at s t r = Some w ->
      mat_at s' t r =
      Some (if decide ((t, r) ∈ [(0, 0); (1, 1); (XT, XR);
                                  (XT + 1, XR + 1)]%nat)
            then w * PM_strength_increase else w).
Proof.
  intros HXR HYR HXT HYT Hshape.
  destruct (square_polarity_markers_default s XR YR XT YT PM_strength_increase
              tape HXR HYR HXT HYT Hshape) as (s' & Hrun & Hsh & Hupd).
  exists s'. split; [exact Hrun|]. split; [exact Hsh|].
  intros t r w Hw. rewrite (Hupd t r), Hw. simpl.
  destruct (decide ((Z.of_nat t, Z.of_nat r) ∈ _)) as [Hin|Hout];
    destruct (decide ((t, r) ∈ _)) as [Hin'|Hout']; try reflexivity; exfalso.
  - apply Hout'. apply list_elem_of_In in Hin. apply list_elem_of_In.
    simpl in *.
    destruct Hin as [[= Ht Hr]|[[= Ht Hr]|[[= Ht Hr]|[[= Ht Hr]|[]]]]];
      [left | right; left | right; right; left | right; right; right; left];
      f_equal; lia.
  - apply Hout. apply list_elem_of_In in Hin'. apply list_elem_of_In.
    simpl in *.
    destruct Hin' as [[= <- <-]|[[= <- <-]|[[= <- <-]|[[= <- <-]|[]]]]];
      [left | right; left | right; right; left | right; right; right; left];
      f_equal; lia.
Qed.

Lemma square_polarity_markers_default_anchor_witness :
  exists s',
    square_polarity_markers (replicate 4 (replicate 4 1)) true 2 2 2 2 5 []
      = Ret (s', []) /\
    shape s' (2 * 2) (2 * 2) /\
    forall (t r : nat) (w : R),
      mat_at (replicate 4 (replicate 4 1)) t r = Some w ->
      mat_at s' t r =
      Some (if decide ((t, r) ∈ [(0, 0); (1, 1); (2, 2); (2 + 1, 2 + 1)]%nat)
            then w * 5 else w).
Proof.
  apply (square_polarity_markers_default_anchor
           (replicate 4 (replicate 4 1)) 2 2 2 2 5 []); try lia.
  split; [reflexivity | repeat constructor].
Defined.

(** X18: the random anchor needs two neurons along each dimension of
    the sheet: with a single row (or none) the selection raises
    [ValueError] at once, and with a single column (or none) it raises it
    after the row is drawn. *)
Theorem configure_retinal_polarity_markers_thin_sheet (XR YR : nat)
    (tape : list nat) :
  (YR <= 1)%nat \/ ((XR <= 1)%nat /\ tape <> []) ->
  configure_retinal_polarity_markers XR YR false tape = Raise ValueError.
Proof.
  intros Hthin. unfold configure_retinal_polarity_markers. cbv zeta.
  cbv [mbind mret rnd_bind rnd_ret]. unfold randint.
  destruct (decide (Z.of_nat YR - 1 <= 0)%Z) as [HY|HY]; [reflexivity|].
  destruct Hthin as [HYR|[HXR Htape]]; [lia|].
  destruct tape as [|r tape]; [congruence|].
  rewrite decide_True by lia. reflexivity.
Qed.

Lemma configure_retinal_polarity_markers_thin_sheet_witness :
  configure_retinal_polarity_markers 8 1 false [3; 4]%nat = Raise ValueError.
Proof.
  apply (configure_retinal_polarity_markers_thin_sheet 8 1 [3; 4]%nat).
  left. lia.
Defined.

(** X19: when the random anchor draws a row other than the first, its
    four retinal markers are distinct neurons of the sheet: the drawn
    neuron, its right neighbour, and the two neurons above them. *)
Theorem configure_retinal_polarity_markers_block (XR YR : nat) (r1 r2 : nat)
    (tape : list nat) :
  (2 <= XR)%nat -> (2 <= YR)%nat ->
  (Z.of_nat r1 mod (Z.of_nat YR - 1) <> 0)%Z ->
  exists y1 x1 : Z,
    (1 <= y1 < Z.of_nat YR - 1)%Z /\ (0 <= x1 < Z.of_nat XR - 1)%Z /\
    configure_retinal_polarity_markers XR YR false (r1 :: r2 :: tape)
    = Ret ((y1 * Z.of_nat XR + x1, y1 * Z.of_nat XR + (x1 + 1),
            (y1 - 1) * Z.of_nat XR + x1, (y1 - 1) * Z.of_nat XR + (x1 + 1))%Z,
           tape) /\
    valid_activation XR YR 4
      [y1 * Z.of_nat XR + x1; y1 * Z.of_nat XR + (x1 + 1);
       (y1 - 1) * Z.of_nat XR + x1; (y1 - 1) * Z.of_nat XR + (x1 + 1)]%Z.
Proof.
  intros HXR HYR Hrow.
  assert (HYR3 : (3 <= YR)%nat).
  { destruct (decide (YR = 2)%nat) as [->|]; [|lia].
    exfalso. apply Hrow. change (Z.of_nat 2 - 1)%Z with 1%Z. apply Z.mod_1_r. }
  pose proof (Z.mod_pos_bound (Z.of_nat r1) (Z.of_nat YR - 1) ltac:(lia)) as Hy.
  pose proof (Z.mod_pos_bound (Z.of_nat r2) (Z.of_nat XR - 1) ltac:(lia)) as Hx.
  exists (Z.of_nat r1 mod (Z.of_nat YR - 1))%Z,
         (Z.of_nat r2 mod (Z.of_nat XR - 1))%Z.
  split; [lia|]. split; [lia|]. split.
  - unfold configure_retinal_polarity_markers. cbv zeta.
    cbv [mbind mret rnd_bind rnd_ret].
    rewrite (randint_cons (Z.of_nat YR - 1) r1 (r2 :: tape)) by lia.
    rewrite (randint_cons (Z.of_nat XR - 1) r2 tape) by lia.
    reflexivity.
  - split; [reflexivity|]. split.
    + apply NoDup_4; intros Heq; apply linear_index_inj in Heq; lia.
    + repeat constructor; nia.
Qed.

Lemma configure_retinal_polarity_markers_block_witness :
  exists y1 x1 : Z,
    (1 <= y1 < Z.of_nat 8 - 1)%Z /\ (0 <= x1 < Z.of_nat 8 - 1)%Z /\
    configure_retinal_polarity_markers 8 8 false [3; 4]%nat
    = Ret ((y1 * Z.of_nat 8 + x1, y1 * Z.of_nat 8 + (x1 + 1),
            (y1 - 1) * Z.of_nat 8 + x1, (y1 - 1) * Z.of_nat 8 + (x1 + 1))%Z,
           []) /\
    valid_activation 8 8 4
      [y1 * Z.of_nat 8 + x1; y1 * Z.of_nat 8 + (x1 + 1);
       (y1 - 1) * Z.of_nat 8 + x1; (y1 - 1) * Z.of_nat 8 + (x1 + 1)]%Z.
Proof.
  apply (configure_retinal_polarity_markers_block 8 8 3 4 []); try lia.
  vm_compute. discriminate.
Defined.

(** ** Sweep pattern *)

Lemma retinal_neuron_sweep_mod (XR YR : nat) (loop_count : Z) :
  retinal_neuron_sweep XR YR loop_count =
  retinal_neuron_sweep XR YR (loop_count mod Z.of_nat (YR + XR)).
Proof.
  unfold retinal_neuron_sweep.
  destruct (decide (YR + XR = 0)%nat); [reflexivity|].
  rewrite Z.mod_mod by lia. reflexivity.
Qed.

Lemma NoDup_fmap_inj {A B : Type} (f : A -> B) (l : list A) :
  (forall a b, a ∈ l -> b ∈ l -> f a = f b -> a = b) ->
  NoDup l -> NoDup (f <$> l).
Proof.
  intros Hinj Hnd. apply NoDup_fmap_2_strong; [|exact Hnd].
  intros a b Ha Hb. apply Hinj; assumption.
Qed.

(** X21: on a square sheet of side [n], the sweep pattern returns, at
    every epoch, [n] distinct neurons of the sheet: the column
    [k = loop_count mod 2n] when [k < n], the row [k - n] otherwise. *)
Theorem retinal_neuron_sweep_square (n : nat) (loop_count : Z) :
  (1 <= n)%nat ->
  exists l,
    retinal_neuron_sweep n n loop_count = Ret l /\
    valid_activation n n n l /\
    l = if decide (loop_count mod Z.of_nat (n + n) < Z.of_nat n)%Z
        then (fun y => y * Z.of_nat n + loop_count mod Z.of_nat (n + n))%Z
               <$> range n
        else (fun x => (loop_count mod Z.of_nat (n + n) - Z.of_nat n)
                         * Z.of_nat n + x)%Z <$> range n.
Proof.
  intros Hn.
  pose proof (Z.mod_pos_bound loop_count (Z.of_nat (n + n)) ltac:(lia)) as Hk.
  set (k := (loop_count mod Z.of_nat (n + n))%Z) in *.
  rewrite retinal_neuron_sweep_mod. fold k.
  destruct (decide (k < Z.of_nat n)%Z) as [Hcol|Hrow].
  - rewrite retinal_neuron_sweep_column by lia.
    eexists. split; [reflexivity|]. split; [|reflexivity].
    split; [rewrite length_fmap; apply length_range|]. split.
    + apply NoDup_fmap_inj; [|apply NoDup_range].
      intros a b _ _ Heq. nia.
    + apply Forall_fmap, Forall_forall. intros y Hy%elem_of_range. simpl. nia.
  - rewrite retinal_neuron_sweep_row by lia.
    eexists. split; [reflexivity|]. split; [|reflexivity].
    split; [rewrite length_fmap; apply length_range|]. split.
    + apply NoDup_fmap_inj; [|apply NoDup_range].
      intros a b _ _ Heq. lia.
    + apply Forall_fmap, Forall_forall. intros x Hx%elem_of_range. simpl. nia.
Qed.

Lemma retinal_neuron_sweep_square_witness :
  exists l,
    retinal_neuron_sweep 8 8 11 = Ret l /\
    valid_activation 8 8 8 l /\
    l = if decide (11 mod Z.of_nat (8 + 8) < Z.of_nat 8)%Z
        then (fun y => y * Z.of_nat 8 + 11 mod Z.of_nat (8 + 8))%Z <$> range 8
        else (fun x => (11 mod Z.of_nat (8 + 8) - Z.of_nat 8) * Z.of_nat 8 + x)%Z
               <$> range 8.
Proof. apply (retinal_neuron_sweep_square 8 11). lia. Defined.

(** ** Single neurons *)

(** X22: on a sheet that is not empty, [singles] returns one neuron of
    the sheet as soon as the tape holds 2 draws, and never raises. *)
Theorem retinal_neuron_singles_in_bounds (XR YR : nat) (tape : list nat) :
  (1 <= XR)%nat -> (1 <= YR)%nat ->
  match retinal_neuron_singles XR YR tape with
  | Ret (l, _) => valid_activation XR YR 1 l
  | Raise _ => False
  | OutOfFuel => (length tape < 2)%nat
  end.
Proof.
  intros HXR HYR.
  assert (Hpost : post (retinal_neuron_singles XR YR) tape
                    (valid_activation XR YR 1)).
  { unfold retinal_neuron_singles. cbv zeta.
    apply post_bind, post_randint; [lia|]. intros y1 Hy1 t1.
    apply post_bind, post_randint; [lia|]. intros x1 Hx1 t2.
    apply post_ret. split; [reflexivity|]. split; [apply NoDup_singleton|].
    pose proof (linear_index_bounds _ _ _ _ Hy1 Hx1).
    repeat constructor; lia. }
  assert (Hret : returns_within 2 (retinal_neuron_singles XR YR)).
  { unfold retinal_neuron_singles. cbv zeta.
    apply (returns_within_bind 1 1); [apply returns_within_randint; lia|].
    intros y1.
    apply (returns_within_bind 1 0); [apply returns_within_randint; lia|].
    intros x1. apply returns_within_ret. }
  unfold post in Hpost. specialize (Hret tape).
  destruct (retinal_neuron_singles XR YR tape) as [[l t]| |]; try exact Hpost.
  destruct (le_lt_dec 2 (length tape)) as [Hlen|Hlen]; [|exact Hlen].
  destruct (Hret Hlen) as (a & t & Hrun & _). discriminate Hrun.
Qed.

Lemma retinal_neuron_singles_in_bounds_witness :
  match retinal_neuron_singles 8 8 [3; 5]%nat with
  | Ret (l, _) => valid_activation 8 8 1 l
  | Raise _ => False
  | OutOfFuel => (length [3; 5]%nat < 2)%nat
  end.
Proof. apply (retinal_neuron_singles_in_bounds 8 8 [3; 5]%nat); lia. Defined.

Lemma retinal_neuron_2_singles_unfold (XR YR : nat) (tape : list nat) :
  retinal_neuron_2_singles XR YR tape =
  retinal_neuron_2_singles_run (Datatypes.S (length tape)) XR YR tape.
Proof. reflexivity. Qed.

(** A neuron other than a given one can be drawn on a sheet of at least
    two neurons. *)
Lemma second_neuron_exit (XR YR RN1 : Z) :
  (1 <= XR)%Z -> (1 <= YR)%Z -> (2 <= XR * YR)%Z ->
  exists ext RN2,
    (y2 ← randint YR; x2 ← randint XR; mret (y2 * XR + x2)%Z) ext
      = Ret (RN2, []) /\
    RN2 <> RN1.
Proof.
  intros HXR HYR Htwo.
  assert (Hrun : forall a b : nat,
            (Z.of_nat a < YR)%Z -> (Z.of_nat b < XR)%Z ->
            (y2 ← randint YR; x2 ← randint XR; mret (y2 * XR + x2)%Z) [a; b]
            = Ret ((Z.of_nat a * XR + Z.of_nat b)%Z, [])).
  { intros a b Ha Hb.
    rewrite (rnd_bind_Ret _ _ _ _ _ (randint_cons YR a [b] ltac:(lia))).
    rewrite (rnd_bind_Ret _ _ _ _ _ (randint_cons XR b [] ltac:(lia))).
    rewrite !Z.mod_small by lia. reflexivity. }
  destruct (decide (RN1 = 0)%Z) as [->|Hne].
  - destruct (decide (2 <= XR)%Z).
    + exists [0; 1]%nat. eexists. split; [apply (Hrun 0 1)%nat; lia | lia].
    + assert (2 <= YR)%Z by nia.
      exists [1; 0]%nat. eexists. split; [apply (Hrun 1 0)%nat; lia | lia].
  - exists [0; 0]%nat. eexists. split; [apply (Hrun 0 0)%nat; lia | lia].
Qed.

Lemma post_retinal_neuron_2_singles_run (fuel XR YR : nat) (tape : list nat) :
  (1 <= XR)%nat -> (1 <= YR)%nat ->
  post (retinal_neuron_2_singles_run fuel XR YR) tape (valid_activation XR YR 2).
Proof.
  intros HXR HYR. unfold retinal_neuron_2_singles_run. cbv zeta.
  apply post_bind, post_randint; [lia|]. intros y1 Hy1 t1.
  apply post_bind, post_randint; [lia|]. intros x1 Hx1 t2.
  set (RN1 := (y1 * Z.of_nat XR + x1)%Z).
  pose proof (linear_index_bounds _ _ _ _ Hy1 Hx1) as Hb1. fold RN1 in Hb1.
  apply post_bind.
  eapply post_conseq;
    [|apply (post_while (fun RN2 =>
                RN2 = RN1 \/ (0 <= RN2 < Z.of_nat XR * Z.of_nat YR)%Z))].
  2:{ left. reflexivity. }
  2:{ intros RN2' t _ _.
      apply post_bind, post_randint; [lia|]. intros y2 Hy2 t3.
      apply post_bind, post_randint; [lia|]. intros x2 Hx2 t4.
      apply post_ret. right. apply linear_index_bounds; assumption. }
  intros RN2 [Hinv Hc] t3. apply bool_decide_eq_false in Hc.
  destruct Hinv as [?|Hb2]; [contradiction|].
  apply post_ret. split; [reflexivity|]. split.
  - apply NoDup_2. congruence.
  - repeat constructor; lia.
Qed.

Lemma completable_retinal_neuron_2_singles_run (XR YR : nat) :
  (1 <= XR)%nat -> (1 <= YR)%nat -> (2 <= XR * YR)%nat ->
  completable (fun fuel => retinal_neuron_2_singles_run fuel XR YR)
    (fun _ => True).
Proof.
  intros HXR HYR Htwo. unfold retinal_neuron_2_singles_run. cbv zeta.
  eapply completable_bind with (Q := fun y1 => (0 <= y1 < Z.of_nat YR)%Z).
  { apply fregular_const, regular_randint. }
  { apply (completable_const 1); [apply returns_within_randint; lia|].
    intros tape. apply post_randint; [lia | auto]. }
  intros y1 Hy1.
  eapply completable_bind with (Q := fun x1 => (0 <= x1 < Z.of_nat XR)%Z).
  { apply fregular_const, regular_randint. }
  { apply (completable_const 1); [apply returns_within_randint; lia|].
    intros tape. apply post_randint; [lia | auto]. }
  intros x1 Hx1.
  set (RN1 := (y1 * Z.of_nat XR + x1)%Z).
  eapply completable_bind.
  { apply fregular_while. intros _. solve_regular. }
  { apply (completable_while (fun _ => True)).
    - intros _. solve_regular.
    - intros RN2' t _ _.
      apply post_bind, post_randint; [lia|]. intros y2 Hy2 t3.
      apply post_bind, post_randint; [lia|]. intros x2 Hx2 t4.
      apply post_ret. exact I.
    - intros _. apply draws_bind; [apply draws_randint|]. intros y2.
      solve_regular.
    - intros _ [|r [|r' tape]] _ _ Hrun.
      + exists [0; 0]%nat. eexists.
        rewrite (rnd_bind_Ret _ _ _ _ _
                   (randint_cons (Z.of_nat YR) 0 [0%nat] ltac:(lia))).
        rewrite (rnd_bind_Ret _ _ _ _ _
                   (randint_cons (Z.of_nat XR) 0 [] ltac:(lia))).
        reflexivity.
      + exists [0%nat]. eexists. simpl.
        rewrite (rnd_bind_Ret _ _ _ _ _
                   (randint_cons (Z.of_nat YR) r [0%nat] ltac:(lia))).
        rewrite (rnd_bind_Ret _ _ _ _ _
                   (randint_cons (Z.of_nat XR) 0 [] ltac:(lia))).
        reflexivity.
      + rewrite (rnd_bind_Ret _ _ _ _ _
                   (randint_cons (Z.of_nat YR) r (r' :: tape) ltac:(lia))) in Hrun.
        rewrite (rnd_bind_Ret _ _ _ _ _
                   (randint_cons (Z.of_nat XR) r' tape ltac:(lia))) in Hrun.
        discriminate Hrun.
    - intros _ _ _.
      destruct (second_neuron_exit (Z.of_nat XR) (Z.of_nat YR) RN1)
        as (ext & RN2 & Hrun & Hne); [lia | lia | nia |].
      exists ext, RN2. split; [exact Hrun|].
      apply bool_decide_eq_false. exact Hne.
    - exact I. }
  intros RN2 _.
  apply (completable_const 0); [apply returns_within_ret|].
  intros tape. apply post_ret. exact I.
Qed.

(** X23: on a sheet of at least two neurons, for every tape of random
    draws, [2_singles] never raises and returns 2 distinct neurons of the
    sheet; its rejection loop is only stopped by the end of the tape, and
    every tape has an extension on which it exits. *)
Theorem retinal_neuron_2_singles_distinct (XR YR : nat) (tape : list nat) :
  (1 <= XR)%nat -> (1 <= YR)%nat -> (2 <= XR * YR)%nat ->
  match retinal_neuron_2_singles XR YR tape with
  | Ret (l, _) => valid_activation XR YR 2 l
  | Raise _ => False
  | OutOfFuel =>
      exists ext l t, retinal_neuron_2_singles XR YR (tape ++ ext) = Ret (l, t)
  end.
Proof.
  intros HXR HYR Htwo.
  pose proof (post_retinal_neuron_2_singles_run (Datatypes.S (length tape))
                XR YR tape HXR HYR) as Hpost.
  unfold post in Hpost. rewrite retinal_neuron_2_singles_unfold.
  destruct (retinal_neuron_2_singles_run _ XR YR tape) as [[l t]| |];
    try exact Hpost.
  destruct (completable_retinal_neuron_2_singles_run XR YR HXR HYR Htwo tape)
    as (ext & l & t & _ & Hrun).
  exists ext, l, t. rewrite retinal_neuron_2_singles_unfold. apply Hrun. lia.
Qed.

Lemma retinal_neuron_2_singles_distinct_witness :
  match retinal_neuron_2_singles 8 8 [3; 5; 3; 5; 2; 0]%nat with
  | Ret (l, _) => valid_activation 8 8 2 l
  | Raise _ => False
  | OutOfFuel =>
      exists ext l t,
        retinal_neuron_2_singles 8 8 ([3; 5; 3; 5; 2; 0]%nat ++ ext) = Ret (l, t)
  end.
Proof.
  apply (retinal_neuron_2_singles_distinct 8 8 [3; 5; 3; 5; 2; 0]%nat); lia.
Defined.

Lemma retinal_neuron_2_singles_1_by_1 (tape : list nat) :
  retinal_neuron_2_singles 1 1 tape = OutOfFuel.
Proof.
  rewrite retinal_neuron_2_singles_unfold.
  generalize (Datatypes.S (length tape)). intros fuel.
  unfold retinal_neuron_2_singles_run. cbv zeta.
  change (Z.of_nat 1) with 1%Z.
  destruct tape as [|r1 [|r2 tape]].
  - reflexivity.
  - rewrite (rnd_bind_Ret _ _ _ _ _ (randint_cons 1 r1 [] ltac:(lia))).
    reflexivity.
  - rewrite (rnd_bind_Ret _ _ _ _ _ (randint_cons 1 r1 (r2 :: tape) ltac:(lia))).
    rewrite (rnd_bind_Ret _ _ _ _ _ (randint_cons 1 r2 tape ltac:(lia))).
    rewrite !Z.mod_1_r. change (0 * 1 + 0)%Z with 0%Z.
    apply rnd_bind_OutOfFuel.
    clear r1 r2. revert tape.
    induction fuel as [|fuel IH]; intros tape; [reflexivity|].
    simpl. destruct tape as [|r1 [|r2 tape]].
    + reflexivity.
    + apply rnd_bind_OutOfFuel.
      rewrite (rnd_bind_Ret _ _ _ _ _ (randint_cons 1 r1 [] ltac:(lia))).
      reflexivity.
    + rewrite (rnd_bind_Ret _ _ (r1 :: r2 :: tape) tape 0%Z).
      * apply IH.
      * rewrite (rnd_bind_Ret _ _ _ _ _
                   (randint_cons 1 r1 (r2 :: tape) ltac:(lia))).
        rewrite (rnd_bind_Ret _ _ _ _ _ (randint_cons 1 r2 tape ltac:(lia))).
        rewrite !Z.mod_1_r. reflexivity.
Qed.

(** X24: on a retina of a single neuron [2_singles] never returns: every
    draw is the neuron already chosen, and the rejection loop runs for as
    long as there are draws. *)
Theorem retinal_neuron_2_singles_single_neuron (XR YR : nat) (tape : list nat) :
  (XR * YR = 1)%nat ->
  retinal_neuron_2_singles XR YR tape = OutOfFuel.
Proof.
  intros Hone.
  apply Nat.eq_mul_1 in Hone as [-> ->]. apply retinal_neuron_2_singles_1_by_1.
Qed.

Lemma retinal_neuron_2_singles_single_neuron_witness :
  retinal_neuron_2_singles 1 1 [4; 7; 1; 8; 2]%nat = OutOfFuel.
Proof.
  apply (retinal_neuron_2_singles_single_neuron 1 1 [4; 7; 1; 8; 2]%nat).
  reflexivity.
Defined.

(** ** Dispatch on the policy name *)

Lemma wrapped_result_not_None {A : Type} (m : rnd A) (tape t : list nat) :
  (l ← m; mret (Some l)) tape <> Ret (None, t).
Proof.
  intros (a & t' & _ & Hret)%rnd_bind_inv_Ret. discriminate Hret.
Qed.

(** X25: the dispatchers return [None] for unrecognised names only: with
    one of the eight policy names [activate_retinal_neurons] returns a
    list, raises or runs on, and with one of the two marker kinds
    [implement_polarity_markers] returns a matrix or raises. *)
Theorem dispatch_recognised_not_None
    (activity_pattern PM_type : string) (XR YR XT YT : nat) (loop_count : Z)
    (s : matrix) (default_polarity_markers : bool) (PM_strength_increase : R)
    (tape t : list nat) :
  activity_pattern ∈ activity_patterns ->
  PM_type ∈ PM_types ->
  activate_retinal_neurons activity_pattern XR YR loop_count tape
    <> Ret (None, t) /\
  implement_polarity_markers PM_type s default_polarity_markers XR YR XT YT
    PM_strength_increase tape <> Ret (None, t).
Proof.
  intros Ha Hp. split.
  - apply list_elem_of_In in Ha. simpl in Ha.
    repeat (destruct Ha as [<-|Ha];
            [first [apply wrapped_result_not_None | discriminate]|]).
    destruct Ha.
  - apply list_elem_of_In in Hp. simpl in Hp.
    repeat (destruct Hp as [<-|Hp];
            [first [apply wrapped_result_not_None | discriminate]|]).
    destruct Hp.
Qed.

Lemma dispatch_recognised_not_None_witness :
  activate_retinal_neurons "strobe" 8 8 0 [] <> Ret (None, []) /\
  implement_polarity_markers "graded" (zero_grid 4 4) true 8 8 2 2 1 []
    <> Ret (None, []).
Proof.
  apply dispatch_recognised_not_None.
  - unfold activity_patterns.
    repeat first [apply list_elem_of_here | apply list_elem_of_further].
  - unfold PM_types.
    repeat first [apply list_elem_of_here | apply list_elem_of_further].
Defined.

(** ** Normalisation *)

Lemma row_get_lookup (s : matrix) (y : nat) (row : list R) :
  s !! y = Some row -> row_get s (Z.of_nat y) = Ret row.
Proof.
  intros Hrow. unfold row_get, np_index.
  pose proof (lookup_lt_Some _ _ _ Hrow) as Hlt.
  rewrite decide_True by lia. simpl. rewrite Nat2Z.id, Hrow. reflexivity.
Qed.

Lemma cell_set_row (s : matrix) (y x : nat) (v : R) (row : list R) :
  s !! y = Some row -> cell_set s y x v = <[y := <[x := v]> row]> s.
Proof.
  intros Hrow. unfold cell_set. apply list_eq. intros i.
  destruct (decide (i = y)) as [->|Hne].
  - rewrite list_lookup_alter_eq, Hrow. simpl.
    rewrite list_lookup_insert_eq by (eapply lookup_lt_Some; eassumption).
    reflexivity.
  - rewrite list_lookup_alter_ne, list_lookup_insert_ne by congruence.
    reflexivity.
Qed.

(** The inner loop of [normalise] on row [y]. *)
Lemma scale_row_loop (c : R) (y : nat) (m : nat) :
  forall (k : nat) (s0 : matrix) (row : list R),
    s0 !! y = Some row -> (k + m)%nat = length row ->
    for_each (Z.of_nat <$> seq k m)
      (fun x s => v ← mget s (Z.of_nat y) x; mset s (Z.of_nat y) x (c * v)) s0
    = Ret (<[y := take k row ++ ((fun v => c * v) <$> drop k row)]> s0).
Proof.
  induction m as [|m IH]; intros k s0 row Hrow Hlen.
  - simpl. rewrite drop_ge, take_ge by lia. simpl. rewrite app_nil_r.
    rewrite list_insert_id by assumption. reflexivity.
  - destruct (lookup_lt_is_Some_2 row k ltac:(lia)) as [v Hv].
    assert (Hcell : mat_at s0 (Z.to_nat (Z.of_nat y)) (Z.to_nat (Z.of_nat k))
                    = Some v).
    { rewrite !Nat2Z.id. unfold mat_at. rewrite Hrow. exact Hv. }
    simpl.
    rewrite (mget_cell _ _ _ _ (Nat2Z.is_nonneg y) (Nat2Z.is_nonneg k) Hcell).
    simpl.
    rewrite (mset_cell _ _ _ _ (c * v) (Nat2Z.is_nonneg y) (Nat2Z.is_nonneg k)
               Hcell).
    simpl.
    rewrite !Nat2Z.id. rewrite (cell_set_row _ _ _ _ _ Hrow).
    rewrite (IH (Datatypes.S k) _ (<[k := c * v]> row)).
    + rewrite list_insert_insert_eq. f_equal.
      rewrite take_insert_lt by lia. rewrite drop_insert_lt by lia.
      rewrite (take_S_r _ _ _ Hv), (drop_S _ _ _ Hv).
      rewrite insert_app_r_alt by (rewrite length_take; lia).
      rewrite length_take, Nat.min_l by lia. rewrite Nat.sub_diag. simpl.
      rewrite <- app_assoc. reflexivity.
    + apply list_lookup_insert_eq. eapply lookup_lt_Some; eassumption.
    + rewrite length_insert. lia.
Qed.

(** The outer loop of [normalise]: the rows are rescaled one after the
    other, each by the mean it has when its turn comes. *)
Lemma normalise_loop (ND_mean : R) (XR YR : nat) (m : nat) :
  forall (k : nat) (s0 : matrix),
    (k + m)%nat = length s0 ->
    Forall (fun row => length row = (XR * YR)%nat) (drop k s0) ->
    for_each (Z.of_nat <$> seq k m)
      (fun y s =>
         row ← row_get s y;
         let mean_T := mean1 row in
         for_each (range (XR * YR))
           (fun x s => v ← mget s y x; mset s y x ((ND_mean / mean_T) * v)) s)
      s0
    = Ret (take k s0 ++ (scale_to ND_mean <$> drop k s0)).
Proof.
  induction m as [|m IH]; intros k s0 Hlen Hrows.
  - simpl. rewrite drop_ge, take_ge by lia. simpl. rewrite app_nil_r.
    reflexivity.
  - destruct (lookup_lt_is_Some_2 s0 k ltac:(lia)) as [row Hrow].
    rewrite (drop_S _ _ _ Hrow) in Hrows.
    apply Forall_cons in Hrows as [Hrowlen Hrows].
    simpl. rewrite (row_get_lookup _ _ _ Hrow). simpl.
    unfold range.
    rewrite (scale_row_loop _ k (XR * YR) 0 s0 row Hrow) by lia.
    rewrite drop_0, take_0. simpl.
    rewrite IH.
    + f_equal. rewrite take_insert_lt by lia. rewrite drop_insert_lt by lia.
      rewrite (take_S_r _ _ _ Hrow), (drop_S _ _ _ Hrow).
      rewrite insert_app_r_alt by (rewrite length_take; lia).
      rewrite length_take, Nat.min_l by lia. rewrite Nat.sub_diag. simpl.
      rewrite <- app_assoc. reflexivity.
    + rewrite length_insert. lia.
    + rewrite drop_insert_lt by lia. exact Hrows.
Qed.

Lemma normalise_rows (s : matrix) (ND_mean : R) (XT YT XR YR : nat) :
  shape s (XT * YT) (XR * YR) ->
  normalise s ND_mean XT YT XR YR = Ret (scale_to ND_mean <$> s).
Proof.
  intros [Hlen Hrows].
  pose proof (normalise_loop ND_mean XR YR (XT * YT) 0 s) as Hloop.
  rewrite take_0, drop_0 in Hloop. apply Hloop; auto.
Qed.

(** X26: on a matrix of [XT*YT] rows of [XR*YR] entries none of whose
    rows has mean 0, [normalise] returns a matrix of the same shape in
    which every entry is the old one times the quotient of [ND_mean] by
    the mean that its row had before the call: the mean of a row is taken
    once, before any of its entries is rewritten, and no row is touched
    by the passes over the others. *)
Theorem normalise_entries (s : matrix) (ND_mean : R) (XT YT XR YR : nat) :
  shape s (XT * YT) (XR * YR) ->
  Forall (fun row => mean1 row <> 0) s ->
  exists s',
    normalise s ND_mean XT YT XR YR = Ret s' /\
    shape s' (XT * YT) (XR * YR) /\
    forall y x row v,
      s !! y = Some row -> row !! x = Some v ->
      mat_at s' y x = Some (ND_mean / mean1 row * v).
Proof.
  intros Hshape Hmeans. exists (scale_to ND_mean <$> s).
  split; [apply normalise_rows; exact Hshape|].
  destruct Hshape as [Hlen Hrows]. split.
  - split; [rewrite length_fmap; exact Hlen|].
    apply Forall_fmap. eapply Forall_impl; [exact Hrows|].
    intros row Hrow. simpl. unfold scale_to. rewrite length_fmap. exact Hrow.
  - intros y x row v Hrow Hv. unfold mat_at.
    rewrite list_lookup_fmap, Hrow. simpl. unfold scale_to.
    rewrite list_lookup_fmap, Hv. reflexivity.
Qed.

Lemma normalise_entries_witness :
  exists s',
    normalise [[1; 3]; [2; 2]] 5 1 2 2 1 = Ret s' /\
    shape s' (1 * 2) (2 * 1) /\
    forall y x row v,
      [[1; 3]; [2; 2]] !! y = Some row -> row !! x = Some v ->
      mat_at s' y x = Some (5 / mean1 row * v).
Proof.
  apply (normalise_entries [[1; 3]; [2; 2]] 5 1 2 2 1).
  - split; [reflexivity|]. repeat constructor.
  - repeat constructor; unfold mean1, Rsum; simpl; lra.
Defined.

(** ** Activation of the tectal sheet *)

Lemma aset_lookup {A : Type} (v : list A) (i : nat) (a : A) :
  (i < length v)%nat -> aset v (Z.of_nat i) a = Ret (<[i := a]> v).
Proof.
  intros Hi. unfold aset. rewrite np_index_nonneg by lia. simpl.
  rewrite Nat2Z.id. reflexivity.
Qed.

Lemma for_each_cons {A S : Type} (a : A) (l : list A) (body : A -> S -> res S)
    (s : S) :
  for_each (a :: l) body s = s' ← body a s; for_each l body s'.
Proof. reflexivity. Qed.







(** ** Centres of mass *)

Lemma np_reshape_row_grid (v : list R) (rows cols : nat) :
  length v = (rows * cols)%nat -> np_reshape v rows cols = Ret (row_grid v rows cols).
Proof.
  intros Hlen. unfold np_reshape. rewrite decide_True by exact Hlen. reflexivity.
Qed.

(** One pass of the loop of [calculate_COM]. *)
Lemma calculate_COM_step (s : matrix) (XR YR : nat) (k : nat) (row : list R)
    (X Y : list R) :
  s !! k = Some row -> length row = (YR * XR)%nat ->
  (k < length X)%nat -> (k < length Y)%nat ->
  (row ← row_get s (Z.of_nat k);
   COM_grid ← np_reshape row YR XR;
   let COM := center_of_mass COM_grid in
   COM_Y ← aset Y (Z.of_nat k) COM.1;
   COM_X ← aset X (Z.of_nat k) COM.2;
   Ret (COM_X, COM_Y))
  = Ret (<[k := (row_COM YR XR row).2]> X, <[k := (row_COM YR XR row).1]> Y).
Proof.
  intros Hrow Hlen HX HY.
  rewrite (row_get_lookup _ _ _ Hrow).
  change (Ret ?a ≫= ?f) with (f a). cbv beta.
  rewrite (np_reshape_row_grid _ _ _ Hlen).
  change (Ret ?a ≫= ?f) with (f a). cbv beta zeta.
  rewrite (aset_lookup _ _ _ HY).
  change (Ret ?a ≫= ?f) with (f a). cbv beta.
  rewrite (aset_lookup _ _ _ HX).
  reflexivity.
Qed.

Lemma calculate_COM_loop (s : matrix) (XR YR : nat) (m : nat) :
  forall (k : nat) (preX preY : list R),
    length preX = k -> length preY = k -> (k + m)%nat = length s ->
    Forall (fun row => length row = (YR * XR)%nat) s ->
    for_each (Z.of_nat <$> seq k m)
      (fun tectal_neuron '(COM_X, COM_Y) =>
         row ← row_get s tectal_neuron;
         COM_grid ← np_reshape row YR XR;
         let COM := center_of_mass COM_grid in
         COM_Y ← aset COM_Y tectal_neuron COM.1;
         COM_X ← aset COM_X tectal_neuron COM.2;
         Ret (COM_X, COM_Y))
      (preX ++ replicate m 0, preY ++ replicate m 0)
    = Ret (preX ++ ((fun row => (row_COM YR XR row).2) <$> drop k s),
           preY ++ ((fun row => (row_COM YR XR row).1) <$> drop k s)).
Proof.
  induction m as [|m IH]; intros k preX preY HpreX HpreY Hlen Hrows.
  - simpl. rewrite drop_ge by lia. reflexivity.
  - destruct (lookup_lt_is_Some_2 s k ltac:(lia)) as [row Hrow].
    pose proof (Forall_lookup_1 _ _ _ _ Hrows Hrow) as Hrowlen.
    simpl in Hrowlen.
    rewrite <- cons_seq, fmap_cons, for_each_cons. cbv beta iota.
    rewrite (calculate_COM_step s XR YR k row _ _ Hrow Hrowlen)
      by (rewrite length_app, length_replicate; lia).
    change (Ret ?a ≫= ?f) with (f a). cbv beta.
    change (replicate (Datatypes.S m) 0) with (0 :: replicate m 0).
    rewrite !insert_app_r_alt by lia.
    rewrite HpreX, HpreY, Nat.sub_diag. simpl insert.
    rewrite (cons_middle _ preX), (cons_middle _ preY), !app_assoc.
    rewrite IH; [|rewrite length_app; simpl; lia..|lia|assumption].
    rewrite (drop_S _ _ _ Hrow). rewrite !fmap_cons.
    rewrite <- !app_assoc. reflexivity.
Qed.

Lemma calculate_COM_rows (s : matrix) (XT YT XR YR : nat) :
  shape s (XT * YT) (XR * YR) ->
  calculate_COM s XT YT XR YR
  = Ret ((fun row => (row_COM YR XR row).2) <$> s,
         (fun row => (row_COM YR XR row).1) <$> s).
Proof.
  intros [Hlen Hrows].
  pose proof (calculate_COM_loop s XR YR (XT * YT) 0 [] [] eq_refl eq_refl
                ltac:(simpl; lia)) as Hloop.
  rewrite drop_0 in Hloop. change ([] ++ ?l) with l in Hloop.
  unfold calculate_COM. cbv zeta. rewrite (Nat.mul_comm YT XT).
  apply Hloop.
  eapply Forall_impl; [exact Hrows|]. intros row Hrow. simpl in *. lia.
Qed.

Lemma Rsum_app (l1 l2 : list R) : Rsum (l1 ++ l2) = Rsum l1 + Rsum l2.
Proof.
  induction l1 as [|a l1 IH].
  - unfold Rsum. simpl. lra.
  - change (Rsum ((a :: l1) ++ l2)) with (a + Rsum (l1 ++ l2)).
    change (Rsum (a :: l1)) with (a + Rsum l1). rewrite IH. lra.
Qed.

Lemma mjoin_row_grid (row : list R) (YR XR : nat) :
  mjoin (row_grid row YR XR) = take (YR * XR) row.
Proof.
  unfold row_grid. induction YR as [|YR IH].
  - reflexivity.
  - rewrite seq_S, fmap_app, join_app, IH. simpl.
    rewrite app_nil_r, take_take_drop. f_equal. lia.
Qed.

Lemma Rsum_imap_nonneg (row : list R) :
  forall h : nat -> R -> R,
    (forall x v, 0 <= v -> 0 <= h x v) ->
    Forall (fun v => 0 <= v) row ->
    0 <= Rsum (imap h row).
Proof.
  induction row as [|v row IH]; intros h Hh Hpos.
  - unfold Rsum. simpl. lra.
  - apply Forall_cons in Hpos as [Hv Hpos]. rewrite imap_cons.
    change (Rsum (h 0%nat v :: imap (h ∘ Datatypes.S) row))
      with (h 0%nat v + Rsum (imap (h ∘ Datatypes.S) row)).
    pose proof (Hh 0%nat v Hv).
    pose proof (IH (h ∘ Datatypes.S) (fun x w Hw => Hh (Datatypes.S x) w Hw) Hpos).
    lra.
Qed.

Lemma Rsum_mjoin_imap_nonneg (g : matrix) :
  forall f : nat -> list R -> list R,
    (forall i row, g !! i = Some row -> 0 <= Rsum (f i row)) ->
    0 <= Rsum (mjoin (imap f g)).
Proof.
  induction g as [|r g IH]; intros f Hf.
  - unfold Rsum. simpl. lra.
  - rewrite imap_cons. simpl mjoin. rewrite Rsum_app.
    pose proof (Hf 0%nat r eq_refl).
    pose proof (IH (f ∘ Datatypes.S) (fun i row Hi => Hf (Datatypes.S i) row Hi)).
    lra.
Qed.

Lemma quotient_nonneg (A N : R) : 0 < N -> 0 <= A -> 0 <= A / N.
Proof.
  intros HN HA. pose proof (Rinv_0_lt_compat _ HN) as Hi.
  unfold Rdiv. apply Rmult_le_pos; lra.
Qed.

(** Both coordinates of the centre of mass of weights that are not
    negative, with a positive sum, are sums of products of numbers that
    are not negative, over that positive sum. *)
Lemma center_of_mass_nonneg (g : matrix) :
  Forall (Forall (fun v => 0 <= v)) g ->
  0 < Rsum (mjoin g) ->
  0 <= (center_of_mass g).1 /\ 0 <= (center_of_mass g).2.
Proof.
  intros Hpos HN. unfold center_of_mass. cbv zeta. simpl.
  split; apply quotient_nonneg; try exact HN; apply Rsum_mjoin_imap_nonneg;
    intros y row Hrow;
    pose proof (Forall_lookup_1 _ _ _ _ Hpos Hrow) as Hrowpos; simpl in *.
  - rewrite <- (imap_const (fun v => v * INR y)).
    apply Rsum_imap_nonneg; [|exact Hrowpos].
    intros x v Hv. unfold const. apply Rmult_le_pos; [exact Hv | apply pos_INR].
  - apply Rsum_imap_nonneg; [|exact Hrowpos].
    intros x v Hv. apply Rmult_le_pos; [exact Hv | apply pos_INR].
Qed.

Lemma row_grid_nonneg (row : list R) (YR XR : nat) :
  Forall (fun v => 0 <= v) row ->
  Forall (Forall (fun v => 0 <= v)) (row_grid row YR XR).
Proof.
  intros Hpos. unfold row_grid. apply Forall_fmap, Forall_forall.
  intros j _. simpl. apply Forall_take, Forall_drop. exact Hpos.
Qed.

(** X30: no centre of mass has a negative coordinate: on strengths of
    [XT*YT] rows of [XR*YR] entries, none negative and every row with a
    positive sum, [calculate_COM] returns two arrays of [XT*YT]
    coordinates none of which is negative. *)
Theorem calculate_COM_nonneg (s : matrix) (XT YT XR YR : nat) :
  shape s (XT * YT) (XR * YR) ->
  Forall (Forall (fun v => 0 <= v)) s ->
  Forall (fun row => 0 < Rsum row) s ->
  exists COM_X COM_Y,
    calculate_COM s XT YT XR YR = Ret (COM_X, COM_Y) /\
    length COM_X = (XT * YT)%nat /\ length COM_Y = (XT * YT)%nat /\
    Forall (fun x => 0 <= x) COM_X /\
    Forall (fun y => 0 <= y) COM_Y.
Proof.
  intros Hshape Hpos Hsums.
  do 2 eexists. split; [apply calculate_COM_rows; exact Hshape|].
  destruct Hshape as [Hlen Hrows].
  assert (Hrow : forall row, row ∈ s ->
            0 <= (row_COM YR XR row).1 /\ 0 <= (row_COM YR XR row).2).
  { intros row Hin.
    pose proof (proj1 (Forall_forall _ _) Hrows row Hin) as Hrowlen.
    pose proof (proj1 (Forall_forall _ _) Hpos row Hin) as Hrowpos.
    pose proof (proj1 (Forall_forall _ _) Hsums row Hin) as Hrowsum.
    simpl in Hrowlen, Hrowpos, Hrowsum.
    apply center_of_mass_nonneg.
    - apply row_grid_nonneg. exact Hrowpos.
    - rewrite mjoin_row_grid, take_ge by lia. exact Hrowsum. }
  rewrite !length_fmap. repeat split; try exact Hlen.
  - apply Forall_fmap, Forall_forall. intros row Hin. apply (Hrow row Hin).
  - apply Forall_fmap, Forall_forall. intros row Hin. apply (Hrow row Hin).
Qed.

Lemma calculate_COM_nonneg_witness :
  exists COM_X COM_Y,
    calculate_COM [[1; 3]; [2; 0]] 1 2 2 1 = Ret (COM_X, COM_Y) /\
    length COM_X = (1 * 2)%nat /\ length COM_Y = (1 * 2)%nat /\
    Forall (fun x => 0 <= x) COM_X /\
    Forall (fun y => 0 <= y) COM_Y.
Proof.
  apply (calculate_COM_nonneg [[1; 3]; [2; 0]] 1 2 2 1).
  - split; [reflexivity|]. repeat constructor.
  - repeat constructor; lra.
  - repeat constructor; unfold Rsum; simpl; lra.
Defined.
